(** * Stochastic graph-based planner: a shallow embedding

  This development embeds
  [rl_agents/agents/tree_search/graph_based_stochastic.py] and states the
  behaviour of its decision nodes, chance nodes and planner loop.

  Python objects are mutable and shared by reference, so the planner state
  carries two typed stores, one of [GraphDecisionNode] objects and one of
  [GraphChanceNode] objects; a reference is an index into its store.
  Methods are state transformers that either return a value or raise.

  The two node classes have methods of the same name; the methods of
  [GraphDecisionNode] carry the prefix [d_] here ([d_update], [d_backup],
  [d_get_child]) and those of [GraphChanceNode] the prefix [c_]
  ([c_update], [c_backup], [c_get_child]). *)

From Stdlib Require Import QArith Qabs.
From stdpp Require Import base option list gmap strings pretty.

Open Scope string_scope.
Open Scope list_scope.
Open Scope nat_scope.

(** ** Numbers

  Rewards, values and thresholds are Python numbers (ints, floats, numpy
  scalars).  The embedding is generic in the number type: only the
  operations the source applies are required. *)

Class Numeric (num : Type) := {
zero : num;                        (* the literal 0 *)
one : num;                         (* the literal 1 *)
add : num → num → num;             (* x + y *)
sub : num → num → num;             (* x - y *)
mul : num → num → num;             (* x * y *)
div : num → num → num;             (* x / y, for a divisor that is not 0 *)
opp : num → num;                   (* -x *)
absolute : num → num;              (* abs(x) *)
gtb : num → num → bool;            (* x > y *)
eqb_num : num → num → bool;        (* x == y *)
of_int : nat → num;                (* a visit count used as a number *)
str_num : num → string;            (* str(x) *)
}.

(** The order facts used by the value-iteration statement: [>] is a strict
  weak order and [abs] is never negative. *)
Class NumericOrder (num : Type) `{Numeric num} : Prop := {
gtb_irrefl : ∀ x : num, gtb x x = false;
gtb_trans : ∀ x y z : num, gtb x y = true → gtb y z = true → gtb x z = true;
gtb_cotrans : ∀ x y z : num, gtb x y = true → gtb x z = true ∨ gtb z y = true;
absolute_nonneg : ∀ x : num, gtb zero (absolute x) = false;
}.

(** ** Plain data *)

Abbreviation action := nat (only parsing).
Abbreviation dref := nat (only parsing).   (* reference to a GraphDecisionNode *)
Abbreviation cref := nat (only parsing).   (* reference to a GraphChanceNode *)

(** The two attribute names the program passes as [field]. *)
Inductive field := value_lower | value_upper.

Global Instance field_eq_dec : EqDecision field.
Proof. solve_decision. Defined.

Inductive exn :=
| ValueError (msg : string)
| KeyError (key : string)
| IndexError
| NameError (name : string)
| ZeroDivisionError
| Exception (msg : string)
| ReferenceError.   (* a reference outside its store; no Python counterpart *)

(** The [observation] attribute of a node: [None], the string
  ["placeholder"], or an observation of the environment. *)
Inductive observation_t (Obs : Type) :=
| NoObservation
| Placeholder
| Observed (o : Obs).
Arguments NoObservation {Obs}.
Arguments Placeholder {Obs}.
Arguments Observed {Obs} o.

(** ** Python dictionaries that keep insertion order *)

Section dict.
Context {K V : Type} `{EqDecision K}.

Fixpoint dict_get (k : K) (l : list (K * V)) : option V :=
  match l with
  | [] => None
  | (k', v) :: l' => if decide (k = k') then Some v else dict_get k l'
  end.

Definition dict_in (k : K) (l : list (K * V)) : bool :=
  bool_decide (is_Some (dict_get k l)).

(** [d[k] = v]: an existing key keeps its position, a new key goes last. *)
Fixpoint dict_set (k : K) (v : V) (l : list (K * V)) : list (K * V) :=
  match l with
  | [] => [(k, v)]
  | (k', v') :: l' =>
      if decide (k = k') then (k, v) :: l' else (k', v') :: dict_set k v l'
  end.

(** [d.pop(k)] without the popped value. *)
Fixpoint dict_remove (k : K) (l : list (K * V)) : list (K * V) :=
  match l with
  | [] => []
  | (k', v') :: l' =>
      if decide (k = k') then l' else (k', v') :: dict_remove k l'
  end.
End dict.

(** ["placeholder_{}".format(i)] *)
Definition placeholder_key (i : nat) : string := "placeholder_" +:+ pretty i.

(** ** Configuration *)

Section Model.
Context {num : Type} `{Numeric num}.
Context {Obs EnvState Rng : Type}.

Record UpperBound := {
  ub_type : string;
  ub_threshold : string;              (* an expression, see [eval] *)
  ub_transition_threshold : string;   (* an expression, see [eval] *)
}.

(** [planner.config]; the keys [reset] may have to derive, and the budget
    it derives them from, can be absent. *)
Record Config := {
  horizon : option nat;
  episodes : option nat;
  budget : option nat;
  gamma : num;
  accuracy : num;
  max_next_states_count : nat;
  upper_bound : UpperBound;
}.

(** ** External collaborators

    The environment, and the functions this file imports from the rest of
    the package. *)

Class Environment := {
  str_obs : Obs → string;                               (* str(observation) *)
  get_available_actions : EnvState → option (list action);
                                   (* None: the state has no such method *)
  action_space_n : EnvState → nat;                      (* state.action_space.n *)
  env_step : EnvState → action → EnvState * Obs * num * bool;
                                                        (* planner.step *)
  env_seed : EnvState → Z → EnvState;                   (* state.seed *)
}.

Class Imported := {
  (* eval(expression) with horizon, actions, count and time in scope *)
  eval : string → nat → nat → nat → nat → num;
  (* rl_agents.utils.kl_upper_bound(_sum, count, time, threshold, lower) *)
  kl_upper_bound : num → nat → nat → string → bool → num;
  (* rl_agents.utils.max_expectation_under_constraint(f, q, c) *)
  max_expectation_under_constraint : list num → list num → num → list num;
  (* OLOP.allocation(budget, gamma) = (episodes, horizon) *)
  allocation : nat → num → nat * nat;
  (* Node.random_argmax(x); None when it raises *)
  random_argmax : list num → Rng → option nat * Rng;
  (* np_random.randint(high) *)
  randint : Z → Rng → Z * Rng;
  (* the value bounds GraphNode.__init__ starts from *)
  initial_value_lower : Config → num;
  initial_value_upper : Config → num;
}.

(** [list(s)] for a set of nodes.  Python lists the members of a set, each
    once, in an order of its own that the program does not control; the
    order may depend on the node whose [parents] are listed and on the
    members. *)
Class SetIteration := {
  list_of_set : dref → gset dref → list dref;
}.

Context `{Environment} `{Imported} `{SetIteration}.

(** ** Nodes *)

Record GraphDecisionNode := {
  d_state : option EnvState;
  d_observation : observation_t Obs;
  d_value_lower : num;
  d_value_upper : num;
  d_parents : gset dref;
  d_children : list (action * cref);
  d_count : nat;
  cumulative_reward : num;
  mu_ucb : num;
  mu_lcb : num;
}.

Record GraphChanceNode := {
  c_parent : dref;
  c_value_lower : num;
  c_value_upper : num;
  c_count : nat;
  p_hat : option (list num);
  p_plus : option (list num);
  p_minus : option (list num);
  c_children : list (string * dref);
}.

(** ** The planner and its object stores *)

Record Planner := {
  config : Config;
  env_actions : nat;                  (* planner.env.action_space.n *)
  nodes : gmap string dref;           (* planner.nodes *)
  root : dref;
  dheap : list GraphDecisionNode;
  cheap : list GraphChanceNode;
  np_random : Rng;
  log : list string;                  (* what logger.error received *)
}.

Definition set_config (c : Config) (σ : Planner) : Planner :=
  {| config := c; env_actions := env_actions σ; nodes := nodes σ;
     root := root σ; dheap := dheap σ; cheap := cheap σ;
     np_random := np_random σ; log := log σ |}.
Definition set_nodes (n : gmap string dref) (σ : Planner) : Planner :=
  {| config := config σ; env_actions := env_actions σ; nodes := n;
     root := root σ; dheap := dheap σ; cheap := cheap σ;
     np_random := np_random σ; log := log σ |}.
Definition set_root (r : dref) (σ : Planner) : Planner :=
  {| config := config σ; env_actions := env_actions σ; nodes := nodes σ;
     root := r; dheap := dheap σ; cheap := cheap σ;
     np_random := np_random σ; log := log σ |}.
Definition set_dheap (h : list GraphDecisionNode) (σ : Planner) : Planner :=
  {| config := config σ; env_actions := env_actions σ; nodes := nodes σ;
     root := root σ; dheap := h; cheap := cheap σ;
     np_random := np_random σ; log := log σ |}.
Definition set_cheap (h : list GraphChanceNode) (σ : Planner) : Planner :=
  {| config := config σ; env_actions := env_actions σ; nodes := nodes σ;
     root := root σ; dheap := dheap σ; cheap := h;
     np_random := np_random σ; log := log σ |}.
Definition set_np_random (g : Rng) (σ : Planner) : Planner :=
  {| config := config σ; env_actions := env_actions σ; nodes := nodes σ;
     root := root σ; dheap := dheap σ; cheap := cheap σ;
     np_random := g; log := log σ |}.
Definition set_log (l : list string) (σ : Planner) : Planner :=
  {| config := config σ; env_actions := env_actions σ; nodes := nodes σ;
     root := root σ; dheap := dheap σ; cheap := cheap σ;
     np_random := np_random σ; log := l |}.

(** ** Computations: state passing with exceptions *)

Inductive result (A : Type) :=
  | Ok (a : A) (σ : Planner)
  | Raise (e : exn) (σ : Planner).
Arguments Ok {A} a σ.
Arguments Raise {A} e σ.

Definition M (A : Type) : Type := Planner → result A.

Definition ret {A} (a : A) : M A := λ σ, Ok a σ.
Definition raise {A} (e : exn) : M A := λ σ, Raise e σ.
Definition bind {A B} (m : M A) (k : A → M B) : M B :=
  λ σ, match m σ with
       | Ok a σ' => k a σ'
       | Raise e σ' => Raise e σ'
       end.

Definition final_state {A} (r : result A) : Planner :=
  match r with Ok _ σ => σ | Raise _ σ => σ end.

Local Notation "'do' x <- m ; k" := (bind m (λ x, k))
  (at level 10, x name, m at level 100, k at level 200).
Local Notation "'do' ' p <- m ; k" := (bind m (λ x, match x with p => k end))
  (at level 10, p pattern, m at level 100, k at level 200).
Local Notation "m ;;; k" := (bind m (λ _, k))
  (at level 100, k at level 200, right associativity).

Definition get_config : M Config := λ σ, Ok (config σ) σ.
Definition get_env_actions : M nat := λ σ, Ok (env_actions σ) σ.
Definition get_nodes : M (gmap string dref) := λ σ, Ok (nodes σ) σ.

(** [config[key]] for a key that can be absent *)
Definition config_key {A} (key : string) (v : option A) : M A :=
  match v with
  | Some a => ret a
  | None => raise (KeyError key)
  end.

(** Reading and updating the object behind a reference *)
Definition get_decision (r : dref) : M GraphDecisionNode :=
  λ σ, match dheap σ !! r with
       | Some d => Ok d σ
       | None => Raise ReferenceError σ
       end.
Definition modify_decision (r : dref)
    (f : GraphDecisionNode → GraphDecisionNode) : M unit :=
  λ σ, match dheap σ !! r with
       | Some d => Ok tt (set_dheap (<[r := f d]> (dheap σ)) σ)
       | None => Raise ReferenceError σ
       end.
Definition get_chance (c : cref) : M GraphChanceNode :=
  λ σ, match cheap σ !! c with
       | Some cn => Ok cn σ
       | None => Raise ReferenceError σ
       end.
Definition modify_chance (c : cref)
    (f : GraphChanceNode → GraphChanceNode) : M unit :=
  λ σ, match cheap σ !! c with
       | Some cn => Ok tt (set_cheap (<[c := f cn]> (cheap σ)) σ)
       | None => Raise ReferenceError σ
       end.

(** A new object gets the next free reference. *)
Definition alloc_decision (d : GraphDecisionNode) : M dref :=
  λ σ, Ok (length (dheap σ)) (set_dheap (dheap σ ++ [d]) σ).
Definition alloc_chance (cn : GraphChanceNode) : M cref :=
  λ σ, Ok (length (cheap σ)) (set_cheap (cheap σ ++ [cn]) σ).

(** Attribute assignments *)
Definition set_d_observation (o : observation_t Obs) (d : GraphDecisionNode) :=
  {| d_state := d_state d; d_observation := o;
     d_value_lower := d_value_lower d; d_value_upper := d_value_upper d;
     d_parents := d_parents d; d_children := d_children d;
     d_count := d_count d; cumulative_reward := cumulative_reward d;
     mu_ucb := mu_ucb d; mu_lcb := mu_lcb d |}.
Definition set_d_value (f : field) (v : num) (d : GraphDecisionNode) :=
  {| d_state := d_state d; d_observation := d_observation d;
     d_value_lower := match f with value_lower => v | _ => d_value_lower d end;
     d_value_upper := match f with value_upper => v | _ => d_value_upper d end;
     d_parents := d_parents d; d_children := d_children d;
     d_count := d_count d; cumulative_reward := cumulative_reward d;
     mu_ucb := mu_ucb d; mu_lcb := mu_lcb d |}.
Definition set_d_parents (p : gset dref) (d : GraphDecisionNode) :=
  {| d_state := d_state d; d_observation := d_observation d;
     d_value_lower := d_value_lower d; d_value_upper := d_value_upper d;
     d_parents := p; d_children := d_children d;
     d_count := d_count d; cumulative_reward := cumulative_reward d;
     mu_ucb := mu_ucb d; mu_lcb := mu_lcb d |}.
Definition set_d_children (ch : list (action * cref)) (d : GraphDecisionNode) :=
  {| d_state := d_state d; d_observation := d_observation d;
     d_value_lower := d_value_lower d; d_value_upper := d_value_upper d;
     d_parents := d_parents d; d_children := ch;
     d_count := d_count d; cumulative_reward := cumulative_reward d;
     mu_ucb := mu_ucb d; mu_lcb := mu_lcb d |}.
Definition set_d_count (n : nat) (d : GraphDecisionNode) :=
  {| d_state := d_state d; d_observation := d_observation d;
     d_value_lower := d_value_lower d; d_value_upper := d_value_upper d;
     d_parents := d_parents d; d_children := d_children d;
     d_count := n; cumulative_reward := cumulative_reward d;
     mu_ucb := mu_ucb d; mu_lcb := mu_lcb d |}.
Definition set_cumulative_reward (x : num) (d : GraphDecisionNode) :=
  {| d_state := d_state d; d_observation := d_observation d;
     d_value_lower := d_value_lower d; d_value_upper := d_value_upper d;
     d_parents := d_parents d; d_children := d_children d;
     d_count := d_count d; cumulative_reward := x;
     mu_ucb := mu_ucb d; mu_lcb := mu_lcb d |}.
Definition set_mu_ucb (x : num) (d : GraphDecisionNode) :=
  {| d_state := d_state d; d_observation := d_observation d;
     d_value_lower := d_value_lower d; d_value_upper := d_value_upper d;
     d_parents := d_parents d; d_children := d_children d;
     d_count := d_count d; cumulative_reward := cumulative_reward d;
     mu_ucb := x; mu_lcb := mu_lcb d |}.
Definition set_mu_lcb (x : num) (d : GraphDecisionNode) :=
  {| d_state := d_state d; d_observation := d_observation d;
     d_value_lower := d_value_lower d; d_value_upper := d_value_upper d;
     d_parents := d_parents d; d_children := d_children d;
     d_count := d_count d; cumulative_reward := cumulative_reward d;
     mu_ucb := mu_ucb d; mu_lcb := x |}.

Definition set_c_value (f : field) (v : num) (cn : GraphChanceNode) :=
  {| c_parent := c_parent cn;
     c_value_lower := match f with value_lower => v | _ => c_value_lower cn end;
     c_value_upper := match f with value_upper => v | _ => c_value_upper cn end;
     c_count := c_count cn; p_hat := p_hat cn; p_plus := p_plus cn;
     p_minus := p_minus cn; c_children := c_children cn |}.
Definition set_c_count (n : nat) (cn : GraphChanceNode) :=
  {| c_parent := c_parent cn; c_value_lower := c_value_lower cn;
     c_value_upper := c_value_upper cn;
     c_count := n; p_hat := p_hat cn; p_plus := p_plus cn;
     p_minus := p_minus cn; c_children := c_children cn |}.
Definition set_p_hat (p : list num) (cn : GraphChanceNode) :=
  {| c_parent := c_parent cn; c_value_lower := c_value_lower cn;
     c_value_upper := c_value_upper cn;
     c_count := c_count cn; p_hat := Some p; p_plus := p_plus cn;
     p_minus := p_minus cn; c_children := c_children cn |}.
Definition set_p_plus (p : list num) (cn : GraphChanceNode) :=
  {| c_parent := c_parent cn; c_value_lower := c_value_lower cn;
     c_value_upper := c_value_upper cn;
     c_count := c_count cn; p_hat := p_hat cn; p_plus := Some p;
     p_minus := p_minus cn; c_children := c_children cn |}.
Definition set_p_minus (p : list num) (cn : GraphChanceNode) :=
  {| c_parent := c_parent cn; c_value_lower := c_value_lower cn;
     c_value_upper := c_value_upper cn;
     c_count := c_count cn; p_hat := p_hat cn; p_plus := p_plus cn;
     p_minus := Some p; c_children := c_children cn |}.
Definition set_c_children (ch : list (string * dref)) (cn : GraphChanceNode) :=
  {| c_parent := c_parent cn; c_value_lower := c_value_lower cn;
     c_value_upper := c_value_upper cn;
     c_count := c_count cn; p_hat := p_hat cn; p_plus := p_plus cn;
     p_minus := p_minus cn; c_children := ch |}.

Definition get_d_value (f : field) (d : GraphDecisionNode) : num :=
  match f with value_lower => d_value_lower d | value_upper => d_value_upper d end.
Definition get_c_value (f : field) (cn : GraphChanceNode) : num :=
  match f with value_lower => c_value_lower cn | value_upper => c_value_upper cn end.

(** Iteration helpers: a list comprehension whose element expression is a
    computation, and a [for] loop threading an accumulator. *)
Fixpoint mapM {A B} (f : A → M B) (l : list A) : M (list B) :=
  match l with
  | [] => ret []
  | x :: l' => do y <- f x; do ys <- mapM f l'; ret (y :: ys)
  end.
Fixpoint foldM {A B} (f : B → A → M B) (acc : B) (l : list A) : M B :=
  match l with
  | [] => ret acc
  | x :: l' => do acc' <- f acc x; foldM f acc' l'
  end.

(** str(self.observation) *)
Definition str_observation (o : observation_t Obs) : string :=
  match o with
  | NoObservation => "None"
  | Placeholder => "placeholder"
  | Observed o => str_obs o
  end.

(** ** GraphDecisionNode *)

(** [GraphDecisionNode.__init__].

    Modelled from the spec: the base initialiser [GraphNode.__init__] is not
    in this file; it stores state and observation and starts with no parents
    and no children, and its initial value bounds are imported. *)
Definition new_decision_node (state : option EnvState)
    (observation : observation_t Obs) : M dref :=
  do cfg <- get_config;
  alloc_decision
    {| d_state := state; d_observation := observation;
       d_value_lower := initial_value_lower cfg;
       d_value_upper := initial_value_upper cfg;
       d_parents := ∅; d_children := [];
       d_count := 0; cumulative_reward := zero;
       mu_ucb := one; mu_lcb := zero |}.

(** [GraphBasedPlanner.get_node(observation, state)].

    Modelled from the spec: the method is not in this file; it fetches the
    canonical decision node of the observation signature from the planner's
    node table and creates it on first use. *)
Definition get_node (observation : Obs) (state : option EnvState) : M dref :=
  do table <- get_nodes;
  match table !! str_obs observation with
  | Some r => ret r
  | None =>
      do r <- new_decision_node state (Observed observation);
      (λ σ, Ok tt (set_nodes (<[str_obs observation := r]> (nodes σ)) σ)) ;;;
      ret r
  end.

(** [logger.error(msg)] *)
Definition log_error (msg : string) : M unit :=
  λ σ, Ok tt (set_log (log σ ++ [msg]) σ).

(** [GraphDecisionNode.compute_reward_ucb] *)
Definition compute_reward_ucb (r : dref) : M unit :=
  do cfg <- get_config;
  if decide (ub_type (upper_bound cfg) = "kullback-leibler") then
    do horizon <- config_key "horizon" (horizon cfg);
    do actions <- get_env_actions;
    do d <- get_decision r;
    let count := d_count d in
    do time <- config_key "episodes" (episodes cfg);
    let threshold :=
      eval (ub_threshold (upper_bound cfg)) horizon actions count time in
    if eqb_num threshold zero then
      if decide (count = 0) then raise ZeroDivisionError
      else
        let mean := div (cumulative_reward d) (of_int count) in
        modify_decision r (set_mu_ucb mean) ;;;
        modify_decision r (set_mu_lcb mean)
    else
      modify_decision r
        (set_mu_ucb (kl_upper_bound (cumulative_reward d) count 0
                       (str_num threshold) false)) ;;;
      modify_decision r
        (set_mu_lcb (kl_upper_bound (cumulative_reward d) count 0
                       (str_num threshold) true))
  else log_error "Unknown upper-bound type".

(** [GraphDecisionNode.update(reward=None)] *)
Definition d_update (r : dref) (reward : option num) : M unit :=
  modify_decision r (λ d, set_d_count (d_count d + 1) d) ;;;
  match reward with
  | Some x =>
      modify_decision r
        (λ d, set_cumulative_reward (add (cumulative_reward d) x) d) ;;;
      compute_reward_ucb r
  | None => ret tt
  end.

(** [get_field]: the estimate of the representative of the node's
    observation when the node table has one, the node's own otherwise. *)
Definition get_field (r : dref) (f : field) : M num :=
  do d <- get_decision r;
  do table <- get_nodes;
  match table !! str_observation (d_observation d) with
  | Some representative =>
      do rep <- get_decision representative; ret (get_d_value f rep)
  | None => ret (get_d_value f d)
  end.

(** [GraphDecisionNode.actions_list]; the [AttributeError] of a state
    without [get_available_actions] is the [None] of the environment. *)
Definition actions_list (r : dref) : M (list action) :=
  do d <- get_decision r;
  match d_state d with
  | None => raise (Exception "The state should be set before expanding a node")
  | Some s =>
      match get_available_actions s with
      | Some l => ret l
      | None => ret (seq 0 (action_space_n s))
      end
  end.

(** [GraphDecisionNode.get_child(action)] *)
Definition d_get_child (r : dref) (a : action) : M cref :=
  do d <- get_decision r;
  match dict_get a (d_children d) with
  | Some c => ret c
  | None => raise (KeyError (pretty a))
  end.

(** ** GraphChanceNode *)

(** [GraphChanceNode.__init__]: the placeholder children are created one by
    one and entered under their placeholder keys. *)
Definition new_chance_node (parent : dref) : M cref :=
  do cfg <- get_config;
  do children <-
    foldM (λ children i,
             do child <- new_decision_node None Placeholder;
             ret (dict_set (placeholder_key i) child children))
          [] (seq 0 (max_next_states_count cfg));
  alloc_chance
    {| c_parent := parent;
       c_value_lower := initial_value_lower cfg;
       c_value_upper := initial_value_upper cfg;
       c_count := 0; p_hat := None; p_plus := None; p_minus := None;
       c_children := children |}.

(** [GraphChanceNode.update] *)
Definition c_update (c : cref) : M unit :=
  modify_chance c (λ cn, set_c_count (c_count cn + 1) cn).

(** [GraphChanceNode.transition_threshold] *)
Definition transition_threshold (c : cref) : M num :=
  do cfg <- get_config;
  do horizon <- config_key "horizon" (horizon cfg);
  do actions <- get_env_actions;
  do cn <- get_chance c;
  let count := c_count cn in
  do time <- config_key "episodes" (episodes cfg);
  ret (eval (ub_transition_threshold (upper_bound cfg))
         horizon actions count time).

(** [p @ v] on vectors; numpy raises when the shapes differ. *)
Fixpoint dot (p v : list num) : num :=
  match p, v with
  | x :: p', y :: v' => add (mul x y) (dot p' v')
  | _, _ => zero
  end.
Definition matmul (p v : list num) : M num :=
  if decide (length p = length v) then ret (dot p v)
  else raise (ValueError "matmul: input operands have mismatching shapes").

(** [GraphChanceNode.backup(field)] *)
Definition c_backup (c : cref) (f : field) : M num :=
  do cn <- get_chance c;
  if decide (c_count cn = 0) then ret (get_c_value f cn)
  else
    do cfg <- get_config;
    let gamma := gamma cfg in
    do counts <- mapM (λ kr, do d <- get_decision kr.2; ret (d_count d))
                      (c_children cn);
    let p_hat := (λ n, div (of_int n) (of_int (c_count cn))) <$> counts in
    modify_chance c (set_p_hat p_hat) ;;;
    do t <- transition_threshold c;
    let threshold := div t (of_int (c_count cn)) in
    match f with
    | value_upper =>
        do u_next <-
          mapM (λ kr, do d <- get_decision kr.2;
                      do v <- get_field kr.2 f;
                      ret (add (mu_ucb d) (mul gamma v)))
               (c_children cn);
        let p_plus := max_expectation_under_constraint u_next p_hat threshold in
        modify_chance c (set_p_plus p_plus) ;;;
        do v <- matmul p_plus u_next;
        modify_chance c (set_c_value value_upper v) ;;;
        ret v
    | value_lower =>
        do l_next <-
          mapM (λ kr, do d <- get_decision kr.2;
                      do v <- get_field kr.2 f;
                      ret (add (mu_lcb d) (mul gamma v)))
               (c_children cn);
        let p_minus :=
          max_expectation_under_constraint (opp <$> l_next) p_hat threshold in
        modify_chance c (set_p_minus p_minus) ;;;
        do v <- matmul p_minus l_next;
        modify_chance c (set_c_value value_lower v) ;;;
        ret v
    end.

(** The first [i] in [range(n)] whose placeholder key is still a key. *)
Definition first_placeholder (n : nat) (children : list (string * dref))
    : option nat :=
  List.find (λ i, dict_in (placeholder_key i) children) (seq 0 n).

Definition capacity_message : string :=
  "No more placeholder nodes available, we observed more next states than the 'max_next_states_count' config".

(** [GraphChanceNode.get_child(observation)] *)
Definition c_get_child (c : cref) (observation : Obs) : M dref :=
  do cn <- get_chance c;
  let key := str_obs observation in
  (if dict_in key (c_children cn) then ret tt
   else
     do cfg <- get_config;
     match first_placeholder (max_next_states_count cfg) (c_children cn) with
     | Some i =>
         match dict_get (placeholder_key i) (c_children cn) with
         | Some child =>
             modify_chance c
               (set_c_children
                  (dict_set key child
                     (dict_remove (placeholder_key i) (c_children cn)))) ;;;
             modify_decision child (set_d_observation (Observed observation)) ;;;
             do node <- get_node observation None;
             modify_decision node
               (λ d, set_d_parents ({[ c_parent cn ]} ∪ d_parents d) d)
         | None => raise (KeyError (placeholder_key i))
         end
     | None => raise (ValueError capacity_message)
     end) ;;;
  do cn' <- get_chance c;
  match dict_get key (c_children cn') with
  | Some child => ret child
  | None => raise (KeyError key)
  end.

(** ** Decision-node rules *)

(** [GraphDecisionNode.backup(field)]: the dictionary comprehension over
    the children. *)
Definition d_backup (r : dref) (f : field) : M (list (action * num)) :=
  do d <- get_decision r;
  mapM (λ ac, do q <- c_backup ac.2 f; ret (ac.1, q)) (d_children d).

(** [GraphDecisionNode.expand] *)
Definition expand (r : dref) : M unit :=
  do actions <- actions_list r;
  foldM (λ _ a,
           do c <- new_chance_node r;
           modify_decision r (λ d, set_d_children (dict_set a c (d_children d)) d))
        tt actions.

(** [self.random_argmax(x)], which draws from the planner's generator. *)
Definition call_random_argmax (x : list num) : M nat :=
  λ σ, match random_argmax x (np_random σ) with
       | (Some i, g) => Ok i (set_np_random g σ)
       | (None, g) =>
           Raise (ValueError "random_argmax") (set_np_random g σ)
       end.

(** [l[i]] *)
Definition list_index {A} (l : list A) (i : nat) : M A :=
  match l !! i with
  | Some a => ret a
  | None => raise IndexError
  end.

(** [GraphDecisionNode.sampling_rule] *)
Definition sampling_rule (r : dref) : M action :=
  do d <- get_decision r;
  (if decide (d_children d = []) then expand r else ret tt) ;;;
  do q_values_upper <- d_backup r value_upper;
  let actions := q_values_upper.*1 in
  do index <- call_random_argmax (q_values_upper.*2);
  list_index actions index.

(** [GraphDecisionNode.selection_rule] *)
Definition selection_rule (r : dref) : M action :=
  do q_values_lower <- d_backup r value_lower;
  let actions := q_values_lower.*1 in
  do index <- call_random_argmax (q_values_lower.*2);
  list_index actions index.

(** ** Partial value iteration *)

(** Python's [max(a, b)] keeps [a] unless [b > a]. *)
Definition py_max (a b : num) : num := if gtb b a then b else a.

(** The maximum of a list that starts with [x]. *)
Definition amax (x : num) (l : list num) : num := foldl py_max x l.

Definition empty_maximum_message : string :=
  "zero-size array to reduction operation maximum which has no identity".

(** [np.amax(l)] *)
Definition np_amax (l : list num) : M num :=
  match l with
  | [] => raise (ValueError empty_maximum_message)
  | x :: l' => ret (amax x l')
  end.

(** One pass of the inner [for field in ...] loop. *)
Definition pvi_field (node : dref) (delta : num) (f : field) : M num :=
  do action_value <- d_backup node f;
  do state_value_bound <- np_amax (action_value.*2);
  do d <- get_decision node;
  let delta' := py_max delta (absolute (sub (get_d_value f d) state_value_bound)) in
  modify_decision node (set_d_value f state_value_bound) ;;;
  ret delta'.

(** One pass of the [while queue] loop, for the popped node and the rest of
    the queue; the result is the queue after the pass, extended by
    [list(node.parents)] when the change exceeds the accuracy. *)
Definition pvi_iteration (node : dref) (queue : list dref) : M (list dref) :=
  do delta <- foldM (pvi_field node) zero [value_lower; value_upper];
  do cfg <- get_config;
  if gtb delta (accuracy cfg) then
    do d <- get_decision node;
    ret (queue ++ list_of_set node (d_parents d))
  else ret queue.

(** The loop runs until the queue is empty; [None] stands for a loop that
    has not finished within [fuel] passes. *)
Fixpoint pvi_loop (fuel : nat) (queue : list dref) (σ : Planner)
    : option (result unit) :=
  match queue with
  | [] => Some (Ok tt σ)
  | node :: rest =>
      match fuel with
      | 0 => None
      | S fuel' =>
          match pvi_iteration node rest σ with
          | Ok queue' σ' => pvi_loop fuel' queue' σ'
          | Raise e σ' => Some (Raise e σ')
          end
      end
  end.

(** [GraphDecisionNode.partial_value_iteration(queue=None)] *)
Definition partial_value_iteration (fuel : nat) (self : dref)
    (queue : option (list dref)) (σ : Planner) : option (result unit) :=
  pvi_loop fuel (match queue with None => [self] | Some q => q end) σ.

(** ** StochasticGraphBasedPlanner *)

(** The body of the [for h in range(horizon)] loop of [run]. *)
Definition run_iteration (state : EnvState) (observation : Obs)
    (update_queue : list dref) : M (EnvState * Obs * list dref * dref) :=
  do decision_node <- get_node observation (Some state);
  do a <- sampling_rule decision_node;
  do chance_node <- d_get_child decision_node a;
  let '(state', observation', reward, _) := env_step state a in
  do next_decision_node <- c_get_child chance_node observation';
  d_update decision_node None ;;;
  c_update chance_node ;;;
  d_update next_decision_node (Some reward) ;;;
  let update_queue' :=
    if bool_decide (decision_node ∈ update_queue) then update_queue
    else update_queue ++ [decision_node] in
  ret (state', observation', update_queue', decision_node).

(** The [for h in range(horizon)] loop of [run]; [last] is the binding of
    [decision_node] the loop leaves behind. *)
Fixpoint run_loop (h : nat) (state : EnvState) (observation : Obs)
    (update_queue : list dref) (last : option dref)
    : M (list dref * option dref) :=
  match h with
  | 0 => ret (update_queue, last)
  | S h' =>
      do '(state', observation', update_queue', decision_node) <-
        run_iteration state observation update_queue;
      run_loop h' state' observation' update_queue' (Some decision_node)
  end.

(** [run]; the [logger.debug] line that prints the root's children reads
    the graph and changes nothing, and is left out. *)
Definition run (fuel : nat) (state : EnvState) (observation : Obs)
    (σ : Planner) : option (result unit) :=
  let '(seed, g) := randint (2 ^ 30)%Z (np_random σ) in
  let state := env_seed state seed in
  let prog :=
    do cfg <- get_config;
    do horizon <- config_key "horizon" (horizon cfg);
    run_loop horizon state observation [] None in
  match prog (set_np_random g σ) with
  | Ok (update_queue, Some decision_node) σ' =>
      partial_value_iteration fuel decision_node (Some (reverse update_queue)) σ'
  | Ok (_, None) σ' => Some (Raise (NameError "decision_node") σ')
  | Raise e σ' => Some (Raise e σ')
  end.

(** Python's [max(a, b)] on ints keeps [a] unless [b > a]. *)
Definition int_max (a b : nat) : nat := if decide (a < b) then b else a.

(** [config["episodes"], config["horizon"] = e, h] *)
Definition set_allocation (e h : nat) (cfg : Config) : Config :=
  {| horizon := Some h; episodes := Some e;
     budget := budget cfg; gamma := gamma cfg; accuracy := accuracy cfg;
     max_next_states_count := max_next_states_count cfg;
     upper_bound := upper_bound cfg |}.

(** [GraphBasedPlanner.__init__].

    Modelled from the spec: the constructor is not in this file; the node
    table starts empty and no node exists before the first [reset]. *)
Definition new_planner (cfg : Config) (actions : nat) (g : Rng) : Planner :=
  {| config := cfg; env_actions := actions; nodes := ∅; root := 0;
     dheap := []; cheap := []; np_random := g; log := [] |}.

(** The first statement of [plan]: the root becomes the node of the
    current observation. *)
Definition plan_root (state : EnvState) (observation : Obs) : M unit :=
  do r <- get_node observation (Some state);
  λ σ, Ok tt (set_root r σ).

(** The [for _ in np.arange(episodes)] loop of [plan].  An environment
    state is a value here, so the copy [safe_deepcopy_env(state)] that each
    run receives is the state itself; an exception of a run ends the loop. *)
Fixpoint plan_loop (fuel : nat) (n : nat) (state : EnvState)
    (observation : Obs) (σ : Planner) : option (result unit) :=
  match n with
  | 0 => Some (Ok tt σ)
  | S n' =>
      match run fuel state observation σ with
      | Some (Ok _ σ') => plan_loop fuel n' state observation σ'
      | Some (Raise e σ') => Some (Raise e σ')
      | None => None
      end
  end.

(** [plan] up to its last statement: the root is chosen and the episodes
    are run.  The plan itself is read off the graph by [get_plan], which is
    not in this file. *)
Definition plan_search (fuel : nat) (state : EnvState) (observation : Obs)
    (σ : Planner) : option (result unit) :=
  match plan_root state observation σ with
  | Ok _ σ1 =>
      match episodes (config σ1) with
      | Some n => plan_loop fuel n state observation σ1
      | None => Some (Raise (KeyError "episodes") σ1)
      end
  | Raise e σ1 => Some (Raise e σ1)
  end.

(** [StochasticGraphBasedPlanner.reset] *)
Definition reset : M unit :=
  do r <- new_decision_node None NoObservation;
  (λ σ, Ok tt (set_root r σ)) ;;;
  do cfg <- get_config;
  match horizon cfg with
  | Some _ => ret tt
  | None =>
      do n <- get_env_actions;
      do b <- config_key "budget" (budget cfg);
      let budget' := int_max n b in
      let '(e, h) := allocation budget' (gamma cfg) in
      λ σ, Ok tt (set_config (set_allocation e h cfg) σ)
  end.

(** The action rule as the specification words it, for either bound: a
    node without children is expanded first, then an action maximising the
    backup of [f] is picked. *)
Definition rule_with_expansion (r : dref) (f : field) : M action :=
  do d <- get_decision r;
  (if decide (d_children d = []) then expand r else ret tt) ;;;
  do q_values <- d_backup r f;
  do index <- call_random_argmax (q_values.*2);
  list_index (q_values.*1) index.

End Model.

Arguments Ok {num Obs EnvState Rng A} a σ.
Arguments Raise {num Obs EnvState Rng A} e σ.

(** A computation reports an error to its caller when it raises. *)
Definition reports_error {num Obs EnvState Rng A}
    (r : @result num Obs EnvState Rng A) : Prop :=
  ∃ e σ', r = Raise e σ'.

(** What a Python caller can receive from [backup]: a number, or a
    dictionary from actions to numbers. *)
Inductive pyvalue (num : Type) :=
  | PyNumber (x : num)
  | PyDict (items : list (action * num)).
Arguments PyNumber {num} x.
Arguments PyDict {num} items.

(** ** Concrete collaborators

    Rational numbers for the number type, and two small environments used
    to run the definitions on concrete inputs. *)

Module Fixture.

Definition Q_gtb (x y : Q) : bool := negb (Qle_bool x y).

Definition Q_str (x : Q) : string :=
  pretty (Qnum x) +:+ "/" +:+ pretty (Zpos (Qden x)).

#[export] Instance Q_numeric : Numeric Q := {|
  zero := 0%Q; one := 1%Q;
  add := Qplus; sub := Qminus; mul := Qmult; div := Qdiv; opp := Qopp;
  absolute := Qabs;
  gtb := Q_gtb;
  eqb_num := Qeq_bool;
  of_int := λ n, inject_Z (Z.of_nat n);
  str_num := Q_str;
|}.

(** Imports: the threshold expressions ["0"] and ["1"] are the only ones
    evaluated; the confidence interval is the whole of [0, 1]; the
    constrained distribution is the reference distribution; the argmax is
    the first maximal index. *)
Fixpoint first_argmax (best : nat) (m : Q) (i : nat) (l : list Q) : nat :=
  match l with
  | [] => best
  | x :: l' =>
      if Q_gtb x m then first_argmax i x (S i) l'
      else first_argmax best m (S i) l'
  end.

#[export] Instance imports : @Imported Q unit := {|
  eval := λ e _ _ _ _, if decide (e = "0") then 0%Q else 1%Q;
  kl_upper_bound := λ _ _ _ _ lower, if lower then 0%Q else 1%Q;
  max_expectation_under_constraint := λ _ q _, q;
  allocation := λ b _, (b, 1);
  random_argmax := λ l g,
    (match l with [] => None | x :: l' => Some (first_argmax 0 x 1 l') end, g);
  randint := λ _ g, (0%Z, g);
  initial_value_lower := λ _, 0%Q;
  initial_value_upper := λ _, 1%Q;
|}.

(** Sets list their members in the order of their references. *)
#[export] Instance by_reference : SetIteration := {|
  list_of_set := λ _ s, elements s;
|}.

Definition kl_bound (threshold : string) : UpperBound :=
  {| ub_type := "kullback-leibler"; ub_threshold := threshold;
     ub_transition_threshold := "0" |}.

Definition hoeffding_bound : UpperBound :=
  {| ub_type := "hoeffding"; ub_threshold := "0";
     ub_transition_threshold := "0" |}.

Definition cfg (ub : UpperBound) (capacity : nat) : @Config Q :=
  {| horizon := Some 2; episodes := Some 3; budget := Some 6;
     gamma := (1 # 2)%Q; accuracy := (1 # 100)%Q;
     max_next_states_count := capacity; upper_bound := ub |}.

(** A configuration without horizon and episodes, and a budget of 1. *)
Definition cfg_budget_only : @Config Q :=
  {| horizon := None; episodes := None; budget := Some 1;
     gamma := (1 # 2)%Q; accuracy := (1 # 100)%Q;
     max_next_states_count := 1; upper_bound := kl_bound "0" |}.

(** A configuration with the given horizon, episodes and budget, room
    for two next states and the threshold expression ["0"]. *)
Definition cfg_keys (h e b : option nat) : @Config Q :=
  {| horizon := h; episodes := e; budget := b;
     gamma := (1 # 2)%Q; accuracy := (1 # 100)%Q;
     max_next_states_count := 2; upper_bound := kl_bound "0" |}.

(** A planner with nothing in its stores, for an environment with two
    actions. *)
Definition empty_planner {Obs} (c : @Config Q) : @Planner Q Obs nat unit :=
  new_planner c 2 tt.

Definition blank_chance : @GraphChanceNode Q :=
  {| c_parent := 0; c_value_lower := 0%Q; c_value_upper := 0%Q;
     c_count := 0; p_hat := None; p_plus := None; p_minus := None;
     c_children := [] |}.

Definition blank_decision {Obs} : @GraphDecisionNode Q Obs nat :=
  {| d_state := None; d_observation := NoObservation;
     d_value_lower := 0%Q; d_value_upper := 0%Q; d_parents := ∅;
     d_children := []; d_count := 0; cumulative_reward := 0%Q;
     mu_ucb := 0%Q; mu_lcb := 0%Q |}.

Definition chance_at {Obs} (σ : @Planner Q Obs nat unit) (c : cref) :=
  default blank_chance (cheap σ !! c).
Definition decision_at {Obs} (σ : @Planner Q Obs nat unit) (r : dref) :=
  default blank_decision (dheap σ !! r).

(** An environment whose observations are numbers and print with a
    leading ["s"]: two actions, action [a] in state [s] leads to state and
    observation [s + a] with reward 1. *)
Module NatEnv.

#[export] Instance nat_env : @Environment Q nat nat := {|
  str_obs := λ o, "s" +:+ pretty o;
  get_available_actions := λ _, None;
  action_space_n := λ _, 2;
  env_step := λ s a, (s + a, s + a, 1%Q, false);
  env_seed := λ s _, s;
|}.

(** After [reset]: the root and nothing else. *)
Definition fresh : @Planner Q nat nat unit :=
  Eval vm_compute in final_state (reset (empty_planner (cfg (kl_bound "0") 2))).

(** The node of observation 0 has been fetched but not expanded. *)
Definition arrived : @Planner Q nat nat unit :=
  Eval vm_compute in final_state (get_node 0 (Some 0) fresh).

(** After one pass of the episode loop from state and observation 0. *)
Definition halfway : @Planner Q nat nat unit :=
  Eval vm_compute in final_state (run_iteration 0 0 [] fresh).

(** After two passes of the episode loop from state and observation 0. *)
Definition explored : @Planner Q nat nat unit :=
  Eval vm_compute in final_state (run_loop 2 0 0 [] None fresh).

(** The same with room for one next state per chance node. *)
Definition crowded : @Planner Q nat nat unit :=
  Eval vm_compute in
    final_state (run_loop 2 0 0 [] None
                   (final_state (reset (empty_planner (cfg (kl_bound "0") 1))))).

(** After [reset] under a scheme the planner does not know. *)
Definition fresh_hoeffding : @Planner Q nat nat unit :=
  Eval vm_compute in final_state (reset (empty_planner (cfg hoeffding_bound 2))).

(** Before [reset], with a budget but no horizon. *)
Definition unplanned : @Planner Q nat nat unit :=
  empty_planner cfg_budget_only.

(** Two passes of the episode loop under the threshold expression ["1"]. *)
Definition bounded : @Planner Q nat nat unit :=
  Eval vm_compute in
    final_state (run_loop 2 0 0 [] None
                   (final_state (reset (empty_planner (cfg (kl_bound "1") 2))))).

(** The explored planner with a configuration that has lost its horizon,
    and with one that has lost its episodes. *)
Definition without_horizon : @Planner Q nat nat unit :=
  Eval vm_compute in
    set_config (cfg_keys None (Some 3) None) explored.
Definition without_episodes : @Planner Q nat nat unit :=
  Eval vm_compute in
    set_config (cfg_keys (Some 2) None None) explored.

(** After [reset], with horizon 0. *)
Definition horizon_zero : @Planner Q nat nat unit :=
  Eval vm_compute in
    final_state (reset (empty_planner (cfg_keys (Some 0) (Some 3) None))).

(** Before [reset], with neither horizon nor budget. *)
Definition unbudgeted : @Planner Q nat nat unit :=
  empty_planner (cfg_keys None None None).

End NatEnv.

(** An environment whose observations are strings and print as
    themselves: two actions, and every step observes ["placeholder_0"]
    with reward 1. *)
Module StringEnv.

#[export] Instance string_env : @Environment Q string nat := {|
  str_obs := λ o, o;
  get_available_actions := λ _, Some [0; 1];
  action_space_n := λ _, 2;
  env_step := λ s a, (S s, "placeholder_0", 1%Q, false);
  env_seed := λ s _, s;
|}.

Definition fresh : @Planner Q string nat unit :=
  Eval vm_compute in final_state (reset (empty_planner (cfg (kl_bound "0") 1))).

(** After one pass of the episode loop from the observation ["start"]. *)
Definition stepped : @Planner Q string nat unit :=
  Eval vm_compute in final_state (run_iteration 0 "start" [] fresh).

End StringEnv.

(** An environment whose observations are strings and print as
    themselves: one action, and the step from state [s] observes the
    [s]-th of "a", "placeholder_0" and "b". *)
Module EchoEnv.

#[export] Instance echo_env : @Environment Q string nat := {|
  str_obs := λ o, o;
  get_available_actions := λ _, Some [0];
  action_space_n := λ _, 1;
  env_step := λ s a, (s, nth s ["a"; "placeholder_0"; "b"] "c", 1%Q, false);
  env_seed := λ s _, s;
|}.

(** After [reset], with room for two next states per chance node. *)
Definition fresh : @Planner Q string nat unit :=
  Eval vm_compute in final_state (reset (empty_planner (cfg (kl_bound "0") 2))).

(** After one pass of the episode loop from the observation ["start"],
    which observes "a". *)
Definition once : @Planner Q string nat unit :=
  Eval vm_compute in final_state (run_iteration 0 "start" [] fresh).

(** After a second pass from the same observation, which observes
    "placeholder_0": both slots of the chance node are taken. *)
Definition full : @Planner Q string nat unit :=
  Eval vm_compute in final_state (run_iteration 1 "start" [1] once).

End EchoEnv.

End Fixture.

(** * Properties *)

Section Proofs.
Context {num : Type} {numeric : Numeric num} {Obs EnvState Rng : Type}.
Context {environment : @Environment num Obs EnvState}.
Context {imported : @Imported num Rng}.
Context {set_iteration : SetIteration}.

Local Abbreviation Planner := (@Planner num Obs EnvState Rng).
Local Abbreviation M := (@M num Obs EnvState Rng).
Local Abbreviation GraphDecisionNode := (@GraphDecisionNode num Obs EnvState).
Local Abbreviation GraphChanceNode := (@GraphChanceNode num).

Implicit Types (σ : Planner) (r : dref) (c : cref) (f : field).
Implicit Types (d : GraphDecisionNode) (cn : GraphChanceNode).

(** ** Vocabulary of the statements *)

Definition kl_type : string := "kullback-leibler".

(** The empirical mean [cumulative_reward / count] of a decision node. *)
Definition empirical_mean d : num :=
  div (cumulative_reward d) (of_int (d_count d)).

(** The state after [update(reward)] under an unrecognised scheme: the
    count and the cumulative reward are updated, the message is logged. *)
Definition after_unknown_scheme σ r d (x : num) : Planner :=
  set_log (log σ ++ ["Unknown upper-bound type"])
    (set_dheap
       (<[r := set_cumulative_reward (add (cumulative_reward d) x)
                 (set_d_count (d_count d + 1) d)]> (dheap σ)) σ).

(** The statistics and links of a decision node that [get_child] never
    touches. *)
Definition same_statistics d d' : Prop :=
  d_count d' = d_count d ∧ cumulative_reward d' = cumulative_reward d ∧
  mu_ucb d' = mu_ucb d ∧ mu_lcb d' = mu_lcb d ∧
  d_value_lower d' = d_value_lower d ∧ d_value_upper d' = d_value_upper d ∧
  d_children d' = d_children d ∧ d_state d' = d_state d.

Definition is_placeholder_key (cap : nat) (k : string) : Prop :=
  ∃ i, i < cap ∧ k = placeholder_key i.

(** The children of a chance node are kept: the same child objects, and
    every child under a key that is not a placeholder key stays under it. *)
Definition children_kept (cap : nat) cn cn' : Prop :=
  c_count cn' = c_count cn ∧
  (c_children cn').*2 ≡ₚ (c_children cn).*2 ∧
  ∀ k r, ¬ is_placeholder_key cap k →
         dict_get k (c_children cn) = Some r →
         dict_get k (c_children cn') = Some r.

Definition nothing_lost (cap : nat) σ σ' : Prop :=
  (∀ r d, dheap σ !! r = Some d →
          ∃ d', dheap σ' !! r = Some d' ∧ same_statistics d d') ∧
  (∀ c cn, cheap σ !! c = Some cn →
           ∃ cn', cheap σ' !! c = Some cn' ∧ children_kept cap cn cn').

(** A computation is harmless when it loses nothing, however it ends. *)
Definition harmless {A} (cap : nat) (m : M A) : Prop :=
  ∀ σ, nothing_lost cap σ (final_state (m σ)).

(** The value of a child seen through the node table: the estimate of the
    canonical node of the child's observation when there is one, the
    child's own otherwise. *)
Definition indirected_value σ d f : option num :=
  match nodes σ !! str_observation (d_observation d) with
  | Some representative => get_d_value f <$> dheap σ !! representative
  | None => Some (get_d_value f d)
  end.

(** The reward bound that goes with a value bound. *)
Definition reward_bound f d : num :=
  match f with value_upper => mu_ucb d | value_lower => mu_lcb d end.

(** [counts] are the visit counts of the children, in order. *)
Definition children_counts σ cn (counts : list nat) : Prop :=
  Forall2 (λ kr n, ∃ d, dheap σ !! kr.2 = Some d ∧ n = d_count d)
          (c_children cn) counts.

(** [values] are the one-step values of the children, in order: the reward
    bound plus gamma times the indirected value bound. *)
Definition one_step_values σ cn f (values : list num) : Prop :=
  Forall2 (λ kr u, ∃ d v, dheap σ !! kr.2 = Some d
                          ∧ indirected_value σ d f = Some v
                          ∧ u = add (reward_bound f d)
                                    (mul (gamma (config σ)) v))
          (c_children cn) values.

(** The transition threshold handed to the constrained-expectation
    routine: the evaluated [transition_threshold] expression divided by
    the node's visit count. *)
Definition kl_transition_threshold σ cn (h t : nat) : num :=
  div (eval (ub_transition_threshold (upper_bound (config σ)))
         h (env_actions σ) (c_count cn) t)
      (of_int (c_count cn)).

Definition empirical_distribution cn (counts : list nat) : list num :=
  (λ n, div (of_int n) (of_int (c_count cn))) <$> counts.

(** The state a visited chance node's [backup(f)] leaves: [p_hat], the
    constrained distribution [p] and the new value bound are stored in the
    node. *)
Definition after_chance_backup σ c cn f (p_hat p : list num) (v : num)
    : Planner :=
  set_cheap
    (<[c := set_c_value f v
              ((match f with
                | value_upper => set_p_plus p
                | value_lower => set_p_minus p
                end) (set_p_hat p_hat cn))]> (cheap σ)) σ.

(** The chance nodes of the children of a decision node run their
    [backup(f)] in turn, each in the state the previous one left. *)
Inductive backups_in_turn (f : field)
    : list (action * cref) → Planner → list (action * num) → Planner → Prop :=
  | backups_done σ : backups_in_turn f [] σ [] σ
  | backups_next a c children σ q σ1 qs σ2 :
      c_backup c f σ = Ok q σ1 →
      backups_in_turn f children σ1 qs σ2 →
      backups_in_turn f ((a, c) :: children) σ ((a, q) :: qs) σ2.

(** The constrained-expectation routine answers with a vector over the
    support of the reference distribution it was given. *)
Definition keeps_support : Prop :=
  ∀ (values q : list num) (t : num),
    length (max_expectation_under_constraint values q t) = length q.

(** A planner is ready for backups when the configuration has the keys the
    threshold expressions read, every child reference of a node points to
    an object, and so does every reference of the node table. *)
Definition backup_ready σ : Prop :=
  is_Some (horizon (config σ)) ∧ is_Some (episodes (config σ)) ∧
  (∀ r d a c, dheap σ !! r = Some d → (a, c) ∈ d_children d →
              is_Some (cheap σ !! c)) ∧
  (∀ c cn k r, cheap σ !! c = Some cn → (k, r) ∈ c_children cn →
               is_Some (dheap σ !! r)) ∧
  (∀ k r, nodes σ !! k = Some r → is_Some (dheap σ !! r)).

(** What a chance node keeps through backups. *)
Definition same_links cn cn' : Prop :=
  c_parent cn' = c_parent cn ∧ c_count cn' = c_count cn ∧
  c_children cn' = c_children cn.

(** Backups write to chance nodes only, and there only to the
    distributions and the value bounds. *)
Definition backup_frame σ σ' : Prop :=
  config σ' = config σ ∧ env_actions σ' = env_actions σ ∧
  nodes σ' = nodes σ ∧ root σ' = root σ ∧ dheap σ' = dheap σ ∧
  np_random σ' = np_random σ ∧ log σ' = log σ ∧
  Forall2 same_links (cheap σ) (cheap σ').

(** The maximum of a list of numbers as [np.amax] computes it. *)
Definition max_of (l : list num) : num :=
  match l with
  | [] => zero
  | x :: l' => amax x l'
  end.

(** [list(s)] holds every member of the set once. *)
Definition lists_members_once : Prop :=
  ∀ (r : dref) (s : gset dref), list_of_set r s ≡ₚ elements s.

(** The worklist empties: passes of the loop body lead from the queue and
    state on the left to the empty queue and the state on the right. *)
Inductive empties : list dref → Planner → Planner → Prop :=
  | empties_now σ : empties [] σ σ
  | empties_pass node rest σ queue' σ1 σ' :
      pvi_iteration node rest σ = Ok queue' σ1 →
      empties queue' σ1 σ' →
      empties (node :: rest) σ σ'.

(** [v] is a maximum of [l]: a member that no member exceeds. *)
Definition is_maximum (v : num) (l : list num) : Prop :=
  v ∈ l ∧ ∀ y, y ∈ l → gtb y v = false.

(** The planner after the decision node behind [node] has become [d]. *)
Definition store_decision (node : dref) d σ : Planner :=
  set_dheap (<[node := d]> (dheap σ)) σ.

(** The visit count of the decision node behind a reference. *)
Definition visits σ r : nat := from_option d_count 0 (dheap σ !! r).

(** The child objects of a chance node, in order. *)
Definition kids cn : list dref := (c_children cn).*2.

(** No chance node has [r] among its children. *)
Definition unowned σ r : Prop :=
  ∀ c cn, cheap σ !! c = Some cn → r ∉ kids cn.

Definition names_placeholder (k : string) : Prop :=
  ∃ i, k = placeholder_key i.

(** No observation prints as a placeholder key. *)
Definition no_collision : Prop :=
  ∀ (o : Obs) (i : nat), str_obs o ≠ placeholder_key i.

(** The invariant of the graph.  Children of chance nodes exist, belong to
    one chance node and appear once in it, and are not the canonical nodes
    of the node table; the visit counts of the children of a chance node
    add up to its own; under [strict], children under placeholder keys
    were never visited.  The references in [X] exist and are no chance
    node's children. *)
Record graph_inv (strict : Prop) (X : dref → Prop) σ : Prop := {
  inv_kids_valid :
    ∀ c cn r, cheap σ !! c = Some cn → r ∈ kids cn → r < length (dheap σ);
  inv_nodes_valid :
    ∀ k r, nodes σ !! k = Some r → r < length (dheap σ);
  inv_kids_nodup :
    ∀ c cn, cheap σ !! c = Some cn → NoDup (kids cn);
  inv_kids_disjoint :
    ∀ c1 c2 cn1 cn2 r, cheap σ !! c1 = Some cn1 → cheap σ !! c2 = Some cn2 →
                       r ∈ kids cn1 → r ∈ kids cn2 → c1 = c2;
  inv_canonical :
    ∀ k r, nodes σ !! k = Some r → unowned σ r;
  inv_sum :
    ∀ c cn, cheap σ !! c = Some cn →
            sum_list (visits σ <$> kids cn) = c_count cn;
  inv_placeholders :
    strict → ∀ c cn k r, cheap σ !! c = Some cn → (k, r) ∈ c_children cn →
                         names_placeholder k → visits σ r = 0;
  inv_protected :
    ∀ r, X r → r < length (dheap σ) ∧ unowned σ r;
}.

(** Hoare triples for computations that may raise: from a state in [P],
    a normal end satisfies [Q] and an exceptional end satisfies [E]. *)
Definition triple {A} (P : Planner → Prop) (m : M A)
    (Q : A → Planner → Prop) (E : Planner → Prop) : Prop :=
  ∀ σ, P σ → match m σ with
             | Ok a σ' => Q a σ'
             | Raise _ σ' => E σ'
             end.

(** A computation that relates every start to its end by [R]. *)
Definition steady {A} (R : Planner → Planner → Prop) (m : M A) : Prop :=
  ∀ σ, R σ (final_state (m σ)).

(** What is known of a decision node that has just been created: it
    exists, nobody refers to it, and it was never visited. *)
Definition brand_new (X : dref → Prop) σ r : Prop :=
  r < length (dheap σ) ∧ unowned σ r ∧ visits σ r = 0 ∧ ¬ X r
  ∧ ∀ k, nodes σ !! k ≠ Some r.

(** The planners the program can be in: a new planner, and whatever
    [reset], the choice of the root in [plan], passes of the episode loop
    of [run], partial value iterations, whole runs and the two action
    rules make of a reachable planner, whether they return or raise. *)
Inductive reachable : Planner → Prop :=
  | reach_new cfg actions g : reachable (new_planner cfg actions g)
  | reach_reset σ : reachable σ → reachable (final_state (reset σ))
  | reach_root σ st o :
      reachable σ → reachable (final_state (plan_root st o σ))
  | reach_pass σ st o queue :
      reachable σ → reachable (final_state (run_iteration st o queue σ))
  | reach_backup σ fuel self queue res :
      reachable σ →
      partial_value_iteration fuel self queue σ = Some res →
      reachable (final_state res)
  | reach_run σ fuel st o res :
      reachable σ → run fuel st o σ = Some res → reachable (final_state res)
  | reach_sampling σ r :
      reachable σ → reachable (final_state (sampling_rule r σ))
  | reach_selection σ r :
      reachable σ → reachable (final_state (selection_rule r σ)).

(** A visit of a chance node and of its child [next]: the two updates of
    the episode loop that follow the update of the decision node. *)
Definition visit_chance (c : cref) (next : dref) (reward : num) : M unit :=
  bind (c_update c) (λ _, d_update next (Some reward)).

(** The chance store and all visit counts are as they were. *)
Definition counts_kept σ σ' : Prop :=
  cheap σ' = cheap σ ∧ ∀ r, visits σ' r = visits σ r.

(** A check of [backup_ready] that computes. *)
Definition backup_ready_check σ : bool :=
  bool_decide (is_Some (horizon (config σ)))
  && bool_decide (is_Some (episodes (config σ)))
  && forallb (λ d, forallb (λ ac : action * cref,
                              bool_decide (ac.2 < length (cheap σ)))
                           (d_children d))
             (dheap σ)
  && forallb (λ cn, forallb (λ kr : string * dref,
                               bool_decide (kr.2 < length (dheap σ)))
                            (c_children cn))
             (cheap σ)
  && bool_decide (map_Forall (λ _ r, r < length (dheap σ)) (nodes σ)).

(** ** Vocabulary of the further statements *)

(** A decision node that has counted one more visit and the reward [x]. *)
Definition counted (x : num) d : GraphDecisionNode :=
  set_cumulative_reward (add (cumulative_reward d) x)
    (set_d_count (d_count d + 1) d).

(** The evaluated [threshold] expression of the reward bounds. *)
Definition kl_reward_threshold σ (h count t : nat) : num :=
  eval (ub_threshold (upper_bound (config σ))) h (env_actions σ) count t.

(** [kl_upper_bound] as [compute_reward_ucb] calls it for a node. *)
Definition kl_reward_bound d (threshold : num) (lower : bool) : num :=
  kl_upper_bound (cumulative_reward d) (d_count d) 0 (str_num threshold) lower.

Definition stateless_message : string :=
  "The state should be set before expanding a node".

(** The decision node [GraphDecisionNode(planner, state, observation)]
    starts as. *)
Definition blank_node (cfg : @Config num) (st : option EnvState)
    (o : observation_t Obs) : GraphDecisionNode :=
  {| d_state := st; d_observation := o;
     d_value_lower := initial_value_lower cfg;
     d_value_upper := initial_value_upper cfg;
     d_parents := ∅; d_children := [];
     d_count := 0; cumulative_reward := zero;
     mu_ucb := one; mu_lcb := zero |}.

(** The planner once [run] has drawn the seed of the environment. *)
Definition seeded σ : Planner :=
  set_np_random (randint (2 ^ 30)%Z (np_random σ)).2 σ.

(** The planner after a chance node has stored [p_hat]. *)
Definition store_p_hat c cn (counts : list nat) σ : Planner :=
  set_cheap (<[c := set_p_hat (empirical_distribution cn counts) cn]> (cheap σ)) σ.

(** The children of a new chance node: the placeholder keys in order, for
    [n] decision nodes created one after the other from reference
    [first] on. *)
Definition placeholder_children (first n : nat) : list (string * dref) :=
  zip (placeholder_key <$> seq 0 n) (seq first n).

(** The chance node [GraphChanceNode(planner, parent)] starts as, its
    children being [first] and the references after it. *)
Definition blank_chance_node (cfg : @Config num) (parent first : dref)
    : GraphChanceNode :=
  {| c_parent := parent;
     c_value_lower := initial_value_lower cfg;
     c_value_upper := initial_value_upper cfg;
     c_count := 0; p_hat := None; p_plus := None; p_minus := None;
     c_children := placeholder_children first (max_next_states_count cfg) |}.

(** The planner after a chance node for [parent] has been created: the
    placeholder nodes are behind the decision store, the chance node is
    behind the chance store. *)
Definition with_chance_node (parent : dref) σ : Planner :=
  set_cheap
    (cheap σ ++ [blank_chance_node (config σ) parent (length (dheap σ))])
    (set_dheap
       (dheap σ ++ replicate (max_next_states_count (config σ))
                     (blank_node (config σ) None Placeholder)) σ).

(** The actions [actions_list] answers with for a state. *)
Definition available_actions (s : EnvState) : list action :=
  match get_available_actions s with
  | Some l => l
  | None => seq 0 (action_space_n s)
  end.

(** The chance node behind [c] was created for [parent] after the planner
    was [σ], and in [σ'] it and its children are still as their
    initialisers left them. *)
Definition created_chance σ σ' (parent : dref) (c : cref) : Prop :=
  length (cheap σ) ≤ c ∧
  ∃ first, length (dheap σ) ≤ first
    ∧ cheap σ' !! c = Some (blank_chance_node (config σ) parent first)
    ∧ ∀ i, i < max_next_states_count (config σ) →
           dheap σ' !! (first + i)
           = Some (blank_node (config σ) None Placeholder).

(** Apart from the decision node [r], everything that was in [σ] is the
    same in [σ']. *)
Definition kept_except (r : dref) σ σ' : Prop :=
  config σ' = config σ ∧ env_actions σ' = env_actions σ ∧
  nodes σ' = nodes σ ∧ root σ' = root σ ∧
  np_random σ' = np_random σ ∧ log σ' = log σ ∧
  (∀ r', r' ≠ r → r' < length (dheap σ) → dheap σ' !! r' = dheap σ !! r') ∧
  (∀ c, c < length (cheap σ) → cheap σ' !! c = cheap σ !! c).

(** The initial value bound of a field. *)
Definition initial_value (f : field) (cfg : @Config num) : num :=
  match f with
  | value_lower => initial_value_lower cfg
  | value_upper => initial_value_upper cfg
  end.

(** What a decision node keeps through value iteration: everything but
    its two value bounds. *)
Definition same_but_values d d' : Prop :=
  d_state d' = d_state d ∧ d_observation d' = d_observation d ∧
  d_parents d' = d_parents d ∧ d_children d' = d_children d ∧
  d_count d' = d_count d ∧ cumulative_reward d' = cumulative_reward d ∧
  mu_ucb d' = mu_ucb d ∧ mu_lcb d' = mu_lcb d.

(** Value iteration writes estimates only: the value bounds of decision
    nodes, and the distributions and value bounds of chance nodes. *)
Definition value_frame σ σ' : Prop :=
  config σ' = config σ ∧ env_actions σ' = env_actions σ ∧
  nodes σ' = nodes σ ∧ root σ' = root σ ∧
  np_random σ' = np_random σ ∧ log σ' = log σ ∧
  Forall2 same_but_values (dheap σ) (dheap σ') ∧
  Forall2 same_links (cheap σ) (cheap σ').

(** What a decision node keeps while the graph grows: its count does not
    go down, its parents stay its parents, and once it has children they
    are not replaced. *)
Definition decision_grown d d' : Prop :=
  d_count d ≤ d_count d' ∧ d_parents d ⊆ d_parents d' ∧
  (d_children d ≠ [] → d_children d' = d_children d).

(** What a chance node keeps while the graph grows: its parent, its child
    objects, and every child under a key that is not a placeholder key
    under that key; its count does not go down. *)
Definition chance_grown (cap : nat) cn cn' : Prop :=
  c_parent cn' = c_parent cn ∧ c_count cn ≤ c_count cn' ∧
  kids cn' ≡ₚ kids cn ∧
  ∀ k r, ¬ is_placeholder_key cap k →
         dict_get k (c_children cn) = Some r →
         dict_get k (c_children cn') = Some r.

(** The graph has only grown: configuration, action count and root are the
    same, the node table has kept its entries, every node is still there
    with what it keeps, and every chance node that is new has as many
    children as the configuration's [max_next_states_count]. *)
Definition grown σ σ' : Prop :=
  config σ' = config σ ∧ env_actions σ' = env_actions σ ∧
  root σ' = root σ ∧ nodes σ ⊆ nodes σ' ∧
  (∀ r d, dheap σ !! r = Some d →
          ∃ d', dheap σ' !! r = Some d' ∧ decision_grown d d') ∧
  (∀ c cn, cheap σ !! c = Some cn →
           ∃ cn', cheap σ' !! c = Some cn'
                  ∧ chance_grown (max_next_states_count (config σ)) cn cn') ∧
  (∀ c cn', cheap σ' !! c = Some cn' → length (cheap σ) ≤ c →
            length (c_children cn') = max_next_states_count (config σ)).

(** Every chance node has as many children as the configuration's
    [max_next_states_count]. *)
Definition sized σ : Prop :=
  ∀ c cn, cheap σ !! c = Some cn →
          length (c_children cn) = max_next_states_count (config σ).

(** The chance nodes of [σ'] are those of [σ], untouched, and new ones,
    each with as many children as [max_next_states_count]. *)
Definition chance_added σ σ' : Prop :=
  config σ' = config σ ∧ length (cheap σ) ≤ length (cheap σ') ∧
  ∀ c cn', cheap σ' !! c = Some cn' →
           (c < length (cheap σ) ∧ cheap σ !! c = Some cn')
           ∨ (length (cheap σ) ≤ c
              ∧ length (c_children cn') = max_next_states_count (config σ)).

(** ** Stepping through computations *)

Lemma bind_Ok {A B} (m : M A) (k : A → M B) σ a σ' :
  m σ = Ok a σ' → bind m k σ = k a σ'.
Proof. unfold bind. by intros ->. Qed.

Lemma get_decision_Ok σ r d :
  dheap σ !! r = Some d → get_decision r σ = Ok d σ.
Proof. unfold get_decision. by intros ->. Qed.

Lemma get_chance_Ok σ c cn :
  cheap σ !! c = Some cn → get_chance c σ = Ok cn σ.
Proof. unfold get_chance. by intros ->. Qed.

Lemma modify_decision_Ok σ r d g :
  dheap σ !! r = Some d →
  modify_decision r g σ = Ok tt (set_dheap (<[r := g d]> (dheap σ)) σ).
Proof. unfold modify_decision. by intros ->. Qed.

Lemma modify_chance_Ok σ c cn g :
  cheap σ !! c = Some cn →
  modify_chance c g σ = Ok tt (set_cheap (<[c := g cn]> (cheap σ)) σ).
Proof. unfold modify_chance. by intros ->. Qed.

(** ** Chance nodes that were never visited *)

Lemma chance_backup_idle σ c cn f :
  cheap σ !! c = Some cn → c_count cn = 0 →
  c_backup c f σ = Ok (get_c_value f cn) σ.
Proof.
  intros Hc Hcount. unfold c_backup.
  rewrite (bind_Ok _ _ _ _ _ (get_chance_Ok _ _ _ Hc)).
  by rewrite decide_True.
Qed.

(** C7. A chance node whose visit count is 0 answers [backup(field)] with
    its own current value for that field and changes nothing: the planner
    state after the call is the state before it. *)
Theorem chance_backup_unvisited σ c cn f :
  cheap σ !! c = Some cn →
  c_count cn = 0 →
  c_backup c f σ = Ok (get_c_value f cn) σ
  ∧ final_state (c_backup c f σ) = σ.
Proof.
  intros Hc Hcount. split; [by apply chance_backup_idle|].
  by rewrite (chance_backup_idle σ c cn f Hc Hcount).
Qed.

(** ** Reward statistics of a decision node *)

Lemma modify_decision_twice σ r d g1 g2 :
  dheap σ !! r = Some d →
  bind (modify_decision r g1) (λ _, modify_decision r g2) σ
  = Ok tt (set_dheap (<[r := g2 (g1 d)]> (dheap σ)) σ).
Proof.
  intros Hr. rewrite (bind_Ok _ _ _ _ _ (modify_decision_Ok _ _ _ g1 Hr)).
  unfold modify_decision; simpl.
  rewrite list_lookup_insert_eq by eauto using lookup_lt_Some.
  by rewrite list_insert_insert_eq.
Qed.

(** C5. With the Kullback-Leibler scheme in force and the evaluated
    threshold equal to 0, recomputing the reward bounds of a decision node
    with count > 0 succeeds and leaves both [mu_ucb] and [mu_lcb] equal to
    the empirical mean [cumulative_reward / count]; nothing else changes. *)
Theorem reward_bounds_collapse σ r d h t :
  dheap σ !! r = Some d →
  0 < d_count d →
  ub_type (upper_bound (config σ)) = kl_type →
  horizon (config σ) = Some h →
  episodes (config σ) = Some t →
  eqb_num (eval (ub_threshold (upper_bound (config σ)))
             h (env_actions σ) (d_count d) t) zero = true →
  let d' := set_mu_lcb (empirical_mean d) (set_mu_ucb (empirical_mean d) d) in
  compute_reward_ucb r σ = Ok tt (set_dheap (<[r := d']> (dheap σ)) σ)
  ∧ mu_ucb d' = empirical_mean d
  ∧ mu_lcb d' = empirical_mean d
  ∧ mu_lcb d' = mu_ucb d'.
Proof.
  intros Hr Hcount Htype Hh Ht Hzero d'. split; [|done].
  unfold compute_reward_ucb, get_config, get_env_actions, bind at 1.
  rewrite decide_True by done.
  rewrite Hh, Ht. unfold config_key, ret, bind at 1 2; simpl.
  rewrite (bind_Ok _ _ _ _ _ (get_decision_Ok _ _ _ Hr)).
  unfold bind at 1; simpl. rewrite Hzero.
  rewrite decide_False by lia.
  by apply modify_decision_twice.
Qed.


(** ** Reset *)

(** C10. When the configuration has no horizon, [reset] calls the
    allocation function on the larger of the environment's action count
    and the configured budget, never on a number below the action count,
    and stores the resulting episodes and horizon. *)
Theorem reset_allocates_from_max σ b :
  horizon (config σ) = None →
  budget (config σ) = Some b →
  let effective := int_max (env_actions σ) b in
  let '(e, h) := allocation effective (gamma (config σ)) in
  ∃ σ', reset σ = Ok tt σ'
        ∧ config σ' = set_allocation e h (config σ)
        ∧ episodes (config σ') = Some e
        ∧ horizon (config σ') = Some h
        ∧ effective = Nat.max (env_actions σ) b
        ∧ env_actions σ ≤ effective
        ∧ b ≤ effective.
Proof.
  intros Hh Hb effective.
  destruct (allocation _ _) as [e h] eqn:Halloc.
  assert (∀ σ0 : Planner, reset σ = Ok tt σ0 →
            config σ0 = set_allocation e h (config σ)) as Hcfg.
  { unfold reset, new_decision_node, get_config, alloc_decision,
      get_env_actions, bind, ret; simpl.
    rewrite Hh, Hb; simpl. fold effective. rewrite Halloc.
    by intros σ0 [= <-]. }
  assert (∃ σ0 : Planner, reset σ = Ok tt σ0) as [σ0 Hσ0].
  { unfold reset, new_decision_node, get_config, alloc_decision,
      get_env_actions, bind, ret; simpl.
    rewrite Hh, Hb; simpl. fold effective. rewrite Halloc. eauto. }
  exists σ0. rewrite (Hcfg _ Hσ0).
  assert (effective = Nat.max (env_actions σ) b) as Hmax.
  { unfold effective, int_max. case_decide; lia. }
  split_and!; try done; lia.
Qed.

(** ** Ordered dictionaries *)

Section dict_facts.
Context {K V : Type} `{EqDecision K}.
Implicit Types (k : K) (v : V) (l : list (K * V)).

Lemma dict_in_true k l : dict_in k l = true ↔ is_Some (dict_get k l).
Proof. unfold dict_in. by rewrite bool_decide_eq_true. Qed.

Lemma dict_in_false k l : dict_in k l = false ↔ dict_get k l = None.
Proof.
  unfold dict_in. rewrite bool_decide_eq_false.
  by rewrite eq_None_not_Some.
Qed.

Lemma dict_get_elem k v l : dict_get k l = Some v → (k, v) ∈ l.
Proof.
  induction l as [|[k' v'] l IH]; simpl; [done|].
  case_decide; [intros [= ->]; subst; left | right; auto].
Qed.

Lemma dict_get_remove_ne k k0 l :
  k ≠ k0 → dict_get k (dict_remove k0 l) = dict_get k l.
Proof.
  intros Hne. induction l as [|[k' v'] l IH]; simpl; [done|].
  destruct (decide (k0 = k')) as [->|]; simpl.
  - by rewrite decide_False.
  - by rewrite IH.
Qed.

Lemma dict_get_remove_None k k0 l :
  dict_get k l = None → dict_get k (dict_remove k0 l) = None.
Proof.
  induction l as [|[k' v'] l IH]; simpl; [done|].
  destruct (decide (k = k')); [done|]. intros Hl.
  destruct (decide (k0 = k')); simpl; [done|].
  rewrite decide_False by done. auto.
Qed.

Lemma dict_set_fresh k v l :
  dict_get k l = None → dict_set k v l = l ++ [(k, v)].
Proof.
  induction l as [|[k' v'] l IH]; simpl; [done|].
  destruct (decide (k = k')); [done|]. intros Hl. by rewrite IH.
Qed.

Lemma dict_get_app_Some k v l l' :
  dict_get k l = Some v → dict_get k (l ++ l') = Some v.
Proof.
  induction l as [|[k' v'] l IH]; simpl; [done|].
  destruct (decide (k = k')); auto.
Qed.

Lemma dict_get_set_eq k v l : dict_get k (dict_set k v l) = Some v.
Proof.
  induction l as [|[k' v'] l IH]; simpl.
  - by rewrite decide_True.
  - destruct (decide (k = k')) as [->|]; simpl.
    + by rewrite decide_True.
    + by rewrite decide_False.
Qed.

Lemma dict_remove_values k v l :
  dict_get k l = Some v → l.*2 ≡ₚ v :: (dict_remove k l).*2.
Proof.
  induction l as [|[k' v'] l IH]; simpl; [done|].
  destruct (decide (k = k')).
  - by intros [= ->].
  - intros Hl. simpl. rewrite (IH Hl). apply Permutation_swap.
Qed.

End dict_facts.

Lemma first_placeholder_Some n (l : list (string * dref)) i :
  first_placeholder n l = Some i →
  i < n ∧ is_Some (dict_get (placeholder_key i) l).
Proof.
  unfold first_placeholder. intros Hfind.
  apply find_some in Hfind as [Hin Hi].
  apply in_seq in Hin. split; [lia|]. by apply dict_in_true.
Qed.

Lemma first_placeholder_None n (l : list (string * dref)) :
  (∀ i, i < n → dict_get (placeholder_key i) l = None) →
  first_placeholder n l = None.
Proof.
  intros Hnone. unfold first_placeholder.
  destruct (List.find _ _) as [i|] eqn:Hfind; [|done].
  apply find_some in Hfind as [Hin Hi].
  apply in_seq in Hin. apply dict_in_true in Hi as [r Hi].
  rewrite Hnone in Hi by lia. done.
Qed.

(** ** Children of a chance node *)

Lemma same_statistics_refl d : same_statistics d d.
Proof. by repeat split. Qed.

Lemma same_statistics_trans d1 d2 d3 :
  same_statistics d1 d2 → same_statistics d2 d3 → same_statistics d1 d3.
Proof.
  unfold same_statistics. intros (?&?&?&?&?&?&?&?) (?&?&?&?&?&?&?&?).
  split_and!; congruence.
Qed.

Lemma children_kept_refl cap cn : children_kept cap cn cn.
Proof. by repeat split. Qed.

Lemma children_kept_trans cap cn1 cn2 cn3 :
  children_kept cap cn1 cn2 → children_kept cap cn2 cn3 →
  children_kept cap cn1 cn3.
Proof.
  intros (Hc1 & Hp1 & Hk1) (Hc2 & Hp2 & Hk2). split_and!.
  - congruence.
  - by rewrite Hp2.
  - eauto.
Qed.

Lemma nothing_lost_refl cap σ : nothing_lost cap σ σ.
Proof.
  split; eauto using same_statistics_refl, children_kept_refl.
Qed.

Lemma nothing_lost_trans cap σ1 σ2 σ3 :
  nothing_lost cap σ1 σ2 → nothing_lost cap σ2 σ3 → nothing_lost cap σ1 σ3.
Proof.
  intros [Hd1 Hc1] [Hd2 Hc2]. split.
  - intros r d Hr. destruct (Hd1 _ _ Hr) as (d2 & Hr2 & ?).
    destruct (Hd2 _ _ Hr2) as (d3 & Hr3 & ?).
    eauto using same_statistics_trans.
  - intros c cn Hc. destruct (Hc1 _ _ Hc) as (cn2 & Hcn2 & ?).
    destruct (Hc2 _ _ Hcn2) as (cn3 & Hcn3 & ?).
    eauto using children_kept_trans.
Qed.

Lemma harmless_bind {A B} cap (m : M A) (k : A → M B) :
  harmless cap m → (∀ a, harmless cap (k a)) → harmless cap (bind m k).
Proof.
  intros Hm Hk σ. unfold bind. specialize (Hm σ).
  destruct (m σ) as [a σ'|e σ']; simpl in *; [|done].
  eapply nothing_lost_trans; [done|apply Hk].
Qed.

Lemma harmless_ret {A} cap (a : A) : harmless cap (ret a).
Proof. intros σ. apply nothing_lost_refl. Qed.

Lemma harmless_raise {A} cap e : harmless cap (@raise _ _ _ _ A e).
Proof. intros σ. apply nothing_lost_refl. Qed.

Lemma harmless_get_chance cap c : harmless cap (get_chance c).
Proof.
  intros σ. unfold get_chance. destruct (_ !! _); apply nothing_lost_refl.
Qed.

Lemma harmless_modify_decision cap r g :
  (∀ d, same_statistics d (g d)) → harmless cap (modify_decision r g).
Proof.
  intros Hg σ. unfold modify_decision.
  destruct (dheap σ !! r) as [d|] eqn:Hr; [|apply nothing_lost_refl].
  split; simpl; [|eauto using children_kept_refl].
  intros r' d' Hr'. destruct (decide (r = r')) as [<-|].
  - rewrite list_lookup_insert_eq by eauto using lookup_lt_Some.
    simplify_eq. eauto.
  - rewrite list_lookup_insert_ne by done. eauto using same_statistics_refl.
Qed.

Lemma harmless_new_decision_node cap st (o : observation_t Obs) :
  harmless cap (new_decision_node st o).
Proof.
  intros σ. split; simpl; [|eauto using children_kept_refl].
  intros r d Hr. exists d. split; [|apply same_statistics_refl].
  by apply lookup_app_l_Some.
Qed.

Lemma harmless_get_node cap o st : harmless cap (get_node o st).
Proof.
  unfold get_node. apply harmless_bind; [intros σ; apply nothing_lost_refl|].
  intros table. destruct (table !! _); [apply harmless_ret|].
  apply harmless_bind; [apply harmless_new_decision_node|]. intros r.
  apply harmless_bind; [|intros; apply harmless_ret].
  intros σ. split; simpl; eauto using same_statistics_refl, children_kept_refl.
Qed.

Lemma children_kept_rekey cap cn key i child :
  i < cap →
  dict_get key (c_children cn) = None →
  dict_get (placeholder_key i) (c_children cn) = Some child →
  children_kept cap cn
    (set_c_children
       (dict_set key child (dict_remove (placeholder_key i) (c_children cn)))
       cn).
Proof.
  intros Hi Hkey Hchild. split_and!; simpl.
  - done.
  - rewrite dict_set_fresh by by apply dict_get_remove_None.
    rewrite fmap_app; simpl.
    rewrite (dict_remove_values _ _ _ Hchild).
    by rewrite <-Permutation_cons_append.
  - intros k r Hk Hr.
    rewrite dict_set_fresh by by apply dict_get_remove_None.
    apply dict_get_app_Some. rewrite dict_get_remove_ne; [done|].
    intros ->. apply Hk. by exists i.
Qed.

(** The cases of [get_child(observation)] of a chance node. *)
Lemma chance_get_child_cases σ c cn (o : Obs) :
  cheap σ !! c = Some cn →
  let key := str_obs o in
  let cap := max_next_states_count (config σ) in
  (dict_get key (c_children cn) = None →
   (∀ i, i < cap → dict_get (placeholder_key i) (c_children cn) = None) →
   c_get_child c o σ = Raise (ValueError capacity_message) σ)
  ∧ (∀ child, dict_get key (c_children cn) = Some child →
              c_get_child c o σ = Ok child σ)
  ∧ nothing_lost cap σ (final_state (c_get_child c o σ)).
Proof.
  intros Hc key cap. split_and!.
  - intros Hnew Hfull. unfold c_get_child.
    rewrite (bind_Ok _ _ _ _ _ (get_chance_Ok _ _ _ Hc)).
    fold key. apply dict_in_false in Hnew as Hin. rewrite Hin.
    unfold get_config, bind at 1 2; simpl. fold cap.
    by rewrite (first_placeholder_None _ _ Hfull).
  - intros child Hchild. unfold c_get_child.
    rewrite (bind_Ok _ _ _ _ _ (get_chance_Ok _ _ _ Hc)).
    fold key. assert (dict_in key (c_children cn) = true) as ->.
    { apply dict_in_true. eauto. }
    unfold bind at 1, ret at 1.
    rewrite (bind_Ok _ _ _ _ _ (get_chance_Ok _ _ _ Hc)).
    by rewrite Hchild.
  - unfold c_get_child.
    rewrite (bind_Ok _ _ _ _ _ (get_chance_Ok _ _ _ Hc)). fold key.
    assert (∀ u : unit, harmless cap
              (bind (get_chance c) (λ cn',
                 match dict_get key (c_children cn') with
                 | Some child => ret child
                 | None => raise (KeyError key)
                 end))) as Hlast.
    { intros _. apply harmless_bind; [apply harmless_get_chance|].
      intros cn'. destruct (dict_get _ _);
        [apply harmless_ret|apply harmless_raise]. }
    destruct (dict_in key (c_children cn)) eqn:Hin.
    { apply harmless_bind; [apply harmless_ret|done]. }
    apply dict_in_false in Hin.
    unfold bind at 1. unfold get_config, bind at 1; simpl. fold cap.
    destruct (first_placeholder cap (c_children cn)) as [i|] eqn:Hfirst;
      [|apply nothing_lost_refl].
    apply first_placeholder_Some in Hfirst as [Hi [child Hchild]].
    rewrite Hchild.
    rewrite (bind_Ok _ _ _ _ _ (modify_chance_Ok _ _ _ _ Hc)).
    match goal with
    | |- nothing_lost _ _ (final_state match ?rest ?σ1 with _ => _ end) =>
        assert (nothing_lost cap σ σ1) as Hstep;
        [|assert (harmless cap (bind rest (λ _,
             bind (get_chance c) (λ cn',
               match dict_get key (c_children cn') with
               | Some child => ret child
               | None => raise (KeyError key)
               end)))) as Hrest]
    end.
    + split; simpl; [eauto using same_statistics_refl|].
      intros c' cn' Hc'. destruct (decide (c = c')) as [<-|].
      * rewrite list_lookup_insert_eq by eauto using lookup_lt_Some.
        simplify_eq. eauto using children_kept_rekey.
      * rewrite list_lookup_insert_ne by done. eauto using children_kept_refl.
    + apply harmless_bind; [|done].
      apply harmless_bind; [by apply harmless_modify_decision|]. intros _.
      apply harmless_bind; [apply harmless_get_node|]. intros node.
      by apply harmless_modify_decision.
    + eapply nothing_lost_trans; [exact Hstep|]. apply Hrest.
Qed.


(** ** Bellman backup of a visited chance node *)

Lemma mapM_reads {A B} (g : A → M B) σ (l : list A) (ys : list B) :
  Forall2 (λ x y, g x σ = Ok y σ) l ys → mapM g l σ = Ok ys σ.
Proof.
  induction 1 as [|x y l ys Hxy _ IH]; simpl; [done|].
  rewrite (bind_Ok _ _ _ _ _ Hxy). by rewrite (bind_Ok _ _ _ _ _ IH).
Qed.

Lemma get_field_reads σ r d f v :
  dheap σ !! r = Some d → indirected_value σ d f = Some v →
  get_field r f σ = Ok v σ.
Proof.
  intros Hr Hv. unfold get_field.
  rewrite (bind_Ok _ _ _ _ _ (get_decision_Ok _ _ _ Hr)).
  unfold get_nodes, bind at 1. unfold indirected_value in Hv.
  destruct (nodes σ !! _) as [rep|]; [|by simplify_eq].
  destruct (dheap σ !! rep) as [drep|] eqn:Hrep; simplify_eq/=.
  by rewrite (bind_Ok _ _ _ _ _ (get_decision_Ok _ _ _ Hrep)).
Qed.

Lemma chance_backup_steps σ c cn f h t counts values :
  cheap σ !! c = Some cn →
  0 < c_count cn →
  horizon (config σ) = Some h →
  episodes (config σ) = Some t →
  children_counts σ cn counts →
  one_step_values σ cn f values →
  let p_hat := empirical_distribution cn counts in
  let p := max_expectation_under_constraint
             (match f with value_upper => values | value_lower => opp <$> values end)
             p_hat (kl_transition_threshold σ cn h t) in
  length p = length values →
  c_backup c f σ
  = Ok (dot p values) (after_chance_backup σ c cn f p_hat p (dot p values)).
Proof.
  intros Hc Hcount Hh Ht Hcounts Hvalues p_hat p Hlen.
  unfold after_chance_backup.
  assert (c < length (cheap σ)) as Hlt by eauto using lookup_lt_Some.
  unfold c_backup.
  rewrite (bind_Ok _ _ _ _ _ (get_chance_Ok _ _ _ Hc)).
  rewrite decide_False by lia.
  unfold get_config, bind at 1.
  erewrite bind_Ok; last first.
  { apply mapM_reads. eapply Forall2_impl; [exact Hcounts|].
    intros kr n (d & Hd & ->); simpl.
    by rewrite (bind_Ok _ _ _ _ _ (get_decision_Ok _ _ _ Hd)). }
  fold (empirical_distribution cn counts). fold p_hat.
  rewrite (bind_Ok _ _ _ _ _ (modify_chance_Ok _ _ _ _ Hc)).
  set (σ1 := set_cheap (<[c:=set_p_hat p_hat cn]> (cheap σ)) σ).
  assert (cheap σ1 !! c = Some (set_p_hat p_hat cn)) as Hc1.
  { simpl. by apply list_lookup_insert_eq. }
  assert (transition_threshold c σ1
          = Ok (eval (ub_transition_threshold (upper_bound (config σ)))
                  h (env_actions σ) (c_count cn) t) σ1) as Hthr.
  { unfold transition_threshold, get_config, get_env_actions, bind at 1.
    simpl config. rewrite Hh, Ht. unfold config_key, ret, bind at 1 2.
    by rewrite (bind_Ok _ _ _ _ _ (get_chance_Ok _ _ _ Hc1)). }
  rewrite (bind_Ok _ _ _ _ _ Hthr).
  fold (kl_transition_threshold σ cn h t).
  assert (∀ bound, (∀ d, bound d = reward_bound f d) →
            mapM (λ kr, bind (get_decision kr.2) (λ d,
                          bind (get_field kr.2 f) (λ v,
                            ret (add (bound d) (mul (gamma (config σ)) v)))))
                 (c_children cn) σ1 = Ok values σ1) as Hmap.
  { intros bound Hbound. apply mapM_reads.
    eapply Forall2_impl; [exact Hvalues|].
    intros kr u (d & v & Hd & Hv & ->); simpl.
    rewrite (bind_Ok _ _ _ _ _ (get_decision_Ok σ1 _ _ Hd)).
    rewrite (bind_Ok _ _ _ _ _ (get_field_reads σ1 _ _ _ _ Hd Hv)).
    by rewrite Hbound. }
  destruct f.
  - rewrite (bind_Ok _ _ _ _ _ (Hmap mu_lcb (λ _, eq_refl))).
    fold p. rewrite (bind_Ok _ _ _ _ _ (modify_chance_Ok _ _ _ _ Hc1)).
    unfold matmul. rewrite decide_True by done. unfold ret at 1, bind at 1.
    unfold bind, modify_chance, ret; simpl.
    rewrite list_lookup_insert_eq by by rewrite length_insert.
    by rewrite !list_insert_insert_eq.
  - rewrite (bind_Ok _ _ _ _ _ (Hmap mu_ucb (λ _, eq_refl))).
    fold p. rewrite (bind_Ok _ _ _ _ _ (modify_chance_Ok _ _ _ _ Hc1)).
    unfold matmul. rewrite decide_True by done. unfold ret at 1, bind at 1.
    unfold bind, modify_chance, ret; simpl.
    rewrite list_lookup_insert_eq by by rewrite length_insert.
    by rewrite !list_insert_insert_eq.
Qed.

Lemma after_chance_backup_node σ c cn f (distribution p : list num) (v : num) :
  cheap σ !! c = Some cn →
  let σ' := after_chance_backup σ c cn f distribution p v in
  let cn' := set_c_value f v
               ((match f with
                 | value_upper => set_p_plus p
                 | value_lower => set_p_minus p
                 end) (set_p_hat distribution cn)) in
  cheap σ' !! c = Some cn'
  ∧ (∀ c0, c0 ≠ c → cheap σ' !! c0 = cheap σ !! c0)
  ∧ dheap σ' = dheap σ.
Proof.
  intros Hc. unfold after_chance_backup. cbn [cheap dheap set_cheap].
  split_and!; [|by intros c0 Hne; rewrite list_lookup_insert_ne|done].
  apply list_lookup_insert_eq. eauto using lookup_lt_Some.
Qed.

(** C6. For a chance node with count > 0 (and the configuration keys the
    threshold expression reads in place), [backup("value_upper")] sets
    [p_hat] to the children's visit counts divided by the node's count;
    forms the children's values [mu_ucb + gamma * value_upper], the value
    being read through the node table; obtains [p_plus] from the
    constrained-expectation routine on these values, [p_hat] and the
    transition threshold; sets [p_plus], sets [value_upper] to
    [p_plus . values] and returns that number.  [backup("value_lower")]
    does the same with [mu_lcb], hands the routine the negated values to
    obtain [p_minus], sets [p_minus], and sets and returns
    [value_lower = p_minus . values].  The other bound and the other
    distribution of the node, its parent, count and children, every other
    chance node and every decision node are as before. *)
Theorem chance_backup_visited σ c cn h t counts :
  cheap σ !! c = Some cn →
  0 < c_count cn →
  horizon (config σ) = Some h →
  episodes (config σ) = Some t →
  children_counts σ cn counts →
  let distribution := empirical_distribution cn counts in
  let threshold := kl_transition_threshold σ cn h t in
  (∀ u_next,
     one_step_values σ cn value_upper u_next →
     let p := max_expectation_under_constraint u_next distribution threshold in
     length p = length u_next →
     ∃ σ' cn',
       c_backup c value_upper σ = Ok (dot p u_next) σ'
       ∧ σ' = after_chance_backup σ c cn value_upper distribution p
                (dot p u_next)
       ∧ cheap σ' !! c = Some cn'
       ∧ p_hat cn' = Some distribution
       ∧ p_plus cn' = Some p
       ∧ c_value_upper cn' = dot p u_next
       ∧ p_minus cn' = p_minus cn
       ∧ c_value_lower cn' = c_value_lower cn
       ∧ same_links cn cn'
       ∧ (∀ c0, c0 ≠ c → cheap σ' !! c0 = cheap σ !! c0)
       ∧ dheap σ' = dheap σ)
  ∧ (∀ l_next,
       one_step_values σ cn value_lower l_next →
       let p :=
         max_expectation_under_constraint (opp <$> l_next) distribution
           threshold in
       length p = length l_next →
       ∃ σ' cn',
         c_backup c value_lower σ = Ok (dot p l_next) σ'
         ∧ σ' = after_chance_backup σ c cn value_lower distribution p
                  (dot p l_next)
         ∧ cheap σ' !! c = Some cn'
         ∧ p_hat cn' = Some distribution
         ∧ p_minus cn' = Some p
         ∧ c_value_lower cn' = dot p l_next
         ∧ p_plus cn' = p_plus cn
         ∧ c_value_upper cn' = c_value_upper cn
         ∧ same_links cn cn'
         ∧ (∀ c0, c0 ≠ c → cheap σ' !! c0 = cheap σ !! c0)
         ∧ dheap σ' = dheap σ).
Proof.
  intros Hc Hcount Hh Ht Hcounts distribution threshold. split.
  - intros u_next Hvalues p Hlen.
    destruct (after_chance_backup_node σ c cn value_upper distribution p
                (dot p u_next) Hc) as (Hnode & Hothers & Hdheap).
    eexists _, _. split_and!;
      [by apply (chance_backup_steps σ c cn value_upper h t counts u_next)
      |reflexivity|exact Hnode|..]; try done.
  - intros l_next Hvalues p Hlen.
    destruct (after_chance_backup_node σ c cn value_lower distribution p
                (dot p l_next) Hc) as (Hnode & Hothers & Hdheap).
    eexists _, _. split_and!;
      [by apply (chance_backup_steps σ c cn value_lower h t counts l_next)
      |reflexivity|exact Hnode|..]; try done.
Qed.

(** ** Backup and action rules of a decision node *)

Lemma mapM_backups_in_turn f children σ qs σ' :
  mapM (λ ac, bind (c_backup ac.2 f) (λ q, ret (ac.1, q))) children σ
  = Ok qs σ'
  ↔ backups_in_turn f children σ qs σ'.
Proof.
  split.
  - revert σ qs. induction children as [|[a c] children IH]; intros σ qs.
    + intros [= <- <-]. constructor.
    + simpl. unfold bind at 1 2.
      destruct (c_backup c f σ) as [q σ1|] eqn:Hq; [|done].
      unfold ret at 1, bind at 1.
      destruct (mapM _ children σ1) as [qs' σ2|] eqn:Hqs; [|done].
      intros [= <- <-]. econstructor; eauto.
  - induction 1 as [|a c children σ q σ1 qs σ2 Hq _ IH]; [done|].
    simpl. unfold bind at 1 2. rewrite Hq. unfold ret at 1, bind at 1.
    by rewrite IH.
Qed.

Lemma backups_in_turn_actions f children σ qs σ' :
  backups_in_turn f children σ qs σ' → qs.*1 = children.*1.
Proof.
  induction 1 as [|a c children σ q σ1 qs σ2 _ _ IH]; [done|].
  rewrite !fmap_cons. by f_equal.
Qed.

(** C4, as amended. The conservative selection rule picks an action that
    maximises the [value_lower] backup exactly as the sampling rule does
    with [value_upper], but it never expands the node: on a node that has
    children the two rules differ in the bound only, and on a node without
    children the selection rule backs up nothing, creates no chance node
    and hands the empty list of values to the argmax. *)
Theorem selection_rule_never_expands σ r d :
  dheap σ !! r = Some d →
  sampling_rule r σ = rule_with_expansion r value_upper σ
  ∧ (d_children d ≠ [] →
     selection_rule r σ = rule_with_expansion r value_lower σ)
  ∧ (d_children d = [] →
     selection_rule r σ
     = bind (call_random_argmax []) (list_index []) σ
     ∧ dheap (final_state (selection_rule r σ)) = dheap σ
     ∧ cheap (final_state (selection_rule r σ)) = cheap σ).
Proof.
  intros Hr. split_and!.
  - done.
  - intros Hchildren. unfold selection_rule, rule_with_expansion.
    rewrite (bind_Ok _ (λ d0, bind _ _) _ _ _ (get_decision_Ok _ _ _ Hr)).
    by rewrite decide_False by done.
  - intros Hchildren.
    assert (selection_rule r σ
            = bind (call_random_argmax []) (list_index []) σ) as Heq.
    { unfold selection_rule, d_backup. unfold bind at 1.
      rewrite (bind_Ok _ _ _ _ _ (get_decision_Ok _ _ _ Hr)).
      by rewrite Hchildren. }
    split; [done|]. rewrite Heq.
    unfold bind, call_random_argmax, list_index.
    destruct (random_argmax [] (np_random σ)) as [[i|] g]; simpl; done.
Qed.

(** ** Backups succeed on a well-formed graph *)

Lemma same_links_refl cn : same_links cn cn.
Proof. done. Qed.

Lemma same_links_trans cn1 cn2 cn3 :
  same_links cn1 cn2 → same_links cn2 cn3 → same_links cn1 cn3.
Proof. intros (?&?&?) (?&?&?). split_and!; congruence. Qed.

Lemma backup_frame_refl σ : backup_frame σ σ.
Proof.
  split_and!; try done. apply Forall2_same_length_lookup_2; [done|].
  intros i cn cn' ??. simplify_eq. apply same_links_refl.
Qed.

Lemma backup_frame_trans σ1 σ2 σ3 :
  backup_frame σ1 σ2 → backup_frame σ2 σ3 → backup_frame σ1 σ3.
Proof.
  intros (?&?&?&?&?&?&?&Hc1) (?&?&?&?&?&?&?&Hc2).
  split_and!; try congruence.
  eapply Forall2_trans; [|exact Hc1|exact Hc2].
  intros ???. apply same_links_trans.
Qed.

Lemma backup_frame_chance σ σ' c cn :
  backup_frame σ σ' → cheap σ !! c = Some cn →
  ∃ cn', cheap σ' !! c = Some cn' ∧ same_links cn cn'.
Proof.
  intros (_&_&_&_&_&_&_&Hc) Hcn.
  destruct (Forall2_lookup_l _ _ _ _ _ Hc Hcn) as (cn' & ? & ?). eauto.
Qed.

Lemma backup_frame_chance_inv σ σ' c cn' :
  backup_frame σ σ' → cheap σ' !! c = Some cn' →
  ∃ cn, cheap σ !! c = Some cn ∧ same_links cn cn'.
Proof.
  intros (_&_&_&_&_&_&_&Hc) Hcn.
  destruct (Forall2_lookup_r _ _ _ _ _ Hc Hcn) as (cn & ? & ?). eauto.
Qed.

Lemma backup_ready_frame σ σ' :
  backup_ready σ → backup_frame σ σ' → backup_ready σ'.
Proof.
  intros (Hh & He & Hd & Hc & Hn) Hframe.
  pose proof Hframe as (Hcfg & _ & Hnodes & _ & Hdheap & _ & _ & Hcheap).
  split_and!.
  - by rewrite Hcfg.
  - by rewrite Hcfg.
  - intros r d a c Hr Hac. rewrite Hdheap in Hr.
    destruct (Hd _ _ _ _ Hr Hac) as [cn Hcn].
    destruct (backup_frame_chance _ _ _ _ Hframe Hcn) as (cn' & -> & _). eauto.
  - intros c cn' k r Hcn' Hkr. rewrite Hdheap.
    destruct (backup_frame_chance_inv _ _ _ _ Hframe Hcn') as (cn & Hcn & Hl).
    destruct Hl as (_ & _ & Hch). rewrite Hch in Hkr. eauto.
  - intros k r. rewrite Hnodes, Hdheap. apply Hn.
Qed.

Lemma backup_frame_after σ c cn f p_hat p v :
  cheap σ !! c = Some cn →
  backup_frame σ (after_chance_backup σ c cn f p_hat p v).
Proof.
  intros Hc. split_and!; try done.
  unfold after_chance_backup; cbn [cheap set_cheap].
  apply Forall2_same_length_lookup_2; [by rewrite length_insert|].
  intros i cn1 cn2 Hl1 Hl2. destruct (decide (c = i)) as [<-|].
  - rewrite list_lookup_insert_eq in Hl2 by eauto using lookup_lt_Some.
    simplify_eq. destruct f; by repeat split.
  - rewrite list_lookup_insert_ne in Hl2 by done. simplify_eq.
    apply same_links_refl.
Qed.

Lemma Forall_exists_Forall2 {A B} (R : A → B → Prop) (l : list A) :
  Forall (λ x, ∃ y, R x y) l → ∃ ys, Forall2 R l ys.
Proof.
  induction 1 as [|x l [y Hy] _ [ys IH]]; [by exists []|].
  exists (y :: ys). by constructor.
Qed.

Lemma chance_backup_succeeds σ c cn f :
  keeps_support → backup_ready σ → cheap σ !! c = Some cn →
  ∃ q σ', c_backup c f σ = Ok q σ' ∧ backup_frame σ σ'.
Proof.
  intros Hlaw (Hh & He & Hd & Hch & Hn) Hc.
  destruct (decide (c_count cn = 0)) as [Hzero|Hpos].
  { exists (get_c_value f cn), σ. split; [|apply backup_frame_refl].
    by apply chance_backup_idle. }
  destruct Hh as [h Hh], He as [t He].
  assert (∃ counts, children_counts σ cn counts) as [counts Hcounts].
  { apply Forall_exists_Forall2, Forall_forall. intros [k r] Hkr.
    destruct (Hch _ _ _ _ Hc Hkr) as [d Hr]. eauto. }
  assert (∃ values, one_step_values σ cn f values) as [values Hvalues].
  { apply Forall_exists_Forall2, Forall_forall. intros [k r] Hkr.
    destruct (Hch _ _ _ _ Hc Hkr) as [d Hr].
    assert (is_Some (indirected_value σ d f)) as [v Hv].
    { unfold indirected_value.
      destruct (nodes σ !! _) as [rep|] eqn:Hrep; [|eauto].
      destruct (Hn _ _ Hrep) as [drep ->]. simpl. eauto. }
    eauto 10. }
  eexists _, _. split.
  - apply (chance_backup_steps σ c cn f h t counts values);
      [done|lia|done|done|done|done|].
    rewrite Hlaw. unfold empirical_distribution. rewrite length_fmap.
    rewrite <-(Forall2_length _ _ _ Hcounts).
    by rewrite (Forall2_length _ _ _ Hvalues).
  - by apply backup_frame_after.
Qed.

Lemma backups_in_turn_succeed f children σ :
  keeps_support → backup_ready σ →
  (∀ a c, (a, c) ∈ children → is_Some (cheap σ !! c)) →
  ∃ qs σ', backups_in_turn f children σ qs σ' ∧ backup_frame σ σ'.
Proof.
  intros Hlaw. revert σ.
  induction children as [|[a c] children IH]; intros σ Hready Hvalid.
  { exists [], σ. split; [constructor|apply backup_frame_refl]. }
  destruct (Hvalid a c) as [cn Hc]; [left|].
  destruct (chance_backup_succeeds σ c cn f Hlaw Hready Hc)
    as (q & σ1 & Hq & Hframe1).
  destruct (IH σ1) as (qs & σ2 & Hqs & Hframe2).
  - by eapply backup_ready_frame.
  - intros a' c' Hin. destruct (Hvalid a' c') as [cn' Hc']; [by right|].
    destruct (backup_frame_chance _ _ _ _ Hframe1 Hc') as (? & -> & _). eauto.
  - exists ((a, q) :: qs), σ2. split; [by econstructor|].
    by eapply backup_frame_trans.
Qed.

Lemma backups_in_turn_length f children σ qs σ' :
  backups_in_turn f children σ qs σ' → length qs = length children.
Proof.
  intros Hrun. apply backups_in_turn_actions in Hrun.
  by rewrite <-(length_fmap fst qs), Hrun, length_fmap.
Qed.

(** C3, as amended. [backup(field)] of a decision node returns a dictionary,
    not a number: it maps every action of the node, in the order of the
    children, to the result of [backup(field)] of that action's chance
    node, the chance nodes being backed up in turn, each in the state the
    previous one left.  The call returns whenever the planner is ready for
    backups. *)
Theorem decision_backup_is_mapping σ r d f :
  dheap σ !! r = Some d →
  (∀ qs σ', d_backup r f σ = Ok qs σ'
            ↔ backups_in_turn f (d_children d) σ qs σ')
  ∧ (∀ qs σ', d_backup r f σ = Ok qs σ' →
              qs.*1 = (d_children d).*1 ∧ length qs = length (d_children d)
              ∧ ∀ m : num, PyDict qs ≠ PyNumber m)
  ∧ (keeps_support → backup_ready σ →
     ∃ qs σ', d_backup r f σ = Ok qs σ').
Proof.
  intros Hr.
  assert (∀ qs σ', d_backup r f σ = Ok qs σ'
                   ↔ backups_in_turn f (d_children d) σ qs σ') as Hiff.
  { intros qs σ'. unfold d_backup.
    rewrite (bind_Ok _ _ _ _ _ (get_decision_Ok _ _ _ Hr)).
    apply mapM_backups_in_turn. }
  split_and!.
  - done.
  - intros qs σ' Hrun. apply Hiff in Hrun. split_and!.
    + by eapply backups_in_turn_actions.
    + by eapply backups_in_turn_length.
    + done.
  - intros Hlaw Hready.
    destruct (backups_in_turn_succeed f (d_children d) σ Hlaw Hready)
      as (qs & σ' & Hrun & _).
    { destruct Hready as (_ & _ & Hd & _). eauto. }
    exists qs, σ'. by apply Hiff.
Qed.

(** ** Maxima *)

Section order_facts.
Context `{!NumericOrder num}.

Lemma gtb_asym (x y : num) : gtb x y = true → gtb y x = false.
Proof.
  intros Hxy. destruct (gtb y x) eqn:Hyx; [|done].
  by rewrite <-(gtb_irrefl x), (gtb_trans x y x).
Qed.

Lemma gtb_ntrans (x y z : num) :
  gtb x y = false → gtb y z = false → gtb x z = false.
Proof.
  intros Hxy Hyz. destruct (gtb x z) eqn:Hxz; [|done].
  destruct (gtb_cotrans x z y Hxz); congruence.
Qed.

Lemma py_max_cases (a b : num) :
  (py_max a b = a ∨ py_max a b = b)
  ∧ gtb a (py_max a b) = false ∧ gtb b (py_max a b) = false.
Proof.
  unfold py_max. destruct (gtb b a) eqn:Hba.
  - split_and!; [by right|by apply gtb_asym|apply gtb_irrefl].
  - split_and!; [by left|apply gtb_irrefl|done].
Qed.

Lemma amax_is_maximum (x : num) (l : list num) : is_maximum (amax x l) (x :: l).
Proof.
  unfold amax. revert x. induction l as [|y l IH]; intros x; simpl.
  { split; [left|]. intros z ->%list_elem_of_singleton. apply gtb_irrefl. }
  destruct (IH (py_max x y)) as [Hin Hmax].
  destruct (py_max_cases x y) as (Hcase & Hx & Hy).
  split.
  - apply elem_of_cons in Hin as [->|Hin]; [|by do 2 right].
    destruct Hcase as [->| ->]; [left|right; left].
  - intros z Hz.
    assert (gtb (py_max x y) (foldl py_max (py_max x y) l) = false) as Hm
      by (apply Hmax; left).
    apply elem_of_cons in Hz as [->|Hz]; [exact (gtb_ntrans _ _ _ Hx Hm)|].
    apply elem_of_cons in Hz as [->|Hz]; [exact (gtb_ntrans _ _ _ Hy Hm)|].
    apply Hmax. by right.
Qed.

Lemma max_of_is_maximum (l : list num) : l ≠ [] → is_maximum (max_of l) l.
Proof. destruct l as [|x l]; [done|]. intros _. apply amax_is_maximum. Qed.

(** The test [delta > accuracy] at the end of a pass: [delta] is
    [max(max(0, a), b)] for the two changes [a], [b]. *)
Lemma delta_exceeds (a b acc : num) :
  gtb zero a = false →
  gtb (py_max (py_max zero a) b) acc = gtb a acc || gtb b acc.
Proof.
  intros Ha.
  assert (gtb a acc = true → gtb (py_max zero a) acc = true) as Hfirst.
  { intros Hacc. unfold py_max. destruct (gtb a zero) eqn:Ha0; [done|].
    destruct (gtb_cotrans a acc zero Hacc); [congruence|done]. }
  assert (gtb (py_max zero a) acc = true → gtb a acc = true) as Hback.
  { unfold py_max. destruct (gtb a zero) eqn:Ha0; [done|]. intros Hacc.
    destruct (gtb_cotrans zero acc a Hacc); [congruence|done]. }
  set (d1 := py_max zero a) in *. unfold py_max at 1.
  destruct (gtb b d1) eqn:Hb.
  - destruct (gtb b acc) eqn:Hbacc; [by rewrite orb_true_r|].
    rewrite orb_false_r. destruct (gtb a acc) eqn:Haacc; [|done].
    by rewrite <-Hbacc, (gtb_trans b d1 acc Hb (Hfirst eq_refl)).
  - destruct (gtb a acc) eqn:Haacc; [by rewrite Hfirst|]. simpl.
    destruct (gtb b acc) eqn:Hbacc.
    + destruct (gtb_cotrans b acc d1 Hbacc); [congruence|done].
    + destruct (gtb d1 acc) eqn:Hd1; [|done]. by specialize (Hback eq_refl).
Qed.
End order_facts.

(** ** One pass of partial value iteration *)

Lemma backup_ready_store σ node d d' :
  backup_ready σ → dheap σ !! node = Some d →
  d_children d' = d_children d →
  backup_ready (store_decision node d' σ).
Proof.
  intros (Hh & He & Hd & Hc & Hn) Hnode Hch.
  assert (∀ r, is_Some (dheap σ !! r) →
               is_Some (<[node:=d']> (dheap σ) !! r)) as Hkeep.
  { intros r [dr Hr]. destruct (decide (node = r)) as [<-|].
    - rewrite list_lookup_insert_eq by eauto using lookup_lt_Some. eauto.
    - rewrite list_lookup_insert_ne by done. eauto. }
  split_and!; try done; simpl.
  - intros r dr a c Hr Hac. destruct (decide (node = r)) as [<-|].
    + rewrite list_lookup_insert_eq in Hr by eauto using lookup_lt_Some.
      simplify_eq. rewrite Hch in Hac. eauto.
    + rewrite list_lookup_insert_ne in Hr by done. eauto.
  - intros c cn k r Hcn Hkr. apply Hkeep. eauto.
  - intros k r Hkr. apply Hkeep. eauto.
Qed.

Lemma pvi_field_pass σ node d f (delta : num) :
  keeps_support → backup_ready σ →
  dheap σ !! node = Some d → d_children d ≠ [] →
  ∃ qs σ1,
    backups_in_turn f (d_children d) σ qs σ1
    ∧ backup_frame σ σ1
    ∧ qs.*2 ≠ []
    ∧ pvi_field node delta f σ
      = Ok (py_max delta (absolute (sub (get_d_value f d) (max_of (qs.*2)))))
          (store_decision node (set_d_value f (max_of (qs.*2)) d) σ1).
Proof.
  intros Hlaw Hready Hnode Hchildren.
  destruct (backups_in_turn_succeed f (d_children d) σ Hlaw Hready)
    as (qs & σ1 & Hrun & Hframe).
  { destruct Hready as (_ & _ & Hd & _). eauto. }
  exists qs, σ1.
  assert (qs.*2 ≠ []) as Hne.
  { apply backups_in_turn_length in Hrun. destruct qs; [|done].
    by destruct (d_children d). }
  split_and!; [done..|].
  pose proof Hframe as (_ & _ & _ & _ & Hdheap & _).
  unfold pvi_field.
  erewrite bind_Ok; last first.
  { unfold d_backup. rewrite (bind_Ok _ _ _ _ _ (get_decision_Ok _ _ _ Hnode)).
    by apply mapM_backups_in_turn. }
  destruct (qs.*2) as [|x l] eqn:Hvals; [done|].
  unfold np_amax, ret at 1, bind at 1.
  rewrite <-Hdheap in Hnode.
  rewrite (bind_Ok _ _ _ _ _ (get_decision_Ok _ _ _ Hnode)).
  rewrite (bind_Ok _ _ _ _ _ (modify_decision_Ok _ _ _ _ Hnode)).
  done.
Qed.

Lemma pvi_loop_empties fuel queue σ σ' :
  pvi_loop fuel queue σ = Some (Ok tt σ') → empties queue σ σ'.
Proof.
  revert queue σ. induction fuel as [|fuel IH]; intros [|node rest] σ; simpl.
  - intros [= <-]. constructor.
  - done.
  - intros [= <-]. constructor.
  - destruct (pvi_iteration node rest σ) as [queue' σ1|] eqn:Hpass; [|done].
    intros Hrest. econstructor; eauto.
Qed.

Lemma empties_pvi_loop queue σ σ' :
  empties queue σ σ' → ∃ fuel, pvi_loop fuel queue σ = Some (Ok tt σ').
Proof.
  induction 1 as [σ|node rest σ queue' σ1 σ' Hpass _ [fuel IH]].
  - by exists 0.
  - exists (S fuel). simpl. by rewrite Hpass.
Qed.

Lemma pvi_iteration_pass `{!NumericOrder num} σ node rest d :
  keeps_support →
  backup_ready σ →
  dheap σ !! node = Some d →
  d_children d ≠ [] →
  ∃ ql σ1 qu σ2,
    let vl := max_of (ql.*2) in
    let d1 := set_d_value value_lower vl d in
    let vu := max_of (qu.*2) in
    let d2 := set_d_value value_upper vu d1 in
    let changed :=
      gtb (absolute (sub (d_value_lower d) vl)) (accuracy (config σ))
      || gtb (absolute (sub (d_value_upper d) vu)) (accuracy (config σ)) in
    backups_in_turn value_lower (d_children d) σ ql σ1
    ∧ backups_in_turn value_upper (d_children d)
        (store_decision node d1 σ1) qu σ2
    ∧ is_maximum vl (ql.*2)
    ∧ is_maximum vu (qu.*2)
    ∧ dheap σ2 = <[node := d1]> (dheap σ)
    ∧ pvi_iteration node rest σ
      = Ok (if changed then rest ++ list_of_set node (d_parents d) else rest)
          (store_decision node d2 σ2).
Proof.
  intros Hlaw Hready Hnode Hchildren.
  destruct (pvi_field_pass σ node d value_lower zero Hlaw Hready Hnode
              Hchildren) as (ql & σ1 & Hql & Hframe1 & Hne1 & Hpass1).
  set (vl := max_of (ql.*2)) in *.
  set (d1 := set_d_value value_lower vl d) in *.
  pose proof Hframe1 as (Hcfg1 & _ & _ & _ & Hdheap1 & _).
  assert (dheap σ1 !! node = Some d) as Hnode1 by by rewrite Hdheap1.
  assert (backup_ready (store_decision node d1 σ1)) as Hready1.
  { eapply backup_ready_store; [by eapply backup_ready_frame|done|done]. }
  assert (dheap (store_decision node d1 σ1) !! node = Some d1) as Hnode1'.
  { simpl. apply list_lookup_insert_eq. eauto using lookup_lt_Some. }
  destruct (pvi_field_pass (store_decision node d1 σ1) node d1 value_upper
              (py_max zero (absolute (sub (d_value_lower d) vl)))
              Hlaw Hready1 Hnode1' Hchildren)
    as (qu & σ2 & Hqu & Hframe2 & Hne2 & Hpass2).
  set (vu := max_of (qu.*2)) in *.
  pose proof Hframe2 as (Hcfg2 & _ & _ & _ & Hdheap2 & _).
  exists ql, σ1, qu, σ2. simpl. fold vl d1 vu. split_and!.
  - done.
  - done.
  - by apply max_of_is_maximum.
  - by apply max_of_is_maximum.
  - rewrite Hdheap2. unfold store_decision; cbn [dheap set_dheap].
    by rewrite Hdheap1.
  - unfold pvi_iteration; simpl. unfold bind at 1 2.
    rewrite Hpass1. rewrite (bind_Ok _ _ _ _ _ Hpass2). unfold ret at 1.
    unfold get_config, bind at 1.
    assert (config (store_decision node (set_d_value value_upper vu d1) σ2)
            = config σ) as -> by (simpl; by rewrite Hcfg2).
    change (get_d_value value_upper d1) with (d_value_upper d).
    change (get_d_value value_lower d) with (d_value_lower d).
    rewrite delta_exceeds by apply absolute_nonneg.
    destruct (_ || _); [|done].
    assert (dheap (store_decision node (set_d_value value_upper vu d1) σ2)
              !! node = Some (set_d_value value_upper vu d1)) as Hget.
    { unfold store_decision at 1; cbn [dheap set_dheap].
      apply list_lookup_insert_eq. rewrite Hdheap2.
      unfold store_decision; cbn [dheap set_dheap]. rewrite length_insert.
      eauto using lookup_lt_Some. }
    by rewrite (bind_Ok _ _ _ _ _ (get_decision_Ok _ _ _ Hget)).
Qed.

Lemma pvi_iteration_childless σ node rest d :
  dheap σ !! node = Some d → d_children d = [] →
  pvi_iteration node rest σ = Raise (ValueError empty_maximum_message) σ.
Proof.
  intros Hnode Hchildren.
  unfold pvi_iteration. cbn [foldM]. unfold pvi_field at 1, d_backup at 1.
  unfold bind at 1 2 3.
  rewrite (bind_Ok _ _ _ _ _ (get_decision_Ok _ _ _ Hnode)).
  by rewrite Hchildren.
Qed.

(** C8, as amended. In [partial_value_iteration], in a planner that is
    ready for backups, the pass for a popped node depends on whether the
    node has children.
    - With at least one child, [value_lower] and then [value_upper] of the
      node are replaced by the maximum over the values of the node's
      per-action backup of that field (the node is otherwise as before and
      no other decision node changes), and the queue after the pass is the
      rest of the queue, with [list(node.parents)], which holds every
      parent once, appended to it exactly when the absolute change of one
      of the two bounds exceeds [accuracy]; the iteration goes on with
      that queue.
    - Without children, the pass raises [ValueError] from the maximum over
      an empty list and the planner is left as it was.
    On an empty queue the procedure returns at once, [queue=None] stands
    for the queue that holds the node itself, and the procedure returns
    normally exactly when passes lead to the empty queue. *)
Theorem partial_value_iteration_pass `{!NumericOrder num}
    σ (self node : dref) rest d (fuel : nat) :
  keeps_support →
  lists_members_once →
  backup_ready σ →
  dheap σ !! node = Some d →
  (d_children d ≠ [] →
   ∃ ql σ1 qu σ2 d' queue' σ',
     let vl := max_of (ql.*2) in
     let vu := max_of (qu.*2) in
     let changed :=
       gtb (absolute (sub (d_value_lower d) vl)) (accuracy (config σ))
       || gtb (absolute (sub (d_value_upper d) vu)) (accuracy (config σ)) in
     backups_in_turn value_lower (d_children d) σ ql σ1
     ∧ backups_in_turn value_upper (d_children d)
         (store_decision node (set_d_value value_lower vl d) σ1) qu σ2
     ∧ is_maximum vl (ql.*2)
     ∧ is_maximum vu (qu.*2)
     ∧ pvi_iteration node rest σ = Ok queue' σ'
     ∧ dheap σ' !! node = Some d'
     ∧ d_value_lower d' = vl
     ∧ d_value_upper d' = vu
     ∧ same_but_values d d'
     ∧ (∀ r, r ≠ node → dheap σ' !! r = dheap σ !! r)
     ∧ queue' = (if changed then rest ++ list_of_set node (d_parents d)
                 else rest)
     ∧ (∀ p, p ∈ list_of_set node (d_parents d) ↔ p ∈ d_parents d)
     ∧ NoDup (list_of_set node (d_parents d))
     ∧ partial_value_iteration (S fuel) self (Some (node :: rest)) σ
       = partial_value_iteration fuel self (Some queue') σ')
  ∧ (d_children d = [] →
     partial_value_iteration (S fuel) self (Some (node :: rest)) σ
     = Some (Raise (ValueError empty_maximum_message) σ))
  ∧ (∀ σ0, partial_value_iteration fuel self (Some []) σ0 = Some (Ok tt σ0))
  ∧ (∀ σ0, partial_value_iteration fuel self None σ0
           = partial_value_iteration fuel self (Some [self]) σ0)
  ∧ (∀ queue σ0 σ',
       (∃ fuel', partial_value_iteration fuel' self (Some queue) σ0
                 = Some (Ok tt σ'))
       ↔ empties queue σ0 σ').
Proof.
  intros Hlaw Hlist Hready Hnode. split_and!.
  - intros Hchildren.
    destruct (pvi_iteration_pass σ node rest d Hlaw Hready Hnode Hchildren)
      as (ql & σ1 & qu & σ2 & Hql & Hqu & Hvl & Hvu & Hdheap & Hpass).
    cbv zeta in Hql, Hqu, Hvl, Hvu, Hdheap, Hpass.
    set (vl := max_of (ql.*2)) in *. set (vu := max_of (qu.*2)) in *.
    set (d2 := set_d_value value_upper vu (set_d_value value_lower vl d)) in *.
    assert (node < length (dheap σ)) as Hlt by eauto using lookup_lt_Some.
    eexists ql, σ1, qu, σ2, d2, _, (store_decision node d2 σ2).
    cbv zeta. fold vl vu. split_and!; try done.
    + unfold store_decision; cbn [dheap set_dheap]. rewrite Hdheap.
      apply list_lookup_insert_eq. by rewrite length_insert.
    + intros r Hne. unfold store_decision; cbn [dheap set_dheap].
      rewrite Hdheap. by rewrite !list_lookup_insert_ne.
    + intros p. rewrite (Hlist node (d_parents d)). apply elem_of_elements.
    + rewrite (Hlist node (d_parents d)). apply NoDup_elements.
    + unfold partial_value_iteration. cbn [pvi_loop]. by rewrite Hpass.
  - intros Hchildren. unfold partial_value_iteration. cbn [pvi_loop].
    by rewrite (pvi_iteration_childless σ node rest d Hnode Hchildren).
  - intros σ0. unfold partial_value_iteration. by destruct fuel.
  - done.
  - intros queue σ0 σ'. unfold partial_value_iteration. split.
    + intros [fuel' Hrun]. by eapply pvi_loop_empties.
    + apply empties_pvi_loop.
Qed.

(** ** The graph invariant under single updates *)

Section invariant.
Context (strict : Prop).
Implicit Types (X : dref → Prop).

Lemma sum_list_cons (x : nat) (l : list nat) :
  sum_list (x :: l) = x + sum_list l.
Proof. done. Qed.

Lemma sum_visits_agree σ σ' (l : list dref) :
  (∀ r, r ∈ l → visits σ' r = visits σ r) →
  sum_list (visits σ' <$> l) = sum_list (visits σ <$> l).
Proof.
  induction l as [|r l IH]; intros Hagree; [done|].
  rewrite !fmap_cons, !sum_list_cons.
  rewrite Hagree by left. f_equal. apply IH. intros r' Hr'. apply Hagree.
  by right.
Qed.

Lemma visits_insert_ne σ r r' d' :
  r ≠ r' → visits (set_dheap (<[r := d']> (dheap σ)) σ) r' = visits σ r'.
Proof.
  intros Hne. unfold visits. cbn [dheap set_dheap].
  by rewrite list_lookup_insert_ne.
Qed.

Lemma visits_insert_same_count σ r d d' r' :
  dheap σ !! r = Some d → d_count d' = d_count d →
  visits (set_dheap (<[r := d']> (dheap σ)) σ) r' = visits σ r'.
Proof.
  intros Hr Hcount. destruct (decide (r = r')) as [<-|];
    [|by apply visits_insert_ne].
  unfold visits. cbn [dheap set_dheap].
  rewrite list_lookup_insert_eq by eauto using lookup_lt_Some.
  by rewrite Hr.
Qed.

(** Only the stores and the node table matter. *)
Lemma graph_inv_ext X σ σ' :
  dheap σ' = dheap σ → cheap σ' = cheap σ → nodes σ' = nodes σ →
  graph_inv strict X σ → graph_inv strict X σ'.
Proof.
  intros Hd Hc Hn [].
  assert (∀ r, visits σ' r = visits σ r) as Hv
    by (intros r; unfold visits; by rewrite Hd).
  assert (∀ r, unowned σ r → unowned σ' r) as Hu.
  { intros r Hr c cn. rewrite Hc. apply Hr. }
  split.
  - intros c cn r. rewrite Hc, Hd. apply inv_kids_valid0.
  - intros k r. rewrite Hn, Hd. apply inv_nodes_valid0.
  - intros c cn. rewrite Hc. apply inv_kids_nodup0.
  - intros c1 c2 cn1 cn2 r. rewrite !Hc. apply inv_kids_disjoint0.
  - intros k r Hk. rewrite Hn in Hk. apply Hu. by eapply inv_canonical0.
  - intros c cn Hcn. rewrite Hc in Hcn.
    rewrite (sum_visits_agree σ σ'); [exact (inv_sum0 _ _ Hcn)|auto].
  - intros Hs c cn k r Hcn. rewrite Hc in Hcn. rewrite Hv.
    by eapply inv_placeholders0.
  - intros r Hr. rewrite Hd. destruct (inv_protected0 r Hr). auto.
Qed.

Lemma graph_inv_weaken X X' σ :
  (∀ r, X' r → X r) → graph_inv strict X σ → graph_inv strict X' σ.
Proof. intros HX []. split; auto. Qed.

Lemma graph_inv_protect X σ r :
  r < length (dheap σ) → unowned σ r →
  graph_inv strict X σ → graph_inv strict (λ r', X r' ∨ r' = r) σ.
Proof. intros Hr Hu []. split; auto. intros r' [?| ->]; auto. Qed.

(** A new decision node. *)
Lemma graph_inv_alloc_decision X σ d :
  graph_inv strict X σ →
  graph_inv strict X (set_dheap (dheap σ ++ [d]) σ).
Proof.
  intros [].
  assert (∀ r, r < length (dheap σ) →
               visits (set_dheap (dheap σ ++ [d]) σ) r = visits σ r) as Hv.
  { intros r Hr. unfold visits. cbn [dheap set_dheap].
    by rewrite lookup_app_l. }
  assert (∀ r, r < length (dheap σ) → r < length (dheap σ ++ [d])) as Hlen.
  { intros r Hr. rewrite length_app. lia. }
  split; cbn [dheap cheap nodes set_dheap].
  - intros c cn r Hcn Hr. eauto.
  - intros k r Hk. eauto.
  - done.
  - done.
  - done.
  - intros c cn Hcn. rewrite (sum_visits_agree σ); [exact (inv_sum0 _ _ Hcn)|].
    intros r Hr. apply Hv. by eapply inv_kids_valid0.
  - intros Hs c cn k r Hcn Hkr Hk.
    rewrite Hv; [by eapply inv_placeholders0|].
    apply (inv_kids_valid0 c cn); [done|].
    apply list_elem_of_fmap. by exists (k, r).
  - intros r Hr. destruct (inv_protected0 r Hr). auto.
Qed.

(** A decision node changes but keeps its visit count. *)
Lemma graph_inv_modify_decision X σ r d d' :
  dheap σ !! r = Some d → d_count d' = d_count d →
  graph_inv strict X σ →
  graph_inv strict X (set_dheap (<[r := d']> (dheap σ)) σ).
Proof.
  intros Hr Hcount [].
  pose proof (visits_insert_same_count σ r d d' ) as Hv.
  split; cbn [dheap cheap nodes set_dheap]; rewrite ?length_insert.
  - done.
  - done.
  - done.
  - done.
  - done.
  - intros c cn Hcn. rewrite (sum_visits_agree σ); [exact (inv_sum0 _ _ Hcn)|].
    intros r' _. by apply Hv.
  - intros Hs c cn k r' Hcn Hkr Hk. rewrite Hv by done.
    by eapply inv_placeholders0.
  - done.
Qed.

(** A decision node that is nobody's child changes at will. *)
Lemma graph_inv_modify_unowned X σ r d' :
  unowned σ r →
  graph_inv strict X σ →
  graph_inv strict X (set_dheap (<[r := d']> (dheap σ)) σ).
Proof.
  intros Hu [].
  assert (∀ c cn r', cheap σ !! c = Some cn → r' ∈ kids cn →
            visits (set_dheap (<[r := d']> (dheap σ)) σ) r' = visits σ r')
    as Hv.
  { intros c cn r' Hcn Hr'. apply visits_insert_ne. intros ->.
    by apply (Hu c cn). }
  split; cbn [dheap cheap nodes set_dheap]; rewrite ?length_insert.
  - done.
  - done.
  - done.
  - done.
  - done.
  - intros c cn Hcn. rewrite (sum_visits_agree σ); [exact (inv_sum0 _ _ Hcn)|].
    intros r' Hr'. by apply (Hv c cn).
  - intros Hs c cn k r' Hcn Hkr Hk.
    rewrite (Hv c cn); [by eapply inv_placeholders0|done|].
    apply list_elem_of_fmap. by exists (k, r').
  - done.
Qed.

(** A new entry of the node table. *)
Lemma graph_inv_set_nodes X σ k r :
  r < length (dheap σ) → unowned σ r →
  graph_inv strict X σ →
  graph_inv strict X (set_nodes (<[k := r]> (nodes σ)) σ).
Proof.
  intros Hr Hu [].
  split; cbn [dheap cheap nodes set_nodes].
  - done.
  - intros k' r'. destruct (decide (k = k')) as [<-|].
    + rewrite lookup_insert_eq. by intros [= <-].
    + rewrite lookup_insert_ne by done. eauto.
  - done.
  - done.
  - intros k' r'. destruct (decide (k = k')) as [<-|].
    + rewrite lookup_insert_eq. by intros [= <-].
    + rewrite lookup_insert_ne by done. eauto.
  - done.
  - done.
  - done.
Qed.

(** A chance node changes but keeps its count and its child objects, and
    every entry is an old entry or has a key that is no placeholder key. *)
Lemma graph_inv_modify_chance X σ c cn cn' :
  cheap σ !! c = Some cn →
  c_count cn' = c_count cn →
  kids cn' ≡ₚ kids cn →
  (∀ k r, (k, r) ∈ c_children cn' →
          (k, r) ∈ c_children cn ∨ (strict → ¬ names_placeholder k)) →
  graph_inv strict X σ →
  graph_inv strict X (set_cheap (<[c := cn']> (cheap σ)) σ).
Proof.
  intros Hc Hcount Hkids Hentries [].
  assert (c < length (cheap σ)) as Hlt by eauto using lookup_lt_Some.
  assert (∀ c0 cn0, <[c := cn']> (cheap σ) !! c0 = Some cn0 →
            ∃ cn1, cheap σ !! c0 = Some cn1 ∧ c_count cn0 = c_count cn1
                   ∧ kids cn0 ≡ₚ kids cn1
                   ∧ (c0 ≠ c → cn0 = cn1) ∧ (c0 = c → cn0 = cn')) as Hold.
  { intros c0 cn0 Hc0. destruct (decide (c = c0)) as [<-|].
    - rewrite list_lookup_insert_eq in Hc0 by done. simplify_eq.
      exists cn. by split_and!.
    - rewrite list_lookup_insert_ne in Hc0 by done.
      exists cn0. by split_and!. }
  assert (∀ r, unowned σ r →
               unowned (set_cheap (<[c := cn']> (cheap σ)) σ) r) as Hu.
  { intros r Hr c0 cn0 Hc0.
    destruct (Hold _ _ Hc0) as (cn1 & Hc1 & _ & Hp & _).
    rewrite Hp. by apply (Hr c0). }
  split; cbn [dheap cheap nodes set_cheap].
  - intros c0 cn0 r Hc0 Hr.
    destruct (Hold _ _ Hc0) as (cn1 & Hc1 & _ & Hp & _).
    rewrite Hp in Hr. eauto.
  - done.
  - intros c0 cn0 Hc0.
    destruct (Hold _ _ Hc0) as (cn1 & Hc1 & _ & Hp & _).
    rewrite Hp. eauto.
  - intros c1 c2 cn1 cn2 r Hc1 Hc2 Hr1 Hr2.
    destruct (Hold _ _ Hc1) as (cn1' & Hc1' & _ & Hp1 & _).
    destruct (Hold _ _ Hc2) as (cn2' & Hc2' & _ & Hp2 & _).
    rewrite Hp1 in Hr1. rewrite Hp2 in Hr2. eauto.
  - intros k r Hk. apply Hu. eauto.
  - intros c0 cn0 Hc0.
    destruct (Hold _ _ Hc0) as (cn1 & Hc1 & Hcnt & Hp & _).
    rewrite Hcnt, Hp. exact (inv_sum0 _ _ Hc1).
  - intros Hs c0 cn0 k r Hc0 Hkr Hk.
    destruct (Hold _ _ Hc0) as (cn1 & Hc1 & _ & _ & Hne & Heq).
    change (visits (set_cheap (<[c:=cn']> (cheap σ)) σ) r) with (visits σ r).
    destruct (decide (c0 = c)) as [->|Hc0c].
    + rewrite (Heq eq_refl) in Hkr. simplify_eq.
      destruct (Hentries _ _ Hkr) as [Hin|Hno]; [eauto|].
      by destruct (Hno Hs).
    + rewrite (Hne Hc0c) in Hkr. eauto.
  - intros r Hr. destruct (inv_protected0 r Hr). auto.
Qed.

Lemma sum_visits_zero σ (l : list dref) :
  (∀ r, r ∈ l → visits σ r = 0) → sum_list (visits σ <$> l) = 0.
Proof.
  induction l as [|r l IH]; intros Hzero; [done|].
  rewrite fmap_cons, sum_list_cons.
  rewrite Hzero by left. rewrite IH; [done|]. intros r' Hr'. apply Hzero.
  by right.
Qed.

Lemma sum_visits_one_more σ σ' (l : list dref) next :
  NoDup l → next ∈ l →
  visits σ' next = visits σ next + 1 →
  (∀ r, r ≠ next → visits σ' r = visits σ r) →
  sum_list (visits σ' <$> l) = sum_list (visits σ <$> l) + 1.
Proof.
  intros Hnodup Hin Hnext Hother.
  induction l as [|r l IH]; [by apply elem_of_nil in Hin|].
  rewrite !fmap_cons, !sum_list_cons.
  apply NoDup_cons in Hnodup as [Hr Hnodup].
  destruct (decide (r = next)) as [->|Hne].
  - rewrite Hnext. rewrite (sum_visits_agree σ σ'); [lia|].
    intros r' Hr'. apply Hother. by intros ->.
  - rewrite (Hother r Hne). apply elem_of_cons in Hin as [->|Hin]; [done|].
    rewrite IH by done. lia.
Qed.

Lemma chance_alloc_lookup σ cn c cn0 :
  (cheap σ ++ [cn]) !! c = Some cn0 →
  cheap σ !! c = Some cn0 ∨ (c = length (cheap σ) ∧ cn0 = cn).
Proof.
  intros Hc. apply lookup_app_Some in Hc as [Hc|[Hge Hc]]; [by left|].
  apply list_lookup_singleton_Some in Hc as [Hi ->]. right. split; [lia|done].
Qed.

(** A new chance node whose children are fresh decision nodes. *)
Lemma graph_inv_alloc_chance X σ cn :
  c_count cn = 0 → NoDup (kids cn) →
  (∀ r, r ∈ kids cn →
        r < length (dheap σ) ∧ unowned σ r ∧ visits σ r = 0 ∧ ¬ X r
        ∧ ∀ k, nodes σ !! k ≠ Some r) →
  graph_inv strict X σ →
  graph_inv strict X (set_cheap (cheap σ ++ [cn]) σ).
Proof.
  intros Hcount Hnodup Hfresh [].
  split; cbn [dheap cheap nodes set_cheap].
  - intros c cn0 r Hc Hr. apply chance_alloc_lookup in Hc as [Hc|[_ ->]].
    + by eapply inv_kids_valid0.
    + by apply Hfresh.
  - done.
  - intros c cn0 Hc. apply chance_alloc_lookup in Hc as [Hc|[_ ->]].
    + by eapply inv_kids_nodup0.
    + done.
  - intros c1 c2 cn1 cn2 r Hc1 Hc2 Hr1 Hr2.
    apply chance_alloc_lookup in Hc1 as [Hc1|[-> ->]];
      apply chance_alloc_lookup in Hc2 as [Hc2|[-> ->]].
    + by eapply inv_kids_disjoint0.
    + destruct (Hfresh r Hr2) as (_ & Hu & _). by destruct (Hu c1 cn1).
    + destruct (Hfresh r Hr1) as (_ & Hu & _). by destruct (Hu c2 cn2).
    + done.
  - intros k r Hk c cn0 Hc Hr.
    apply chance_alloc_lookup in Hc as [Hc|[_ ->]].
    + by apply (inv_canonical0 k r Hk c cn0).
    + destruct (Hfresh r Hr) as (_ & _ & _ & _ & Hn). by apply (Hn k).
  - intros c cn0 Hc. apply chance_alloc_lookup in Hc as [Hc|[_ ->]].
    + exact (inv_sum0 _ _ Hc).
    + rewrite Hcount. apply sum_visits_zero. intros r Hr. by apply Hfresh.
  - intros Hs c cn0 k r Hc Hkr Hk.
    apply chance_alloc_lookup in Hc as [Hc|[_ ->]].
    + by eapply inv_placeholders0.
    + apply Hfresh. apply list_elem_of_fmap. by exists (k, r).
  - intros r Hr. destruct (inv_protected0 r Hr) as [Hlt Hu].
    split; [done|]. intros c cn0 Hc Hin.
    apply chance_alloc_lookup in Hc as [Hc|[_ ->]].
    + by apply (Hu c cn0).
    + by destruct (Hfresh r Hin) as (_ & _ & _ & HX & _).
Qed.

Lemma same_child_same_key (l : list (string * dref)) k1 k2 r :
  NoDup (l.*2) → (k1, r) ∈ l → (k2, r) ∈ l → k1 = k2.
Proof.
  induction l as [|[k v] l IH]; intros Hnodup H1 H2;
    [by apply elem_of_nil in H1|].
  rewrite fmap_cons in Hnodup. apply NoDup_cons in Hnodup as [Hv Hnodup].
  assert (∀ k', (k', r) ∈ l → r ∈ l.*2) as Hin.
  { intros k' Hk'. apply list_elem_of_fmap. by exists (k', r). }
  apply elem_of_cons in H1 as [Heq1|H1];
    apply elem_of_cons in H2 as [Heq2|H2]; simplify_eq/=.
  - done.
  - destruct Hv. by eapply Hin.
  - destruct Hv. by eapply Hin.
  - by apply IH.
Qed.

(** A visit: the count of a chance node and the count of one of its
    children both go up by one. *)
Lemma graph_inv_visit X σ c cn k next d d' :
  cheap σ !! c = Some cn →
  (k, next) ∈ c_children cn →
  (strict → ¬ names_placeholder k) →
  dheap σ !! next = Some d →
  d_count d' = d_count d + 1 →
  graph_inv strict X σ →
  graph_inv strict X
    (set_dheap (<[next := d']> (dheap σ))
       (set_cheap (<[c := set_c_count (c_count cn + 1) cn]> (cheap σ)) σ)).
Proof.
  intros Hc Hk Hreal Hnext Hcount [].
  set (σ' := set_dheap _ _).
  assert (c < length (cheap σ)) as Hlt by eauto using lookup_lt_Some.
  assert (next ∈ kids cn) as Hin.
  { apply list_elem_of_fmap. by exists (k, next). }
  assert (visits σ' next = visits σ next + 1) as Hvnext.
  { unfold visits, σ'. cbn [dheap set_dheap set_cheap].
    rewrite list_lookup_insert_eq by eauto using lookup_lt_Some.
    by rewrite Hnext. }
  assert (∀ r, r ≠ next → visits σ' r = visits σ r) as Hvother.
  { intros r Hr. unfold visits, σ'. cbn [dheap set_dheap set_cheap].
    by rewrite list_lookup_insert_ne. }
  assert (∀ c0 cn0, cheap σ' !! c0 = Some cn0 →
            ∃ cn1, cheap σ !! c0 = Some cn1 ∧ c_children cn0 = c_children cn1
                   ∧ (c0 ≠ c → cn0 = cn1)
                   ∧ (c0 = c → cn1 = cn ∧ c_count cn0 = c_count cn + 1))
    as Hold.
  { intros c0 cn0. unfold σ'. cbn [cheap set_dheap set_cheap]. intros Hc0.
    destruct (decide (c = c0)) as [<-|].
    - rewrite list_lookup_insert_eq in Hc0 by done. simplify_eq.
      exists cn. by split_and!.
    - rewrite list_lookup_insert_ne in Hc0 by done.
      exists cn0. by split_and!. }
  assert (∀ r, unowned σ r → unowned σ' r) as Hu.
  { intros r Hr c0 cn0 Hc0.
    destruct (Hold _ _ Hc0) as (cn1 & Hc1 & Hch & _).
    unfold kids. rewrite Hch. by apply (Hr c0). }
  split.
  - intros c0 cn0 r Hc0 Hr.
    destruct (Hold _ _ Hc0) as (cn1 & Hc1 & Hch & _).
    unfold kids in Hr. rewrite Hch in Hr.
    unfold σ'. cbn [dheap set_dheap]. rewrite length_insert.
    by eapply inv_kids_valid0.
  - intros k0 r Hk0. unfold σ'. cbn [dheap set_dheap]. rewrite length_insert.
    by eapply (inv_nodes_valid0 k0).
  - intros c0 cn0 Hc0.
    destruct (Hold _ _ Hc0) as (cn1 & Hc1 & Hch & _).
    unfold kids. rewrite Hch. by eapply inv_kids_nodup0.
  - intros c1 c2 cn1 cn2 r Hc1 Hc2 Hr1 Hr2.
    destruct (Hold _ _ Hc1) as (cn1' & Hc1' & Hch1 & _).
    destruct (Hold _ _ Hc2) as (cn2' & Hc2' & Hch2 & _).
    unfold kids in Hr1, Hr2. rewrite Hch1 in Hr1. rewrite Hch2 in Hr2.
    by eapply (inv_kids_disjoint0 c1 c2).
  - intros k0 r Hk0. apply Hu. by eapply (inv_canonical0 k0).
  - intros c0 cn0 Hc0.
    destruct (Hold _ _ Hc0) as (cn1 & Hc1 & Hch & Hne & Heq).
    unfold kids. rewrite Hch. fold (kids cn1).
    destruct (decide (c0 = c)) as [->|Hc0c].
    + destruct (Heq eq_refl) as [-> ->].
      rewrite (sum_visits_one_more σ σ' _ next);
        [|by eapply inv_kids_nodup0|done..].
      by rewrite (inv_sum0 _ _ Hc).
    + rewrite (Hne Hc0c). rewrite (sum_visits_agree σ σ').
      * exact (inv_sum0 _ _ Hc1).
      * intros r Hr. apply Hvother. intros ->.
        apply Hc0c. by eapply (inv_kids_disjoint0 c0 c).
  - intros Hs c0 cn0 k0 r Hc0 Hkr Hk0.
    destruct (Hold _ _ Hc0) as (cn1 & Hc1 & Hch & _).
    rewrite Hch in Hkr.
    assert (r ∈ kids cn1) as Hr.
    { apply list_elem_of_fmap. by exists (k0, r). }
    destruct (decide (r = next)) as [->|Hne].
    + assert (c0 = c) as -> by by eapply (inv_kids_disjoint0 c0 c).
      assert (cn1 = cn) as -> by congruence.
      destruct (Hreal Hs).
      by rewrite <-(same_child_same_key (c_children cn) k0 k next)
        by eauto.
    + rewrite Hvother by done. by eapply inv_placeholders0.
  - intros r Hr. destruct (inv_protected0 r Hr) as [Hrlt Hru].
    split; [|by apply Hu]. unfold σ'. cbn [dheap set_dheap].
    by rewrite length_insert.
Qed.

(** Backups leave the invariant alone. *)
Lemma graph_inv_frame X σ σ' :
  backup_frame σ σ' → graph_inv strict X σ → graph_inv strict X σ'.
Proof.
  intros Hframe [].
  pose proof Hframe as (_ & _ & Hnodes & _ & Hdheap & _ & _ & _).
  assert (∀ c cn', cheap σ' !! c = Some cn' →
            ∃ cn, cheap σ !! c = Some cn ∧ c_count cn' = c_count cn
                  ∧ c_children cn' = c_children cn) as Hold.
  { intros c cn' Hc.
    destruct (backup_frame_chance_inv _ _ _ _ Hframe Hc)
      as (cn & Hcn & _ & ? & ?). eauto. }
  assert (∀ r, visits σ' r = visits σ r) as Hv
    by (intros r; unfold visits; by rewrite Hdheap).
  assert (∀ r, unowned σ r → unowned σ' r) as Hu.
  { intros r Hr c cn' Hc. destruct (Hold _ _ Hc) as (cn & Hcn & _ & Hch).
    unfold kids. rewrite Hch. by apply (Hr c). }
  split.
  - intros c cn' r Hc Hr. destruct (Hold _ _ Hc) as (cn & Hcn & _ & Hch).
    unfold kids in Hr. rewrite Hch in Hr. rewrite Hdheap.
    by eapply inv_kids_valid0.
  - intros k r. rewrite Hnodes, Hdheap. apply inv_nodes_valid0.
  - intros c cn' Hc. destruct (Hold _ _ Hc) as (cn & Hcn & _ & Hch).
    unfold kids. rewrite Hch. by eapply inv_kids_nodup0.
  - intros c1 c2 cn1 cn2 r Hc1 Hc2 Hr1 Hr2.
    destruct (Hold _ _ Hc1) as (cn1' & Hc1' & _ & Hch1).
    destruct (Hold _ _ Hc2) as (cn2' & Hc2' & _ & Hch2).
    unfold kids in Hr1, Hr2. rewrite Hch1 in Hr1. rewrite Hch2 in Hr2.
    by eapply (inv_kids_disjoint0 c1 c2).
  - intros k r Hk. rewrite Hnodes in Hk. apply Hu.
    by eapply (inv_canonical0 k).
  - intros c cn' Hc. destruct (Hold _ _ Hc) as (cn & Hcn & Hcnt & Hch).
    unfold kids. rewrite Hch, Hcnt. fold (kids cn).
    rewrite (sum_visits_agree σ σ'); [exact (inv_sum0 _ _ Hcn)|auto].
  - intros Hs c cn' k r Hc Hkr Hk.
    destruct (Hold _ _ Hc) as (cn & Hcn & _ & Hch).
    rewrite Hch in Hkr. rewrite Hv. by eapply inv_placeholders0.
  - intros r Hr. destruct (inv_protected0 r Hr). rewrite Hdheap. auto.
Qed.

End invariant.

(** ** Rules for triples and steady computations *)

Lemma triple_ret {A} (P : Planner → Prop) (a : A) Q E :
  (∀ σ, P σ → Q a σ) → triple P (ret a) Q E.
Proof. intros HPQ σ HP. by apply HPQ. Qed.

Lemma triple_raise {A} (P : Planner → Prop) e (Q : A → Planner → Prop) E :
  (∀ σ, P σ → E σ) → triple P (raise e) Q E.
Proof. intros HPE σ HP. by apply HPE. Qed.

Lemma triple_bind {A B} P (m : M A) (k : A → M B) Q R E :
  triple P m Q E → (∀ a, triple (Q a) (k a) R E) → triple P (bind m k) R E.
Proof.
  intros Hm Hk σ HP. unfold bind. specialize (Hm σ HP).
  destruct (m σ) as [a σ'|e σ']; [by apply Hk|done].
Qed.

Lemma triple_conseq {A} (P P' : Planner → Prop) (m : M A)
    (Q Q' : A → Planner → Prop) (E E' : Planner → Prop) :
  (∀ σ, P' σ → P σ) → (∀ a σ, Q a σ → Q' a σ) → (∀ σ, E σ → E' σ) →
  triple P m Q E → triple P' m Q' E'.
Proof.
  intros HP HQ HE Hm σ HP'. specialize (Hm σ (HP σ HP')).
  destruct (m σ); auto.
Qed.

(** A computation that only reads. *)
Lemma triple_read {A} (P : Planner → Prop) (m : M A) Q E :
  (∀ σ, final_state (m σ) = σ) →
  (∀ σ a, P σ → Q a σ) → (∀ σ, P σ → E σ) →
  triple P m Q E.
Proof.
  intros Hread HQ HE σ HP. specialize (Hread σ).
  destruct (m σ) as [a σ'|e σ']; simpl in Hread; subst; auto.
Qed.

Lemma triple_foldM {A B} (J : B → Planner → Prop) (body : B → A → M B)
    (l : list A) (acc : B) E :
  (∀ acc x, triple (J acc) (body acc x) J E) →
  triple (J acc) (foldM body acc l) J E.
Proof.
  intros Hbody. revert acc. induction l as [|x l IH]; intros acc; simpl.
  - by apply triple_ret.
  - eapply triple_bind; [apply Hbody|]. intros acc'. apply IH.
Qed.

Lemma steady_bind {A B} (m : M A) (k : A → M B) :
  steady backup_frame m → (∀ a, steady backup_frame (k a)) →
  steady backup_frame (bind m k).
Proof.
  intros Hm Hk σ. unfold bind. specialize (Hm σ).
  destruct (m σ) as [a σ'|e σ']; simpl in *; [|done].
  eapply backup_frame_trans; [done|apply Hk].
Qed.

Lemma steady_read {A} (m : M A) :
  (∀ σ, final_state (m σ) = σ) → steady backup_frame m.
Proof. intros Hread σ. rewrite Hread. apply backup_frame_refl. Qed.

Lemma steady_mapM {A B} (g : A → M B) (l : list A) :
  (∀ x, steady backup_frame (g x)) → steady backup_frame (mapM g l).
Proof.
  intros Hg. induction l as [|x l IH]; simpl.
  - by apply steady_read.
  - apply steady_bind; [apply Hg|]. intros y.
    apply steady_bind; [apply IH|]. intros ys. by apply steady_read.
Qed.

Lemma get_decision_read r σ : final_state (get_decision r σ) = σ.
Proof. unfold get_decision. by destruct (_ !! _). Qed.

Lemma get_chance_read c σ : final_state (get_chance c σ) = σ.
Proof. unfold get_chance. by destruct (_ !! _). Qed.

Lemma config_key_read {A} key (v : option A) σ :
  final_state (config_key key v σ) = σ.
Proof. by destruct v. Qed.

Lemma get_field_read r f σ : final_state (get_field r f σ) = σ.
Proof.
  unfold get_field, bind, get_decision, get_nodes.
  destruct (dheap σ !! r); [|done]. destruct (nodes σ !! _) as [rep|]; [|done].
  by destruct (dheap σ !! rep).
Qed.

Lemma transition_threshold_read c σ :
  final_state (transition_threshold c σ) = σ.
Proof.
  unfold transition_threshold, bind, get_config, get_env_actions, get_chance.
  destruct (horizon (config σ)); [|done]. simpl.
  destruct (cheap σ !! c); [|done].
  by destruct (episodes (config σ)).
Qed.

Lemma steady_modify_chance c g :
  (∀ cn, same_links cn (g cn)) → steady backup_frame (modify_chance c g).
Proof.
  intros Hg σ. unfold modify_chance.
  destruct (cheap σ !! c) as [cn|] eqn:Hc; [|apply backup_frame_refl].
  split_and!; try done. cbn [final_state cheap set_cheap].
  apply Forall2_same_length_lookup_2; [by rewrite length_insert|].
  intros i cn1 cn2 Hl1 Hl2. destruct (decide (c = i)) as [<-|].
  - rewrite list_lookup_insert_eq in Hl2 by eauto using lookup_lt_Some.
    simplify_eq. apply Hg.
  - rewrite list_lookup_insert_ne in Hl2 by done. simplify_eq.
    apply same_links_refl.
Qed.

Lemma steady_chance_backup c f : steady backup_frame (c_backup c f).
Proof.
  unfold c_backup.
  apply steady_bind; [apply steady_read, get_chance_read|].
  intros cn. case_decide; [by apply steady_read|].
  apply steady_bind; [by apply steady_read|]. intros cfg.
  apply steady_bind; [apply steady_mapM|].
  { intros kr. apply steady_bind; [apply steady_read, get_decision_read|].
    intros d. by apply steady_read. }
  intros counts.
  apply steady_bind; [by apply steady_modify_chance|]. intros _.
  apply steady_bind;
    [apply steady_read, transition_threshold_read|].
  intros t.
  assert (∀ bound : GraphDecisionNode → num,
            steady backup_frame
              (mapM (λ kr, bind (get_decision kr.2) (λ d,
                             bind (get_field kr.2 f) (λ v,
                               ret (add (bound d) (mul (gamma cfg) v)))))
                    (c_children cn))) as Hvalues.
  { intros bound. apply steady_mapM. intros kr.
    apply steady_bind; [apply steady_read, get_decision_read|].
    intros d.
    apply steady_bind; [apply steady_read, get_field_read|].
    intros v. by apply steady_read. }
  assert (∀ p v, steady backup_frame (matmul p v)) as Hmatmul.
  { intros p v. unfold matmul. case_decide; by apply steady_read. }
  destruct f.
  - apply steady_bind; [apply Hvalues|]. intros values.
    apply steady_bind; [by apply steady_modify_chance|]. intros _.
    apply steady_bind; [apply Hmatmul|]. intros v.
    apply steady_bind; [by apply steady_modify_chance|]. intros _.
    by apply steady_read.
  - apply steady_bind; [apply Hvalues|]. intros values.
    apply steady_bind; [by apply steady_modify_chance|]. intros _.
    apply steady_bind; [apply Hmatmul|]. intros v.
    apply steady_bind; [by apply steady_modify_chance|]. intros _.
    by apply steady_read.
Qed.

Lemma steady_decision_backup r f : steady backup_frame (d_backup r f).
Proof.
  unfold d_backup.
  apply steady_bind; [apply steady_read, get_decision_read|].
  intros d. apply steady_mapM. intros ac.
  apply steady_bind; [apply steady_chance_backup|]. intros q.
  by apply steady_read.
Qed.

(** ** The graph invariant through the operations *)

Section preservation.
Context (strict : Prop) (Hstrict : strict → no_collision).
Implicit Types (X : dref → Prop).

Local Abbreviation Inv := (graph_inv strict).
Local Abbreviation Inv0 := (graph_inv strict (λ _, False)).

Lemma graph_inv_forget X σ : Inv X σ → Inv0 σ.
Proof. apply graph_inv_weaken. by intros r []. Qed.

Lemma triple_frame {A} X (m : M A) :
  steady backup_frame m → triple (Inv X) m (λ _, Inv X) Inv0.
Proof.
  intros Hm σ HI. specialize (Hm σ).
  destruct (m σ) as [a σ'|e σ']; simpl in Hm.
  - by eapply graph_inv_frame.
  - eapply graph_inv_forget. by eapply graph_inv_frame.
Qed.

(** Reads keep whatever held. *)
Lemma triple_look {A} (P : Planner → Prop) (m : M A) :
  (∀ σ, final_state (m σ) = σ) → (∀ σ, P σ → Inv0 σ) →
  triple P m (λ _, P) Inv0.
Proof. intros Hread HP. apply triple_read; auto. Qed.

Lemma triple_modify_decision X r g :
  (∀ d, d_count (g d) = d_count d) →
  triple (Inv X) (modify_decision r g) (λ _, Inv X) Inv0.
Proof.
  intros Hg σ HI. unfold modify_decision.
  destruct (dheap σ !! r) as [d|] eqn:Hr; [|by eapply graph_inv_forget].
  by eapply graph_inv_modify_decision.
Qed.

Lemma new_decision_node_run st (o : observation_t Obs) σ :
  ∃ d, d_count d = 0
       ∧ new_decision_node st o σ
         = Ok (length (dheap σ)) (set_dheap (dheap σ ++ [d]) σ).
Proof. eexists. split; last reflexivity. done. Qed.

Lemma brand_new_alloc X σ d :
  d_count d = 0 → Inv X σ →
  brand_new X (set_dheap (dheap σ ++ [d]) σ) (length (dheap σ)).
Proof.
  intros Hcount HI.
  split_and!; cbn [dheap cheap nodes set_dheap].
  - rewrite length_app. simpl. lia.
  - intros c cn Hc Hr.
    pose proof (inv_kids_valid _ _ _ HI c cn _ Hc Hr). lia.
  - unfold visits. cbn [dheap set_dheap].
    by rewrite list_lookup_middle.
  - intros HX. destruct (inv_protected _ _ _ HI _ HX). lia.
  - intros k Hk. pose proof (inv_nodes_valid _ _ _ HI _ _ Hk). lia.
Qed.

Lemma brand_new_keep X σ d r :
  brand_new X σ r → brand_new X (set_dheap (dheap σ ++ [d]) σ) r.
Proof.
  intros (Hlt & Hu & Hv & HX & Hn).
  split_and!; cbn [dheap cheap nodes set_dheap]; try done.
  - rewrite length_app. lia.
  - unfold visits in *. cbn [dheap set_dheap].
    by rewrite lookup_app_l.
Qed.

Lemma dict_set_values_in (k : string) (v : dref) l r :
  r ∈ (dict_set k v l).*2 → r = v ∨ r ∈ l.*2.
Proof.
  induction l as [|[k' v'] l IH]; simpl.
  - intros ->%list_elem_of_singleton. by left.
  - destruct (decide (k = k')); simpl.
    + intros [->|Hr]%elem_of_cons; [by left|]. right. by right.
    + intros [->|Hr]%elem_of_cons; [right; by left|].
      destruct (IH Hr); [by left|]. right. by right.
Qed.

Lemma dict_set_values_NoDup (k : string) (v : dref) l :
  NoDup (l.*2) → v ∉ l.*2 → NoDup ((dict_set k v l).*2).
Proof.
  induction l as [|[k' v'] l IH]; simpl; intros Hnodup Hv.
  - apply NoDup_singleton.
  - apply NoDup_cons in Hnodup as [Hv' Hnodup].
    apply not_elem_of_cons in Hv as [Hne Hv].
    destruct (decide (k = k')); simpl.
    + by apply NoDup_cons.
    + apply NoDup_cons. split; [|by apply IH].
      intros [->|Hin]%dict_set_values_in; done.
Qed.

Lemma triple_new_chance_node X parent :
  triple (Inv X) (new_chance_node parent) (λ _, Inv X) Inv0.
Proof.
  unfold new_chance_node.
  eapply triple_bind; [apply triple_look; [done|apply graph_inv_forget]|].
  intros cfg.
  set (J := λ (ch : list (string * dref)) σ,
         Inv X σ ∧ NoDup (ch.*2) ∧ ∀ r, r ∈ ch.*2 → brand_new X σ r).
  eapply (triple_bind _ _ _ J).
  - eapply triple_conseq; [| |intros σ Hσ; exact Hσ|apply (triple_foldM J)].
    + intros σ HI. split_and!; [done|apply NoDup_nil_2|].
      intros r Hr. by apply elem_of_nil in Hr.
    + done.
    + intros ch i σ (HI & Hnodup & Hnew).
      destruct (new_decision_node_run None Placeholder σ) as (d & Hd & Hrun).
      rewrite (bind_Ok _ _ _ _ _ Hrun). unfold ret.
      split_and!.
      * by apply graph_inv_alloc_decision.
      * apply dict_set_values_NoDup; [done|]. intros Hin.
        destruct (Hnew _ Hin) as [Hlt _]. lia.
      * intros r [->|Hr]%dict_set_values_in.
        -- by apply brand_new_alloc.
        -- by apply brand_new_keep, Hnew.
  - intros ch σ (HI & Hnodup & Hnew). unfold alloc_chance.
    apply graph_inv_alloc_chance; try done.
Qed.

Lemma triple_expand X r :
  triple (Inv X) (expand r) (λ _, Inv X) Inv0.
Proof.
  unfold expand. eapply triple_bind.
  - apply triple_look; [|apply graph_inv_forget].
    intros σ. unfold actions_list, bind, get_decision.
    destruct (dheap σ !! r) as [d|]; [|done].
    destruct (d_state d) as [s|]; [|done].
    by destruct (get_available_actions s).
  - intros actions. apply (triple_foldM (λ _, Inv X)). intros [] a.
    eapply triple_bind; [apply triple_new_chance_node|]. intros c.
    by apply triple_modify_decision.
Qed.

Lemma triple_random_argmax X (x : list num) :
  triple (Inv X) (call_random_argmax x) (λ _, Inv X) Inv0.
Proof.
  intros σ HI. unfold call_random_argmax.
  destruct (random_argmax x (np_random σ)) as [[i|] g].
  - by apply (graph_inv_ext _ _ σ).
  - eapply graph_inv_forget. by apply (graph_inv_ext _ _ σ).
Qed.

Lemma triple_sampling_rule X r :
  triple (Inv X) (sampling_rule r) (λ _, Inv X) Inv0.
Proof.
  unfold sampling_rule.
  eapply triple_bind;
    [apply triple_look; [apply get_decision_read|apply graph_inv_forget]|].
  intros d. eapply triple_bind.
  { case_decide; [apply triple_expand|].
    apply triple_ret. intros σ HI. exact HI. }
  intros [].
  eapply triple_bind; [apply triple_frame, steady_decision_backup|].
  intros qs.
  eapply triple_bind; [apply triple_random_argmax|]. intros i.
  unfold list_index. destruct (_ !! i).
  - by apply triple_ret.
  - apply triple_raise, graph_inv_forget.
Qed.

Lemma triple_selection_rule X r :
  triple (Inv X) (selection_rule r) (λ _, Inv X) Inv0.
Proof.
  unfold selection_rule.
  eapply triple_bind; [apply triple_frame, steady_decision_backup|].
  intros qs.
  eapply triple_bind; [apply triple_random_argmax|]. intros i.
  unfold list_index. destruct (_ !! i).
  - by apply triple_ret.
  - apply triple_raise, graph_inv_forget.
Qed.

Lemma triple_get_node X (o : Obs) st :
  triple (Inv X) (get_node o st) (λ r, Inv (λ r', X r' ∨ r' = r)) Inv0.
Proof.
  intros σ HI. unfold get_node, get_nodes, bind at 1.
  destruct (nodes σ !! str_obs o) as [r|] eqn:Hk.
  - apply graph_inv_protect; [|by eapply inv_canonical|done].
    by eapply inv_nodes_valid.
  - destruct (new_decision_node_run st (Observed o) σ) as (d & Hd & Hrun).
    rewrite (bind_Ok _ _ _ _ _ Hrun). unfold bind, ret.
    pose proof (brand_new_alloc X σ d Hd HI) as (Hlt & Hu & _).
    apply graph_inv_protect; [done|done|].
    apply graph_inv_set_nodes; [done|done|].
    by apply graph_inv_alloc_decision.
Qed.

(** Carrying the chance store along a computation that leaves it alone. *)
Lemma triple_keep_cheap {A} ch (P : Planner → Prop) (m : M A) Q E :
  (∀ σ, cheap (final_state (m σ)) = cheap σ) →
  triple P m Q E →
  triple (λ σ, P σ ∧ cheap σ = ch) m (λ a σ', Q a σ' ∧ cheap σ' = ch) E.
Proof.
  intros Hkeep Hm σ [HP Hch]. specialize (Hm σ HP). specialize (Hkeep σ).
  destruct (m σ) as [a σ'|e σ']; simpl in Hkeep; [|done].
  split; [done|congruence].
Qed.

Lemma modify_decision_cheap r g σ :
  cheap (final_state (modify_decision r g σ)) = cheap σ.
Proof. unfold modify_decision. by destruct (_ !! _). Qed.

Lemma get_node_cheap (o : Obs) st σ :
  cheap (final_state (get_node o st σ)) = cheap σ.
Proof.
  unfold get_node, get_nodes, bind at 1.
  by destruct (nodes σ !! str_obs o).
Qed.

Lemma dict_remove_elem (k0 : string) (l : list (string * dref)) k r :
  (k, r) ∈ dict_remove k0 l → (k, r) ∈ l.
Proof.
  induction l as [|[k' v'] l IH]; simpl; [done|].
  destruct (decide (k0 = k')).
  - intros Hin. by right.
  - intros [[= -> ->]|Hin]%elem_of_cons; [left|right; auto].
Qed.

Lemma triple_chance_get_child X c (o : Obs) :
  triple (Inv X) (c_get_child c o)
    (λ next σ', Inv X σ'
                ∧ ∃ cn, cheap σ' !! c = Some cn
                        ∧ (str_obs o, next) ∈ c_children cn)
    Inv0.
Proof.
  intros σ HI. unfold c_get_child.
  destruct (cheap σ !! c) as [cn|] eqn:Hc; last first.
  { unfold bind, get_chance. rewrite Hc. by eapply graph_inv_forget. }
  rewrite (bind_Ok _ _ _ _ _ (get_chance_Ok _ _ _ Hc)).
  set (key := str_obs o).
  destruct (dict_in key (c_children cn)) eqn:Hin.
  { unfold ret at 1, bind at 1.
    rewrite (bind_Ok _ _ _ _ _ (get_chance_Ok _ _ _ Hc)).
    apply dict_in_true in Hin as [child Hchild]. rewrite Hchild.
    split; [done|]. eauto using dict_get_elem. }
  apply dict_in_false in Hin.
  unfold bind at 1. unfold get_config, bind at 1.
  destruct (first_placeholder _ _) as [i|] eqn:Hfirst;
    [|by eapply graph_inv_forget].
  apply first_placeholder_Some in Hfirst as [Hi [child Hchild]].
  rewrite Hchild.
  rewrite (bind_Ok _ _ _ _ _ (modify_chance_Ok _ _ _ _ Hc)).
  set (cn1 := set_c_children _ cn).
  set (σ1 := set_cheap _ σ).
  assert (Inv X σ1) as HI1.
  { destruct (children_kept_rekey (S i) cn key i child) as (Hcnt & Hperm & _);
      [lia|done|done|].
    apply (graph_inv_modify_chance strict X σ c cn cn1); try done.
    intros k r. unfold cn1. cbn [c_children set_c_children].
    rewrite dict_set_fresh by by apply dict_get_remove_None.
    intros [Hold|Hnew%list_elem_of_singleton]%elem_of_app.
    - left. by eapply dict_remove_elem.
    - right. intros Hs [j Hj]. simplify_eq. by apply (Hstrict Hs o j). }
  assert (dict_get key (c_children cn1) = Some child) as Hkey
    by apply dict_get_set_eq.
  assert (triple (λ σ', Inv X σ' ∧ cheap σ' = cheap σ1)
            (bind (modify_decision child (set_d_observation (Observed o)))
               (λ _, bind (get_node o None) (λ node,
                  modify_decision node
                    (λ d, set_d_parents ({[c_parent cn]} ∪ d_parents d) d))))
            (λ _ σ', Inv X σ' ∧ cheap σ' = cheap σ1) Inv0) as Hrest.
  { eapply triple_bind.
    { apply triple_keep_cheap; [apply modify_decision_cheap|].
      by apply triple_modify_decision. }
    intros []. eapply triple_bind.
    { apply triple_keep_cheap; [apply get_node_cheap|].
      apply triple_get_node. }
    intros node.
    apply (triple_conseq (λ σ', Inv X σ' ∧ cheap σ' = cheap σ1) _ _
             (λ _ σ', Inv X σ' ∧ cheap σ' = cheap σ1) _ Inv0 Inv0).
    - intros σ' [HI' Hch]. split; [|exact Hch].
      eapply graph_inv_weaken; [|exact HI']. intros r HX. by left.
    - intros [] σ' Hσ'. exact Hσ'.
    - intros σ' Hσ'. exact Hσ'.
    - apply triple_keep_cheap; [apply modify_decision_cheap|].
      by apply triple_modify_decision. }
  specialize (Hrest σ1 (conj HI1 eq_refl)).
  destruct (bind _ _ σ1) as [[] σ2|e σ2]; [|done].
  destruct Hrest as [HI2 Hch2].
  assert (cheap σ2 !! c = Some cn1) as Hc2.
  { rewrite Hch2. unfold σ1. cbn [cheap set_cheap].
    apply list_lookup_insert_eq. eauto using lookup_lt_Some. }
  rewrite (bind_Ok _ _ _ _ _ (get_chance_Ok _ _ _ Hc2)). rewrite Hkey.
  split; [done|]. eauto using dict_get_elem.
Qed.

Lemma triple_log_error X msg :
  triple (Inv X) (log_error msg) (λ _, Inv X) Inv0.
Proof. intros σ HI. by apply (graph_inv_ext _ _ σ). Qed.

Lemma triple_compute_reward_ucb X r :
  triple (Inv X) (compute_reward_ucb r) (λ _, Inv X) Inv0.
Proof.
  unfold compute_reward_ucb.
  eapply triple_bind; [apply triple_look; [done|apply graph_inv_forget]|].
  intros cfg. case_decide; [|apply triple_log_error].
  eapply triple_bind;
    [apply triple_look; [apply config_key_read|apply graph_inv_forget]|].
  intros h.
  eapply triple_bind; [apply triple_look; [done|apply graph_inv_forget]|].
  intros actions.
  eapply triple_bind;
    [apply triple_look; [apply get_decision_read|apply graph_inv_forget]|].
  intros d.
  eapply triple_bind;
    [apply triple_look; [apply config_key_read|apply graph_inv_forget]|].
  intros t. destruct (eqb_num _ _).
  - case_decide; [apply triple_raise, graph_inv_forget|].
    eapply triple_bind; [by apply triple_modify_decision|]. intros [].
    by apply triple_modify_decision.
  - eapply triple_bind; [by apply triple_modify_decision|]. intros [].
    by apply triple_modify_decision.
Qed.

Lemma triple_decision_update_rest X r (x : num) :
  triple (Inv X)
    (bind (modify_decision r
             (λ d, set_cumulative_reward (add (cumulative_reward d) x) d))
          (λ _, compute_reward_ucb r))
    (λ _, Inv X) Inv0.
Proof.
  eapply triple_bind; [by apply triple_modify_decision|]. intros [].
  apply triple_compute_reward_ucb.
Qed.

(** The three updates at the end of a pass of the episode loop. *)
Lemma graph_inv_updates X σ dn c cn (o : Obs) next reward :
  Inv X σ → X dn →
  cheap σ !! c = Some cn → (str_obs o, next) ∈ c_children cn →
  Inv0 (final_state
          (bind (d_update dn None)
             (λ _, bind (c_update c)
                (λ _, d_update next (Some reward))) σ)).
Proof.
  intros HI HX Hc Hnext.
  destruct (inv_protected _ _ _ HI dn HX) as [Hdn Hu].
  destruct (lookup_lt_is_Some_2 _ _ Hdn) as [d Hd].
  unfold d_update at 1.
  rewrite (bind_Ok _ _ _ tt
             (set_dheap (<[dn := set_d_count (d_count d + 1) d]> (dheap σ)) σ)).
  2:{ by rewrite (bind_Ok _ _ _ _ _ (modify_decision_Ok _ _ _ _ Hd)). }
  set (σ4 := set_dheap _ σ).
  assert (Inv X σ4) as HI4 by by apply graph_inv_modify_unowned.
  assert (cheap σ4 !! c = Some cn) as Hc4 by done.
  unfold c_update.
  rewrite (bind_Ok _ _ _ _ _ (modify_chance_Ok _ _ _ _ Hc4)).
  set (σ5 := set_cheap _ σ4).
  assert (next ∈ kids cn) as Hkid.
  { apply list_elem_of_fmap. by exists (str_obs o, next). }
  pose proof (inv_kids_valid _ _ _ HI4 c cn next Hc4 Hkid) as Hvalid.
  destruct (lookup_lt_is_Some_2 _ _ Hvalid) as [dnext Hdnext].
  assert (dheap σ5 !! next = Some dnext) as Hdnext5 by done.
  unfold d_update.
  rewrite (bind_Ok _ _ _ _ _ (modify_decision_Ok _ _ _ _ Hdnext5)).
  set (σ6 := set_dheap _ σ5).
  assert (Inv X σ6) as HI6.
  { apply (graph_inv_visit strict X σ4 c cn (str_obs o) next dnext);
      try done;
      first [intros Hs [j Hj]; by apply (Hstrict Hs o j)|simpl; lia]. }
  pose proof (triple_decision_update_rest X next reward σ6 HI6) as Hrest.
  destruct (bind _ _ σ6) as [[] σ7|e σ7]; simpl; [|done].
  by eapply graph_inv_forget.
Qed.

Lemma triple_run_iteration st (o : Obs) queue :
  triple Inv0 (run_iteration st o queue) (λ _, Inv0) Inv0.
Proof.
  unfold run_iteration.
  eapply triple_bind; [apply triple_get_node|]. intros dn.
  eapply triple_bind; [apply triple_sampling_rule|]. intros a.
  eapply triple_bind.
  { apply triple_look; [|apply graph_inv_forget].
    intros σ. unfold d_get_child, bind, get_decision.
    destruct (dheap σ !! dn) as [d|]; [|done].
    by destruct (dict_get a (d_children d)). }
  intros c. destruct (env_step st a) as [[[st' o'] reward] done_].
  intros σ HI.
  pose proof (triple_chance_get_child _ c o' σ HI) as Hchild.
  unfold bind at 1.
  destruct (c_get_child c o' σ) as [next σ3|e σ3]; [|done].
  destruct Hchild as (HI3 & cn & Hc & Hnext).
  pose proof (graph_inv_updates _ σ3 dn c cn o' next reward HI3
                (or_intror eq_refl) Hc Hnext) as Hupdates.
  unfold bind at 1 2 3.
  unfold bind in Hupdates at 1 2.
  destruct (d_update dn None σ3) as [[] σ4|e σ4]; [|done].
  destruct (c_update c σ4) as [[] σ5|e σ5]; [|done].
  destruct (d_update next (Some reward) σ5) as [[] σ6|e σ6]; done.
Qed.

Lemma triple_run_loop h st (o : Obs) queue last :
  triple Inv0 (run_loop h st o queue last) (λ _, Inv0) Inv0.
Proof.
  revert st o queue last. induction h as [|h IH]; intros st o queue last.
  - by apply triple_ret.
  - simpl. eapply triple_bind; [apply triple_run_iteration|].
    intros [[[st' o'] queue'] dn]. apply IH.
Qed.

Lemma triple_reset : triple Inv0 reset (λ _, Inv0) Inv0.
Proof.
  intros σ HI. unfold reset.
  destruct (new_decision_node_run None NoObservation σ) as (d & Hd & Hrun).
  rewrite (bind_Ok _ _ _ _ _ Hrun). unfold bind at 1 2, get_config.
  set (σ1 := set_root _ _).
  assert (Inv0 σ1) as HI1.
  { apply (graph_inv_ext _ _ (set_dheap (dheap σ ++ [d]) σ)); try done.
    by apply graph_inv_alloc_decision. }
  destruct (horizon (config σ1)); [done|].
  unfold bind at 1, get_env_actions. unfold bind, config_key.
  destruct (budget (config σ1)); [|done]. unfold ret.
  destruct (allocation _ _) as [e h].
  by apply (graph_inv_ext _ _ σ1).
Qed.

Lemma triple_plan_root st (o : Obs) :
  triple Inv0 (plan_root st o) (λ _, Inv0) Inv0.
Proof.
  unfold plan_root. eapply triple_bind; [apply triple_get_node|].
  intros r σ HI. apply (graph_inv_ext _ _ σ); try done.
  by eapply graph_inv_forget.
Qed.

Lemma triple_pvi_iteration node rest :
  triple Inv0 (pvi_iteration node rest) (λ _, Inv0) Inv0.
Proof.
  unfold pvi_iteration. eapply triple_bind.
  { apply (triple_foldM (λ _, Inv0)). intros delta f. unfold pvi_field.
    eapply triple_bind; [apply triple_frame, steady_decision_backup|].
    intros qs. eapply triple_bind.
    { apply triple_look; [|done]. intros σ. unfold np_amax.
      by destruct (qs.*2). }
    intros v.
    eapply triple_bind; [apply triple_look; [apply get_decision_read|done]|].
    intros d.
    eapply triple_bind; [apply triple_modify_decision; by destruct f|].
    intros []. by apply triple_ret. }
  intros delta.
  eapply triple_bind; [apply triple_look; [done|done]|]. intros cfg.
  destruct (gtb _ _); [|by apply triple_ret].
  eapply triple_bind; [apply triple_look; [apply get_decision_read|done]|].
  intros d. by apply triple_ret.
Qed.

Lemma graph_inv_pvi_loop fuel queue σ res :
  Inv0 σ → pvi_loop fuel queue σ = Some res → Inv0 (final_state res).
Proof.
  revert queue σ. induction fuel as [|fuel IH]; intros [|node rest] σ HI;
    simpl.
  - by intros [= <-].
  - done.
  - by intros [= <-].
  - pose proof (triple_pvi_iteration node rest σ HI) as Hpass.
    destruct (pvi_iteration node rest σ) as [queue' σ1|e σ1].
    + by apply IH.
    + by intros [= <-].
Qed.

Lemma graph_inv_run fuel st (o : Obs) σ res :
  Inv0 σ → run fuel st o σ = Some res → Inv0 (final_state res).
Proof.
  intros HI. unfold run.
  destruct (randint _ _) as [seed g].
  unfold bind at 1, get_config.
  assert (Inv0 (set_np_random g σ)) as HI1 by by apply (graph_inv_ext _ _ σ).
  unfold bind at 1.
  destruct (horizon (config (set_np_random g σ))) as [h|]; simpl config_key;
    [|by intros [= <-]].
  unfold ret at 1.
  pose proof (triple_run_loop h (env_seed st seed) o [] None _ HI1) as Hloop.
  destruct (run_loop _ _ _ _ _ _) as [[queue [dn|]] σ1|e σ1].
  - by apply graph_inv_pvi_loop.
  - by intros [= <-].
  - by intros [= <-].
Qed.

End preservation.

(** ** Visits *)

Lemma counts_kept_trans σ1 σ2 σ3 :
  counts_kept σ1 σ2 → counts_kept σ2 σ3 → counts_kept σ1 σ3.
Proof.
  intros [Hc1 Hv1] [Hc2 Hv2]. split; [congruence|].
  intros r. by rewrite Hv2.
Qed.

Lemma counts_kept_bind {A B} (m : M A) (k : A → M B) :
  steady counts_kept m → (∀ a, steady counts_kept (k a)) →
  steady counts_kept (bind m k).
Proof.
  intros Hm Hk σ. unfold bind. specialize (Hm σ).
  destruct (m σ) as [a σ'|e σ']; simpl in *; [|done].
  eapply counts_kept_trans; [done|apply Hk].
Qed.

Lemma counts_kept_read {A} (m : M A) :
  (∀ σ, final_state (m σ) = σ) → steady counts_kept m.
Proof. intros Hread σ. by rewrite Hread. Qed.

Lemma counts_kept_modify_decision r g :
  (∀ d, d_count (g d) = d_count d) →
  steady counts_kept (modify_decision r g).
Proof.
  intros Hg σ. unfold modify_decision.
  destruct (dheap σ !! r) as [d|] eqn:Hr; [|done].
  split; [done|]. intros r'. by eapply visits_insert_same_count.
Qed.

Lemma counts_kept_compute_reward_ucb r :
  steady counts_kept (compute_reward_ucb r).
Proof.
  unfold compute_reward_ucb.
  apply counts_kept_bind; [by apply counts_kept_read|]. intros cfg.
  case_decide; [|by intros σ].
  apply counts_kept_bind; [apply counts_kept_read, config_key_read|].
  intros h. apply counts_kept_bind; [by apply counts_kept_read|].
  intros actions.
  apply counts_kept_bind; [apply counts_kept_read, get_decision_read|].
  intros d.
  apply counts_kept_bind; [apply counts_kept_read, config_key_read|].
  intros t. destruct (eqb_num _ _).
  - case_decide; [by apply counts_kept_read|].
    apply counts_kept_bind; [by apply counts_kept_modify_decision|].
    intros _. by apply counts_kept_modify_decision.
  - apply counts_kept_bind; [by apply counts_kept_modify_decision|].
    intros _. by apply counts_kept_modify_decision.
Qed.

Lemma visit_chance_counts strict X σ c cn k next (reward : num) :
  graph_inv strict X σ →
  cheap σ !! c = Some cn → (k, next) ∈ c_children cn →
  let σ' := final_state (visit_chance c next reward σ) in
  (∃ cn', cheap σ' !! c = Some cn' ∧ c_count cn' = c_count cn + 1
          ∧ c_children cn' = c_children cn)
  ∧ visits σ' next = visits σ next + 1
  ∧ (∀ r, r ≠ next → visits σ' r = visits σ r)
  ∧ (∀ c0, c0 ≠ c → cheap σ' !! c0 = cheap σ !! c0).
Proof.
  intros HI Hc Hnext. unfold visit_chance, c_update.
  rewrite (bind_Ok _ _ _ _ _ (modify_chance_Ok _ _ _ _ Hc)).
  set (σ5 := set_cheap _ σ).
  assert (next ∈ kids cn) as Hkid.
  { apply list_elem_of_fmap. by exists (k, next). }
  pose proof (inv_kids_valid _ _ _ HI c cn next Hc Hkid) as Hvalid.
  destruct (lookup_lt_is_Some_2 _ _ Hvalid) as [dnext Hdnext].
  assert (dheap σ5 !! next = Some dnext) as Hdnext5 by done.
  unfold d_update.
  rewrite (bind_Ok _ _ _ _ _ (modify_decision_Ok _ _ _ _ Hdnext5)).
  set (σ6 := set_dheap _ σ5).
  assert (steady counts_kept
            (bind (modify_decision next
                     (λ d, set_cumulative_reward
                             (add (cumulative_reward d) reward) d))
                  (λ _, compute_reward_ucb next))) as Hrest.
  { apply counts_kept_bind; [by apply counts_kept_modify_decision|].
    intros _. apply counts_kept_compute_reward_ucb. }
  destruct (Hrest σ6) as [Hcheap Hvisits].
  cbv zeta. set (σ7 := final_state _) in *.
  assert (c < length (cheap σ)) as Hlt by eauto using lookup_lt_Some.
  assert (∀ r, visits σ5 r = visits σ r) as Hv5 by done.
  split_and!.
  - rewrite Hcheap. unfold σ6, σ5. cbn [cheap set_dheap set_cheap].
    eexists. split; [by apply list_lookup_insert_eq|done].
  - rewrite Hvisits. unfold visits at 1. unfold σ6 at 1. cbn [dheap set_dheap].
    rewrite list_lookup_insert_eq by done. simpl.
    rewrite <-Hv5. unfold visits. by rewrite Hdnext5.
  - intros r Hr. rewrite Hvisits, <-Hv5. unfold visits, σ6.
    cbn [dheap set_dheap]. by rewrite list_lookup_insert_ne.
  - intros c0 Hc0. rewrite Hcheap. unfold σ6, σ5.
    cbn [cheap set_dheap set_cheap]. by rewrite list_lookup_insert_ne.
Qed.

(** ** Reachable planners *)

Lemma graph_inv_new strict (cfg : @Config num) actions (g : Rng) :
  graph_inv strict (λ _, False) (new_planner cfg actions g : Planner).
Proof.
  split; cbn [dheap cheap nodes new_planner]; done.
Qed.

Lemma reachable_graph_inv strict σ :
  (strict → no_collision) → reachable σ → graph_inv strict (λ _, False) σ.
Proof.
  intros Hstrict. induction 1 as
    [cfg actions g|σ _ IH|σ st o _ IH|σ st o queue _ IH
    |σ fuel self queue res _ IH Hrun|σ fuel st o res _ IH Hrun
    |σ r _ IH|σ r _ IH].
  - apply graph_inv_new.
  - pose proof (triple_reset strict σ IH) as Hreset.
    by destruct (reset σ).
  - pose proof (triple_plan_root strict st o σ IH) as Hroot.
    by destruct (plan_root st o σ).
  - pose proof (triple_run_iteration strict Hstrict st o queue σ IH) as Hpass.
    by destruct (run_iteration st o queue σ).
  - by eapply graph_inv_pvi_loop.
  - by eapply graph_inv_run.
  - pose proof (triple_sampling_rule strict _ r σ IH) as Hrule.
    by destruct (sampling_rule r σ).
  - pose proof (triple_selection_rule strict _ r σ IH) as Hrule.
    by destruct (selection_rule r σ).
Qed.


Lemma backup_ready_check_sound σ :
  backup_ready_check σ = true → backup_ready σ.
Proof.
  unfold backup_ready_check. rewrite !andb_true_iff.
  intros [[[[Hh He] Hd] Hc] Hn].
  apply bool_decide_eq_true in Hh, He, Hn.
  rewrite forallb_forall in Hd. rewrite forallb_forall in Hc.
  split_and!; [done|done|..].
  - intros r d a c Hr Hac.
    apply list_elem_of_lookup_2, list_elem_of_In in Hr.
    specialize (Hd d Hr). rewrite forallb_forall in Hd.
    apply list_elem_of_In in Hac. specialize (Hd _ Hac).
    apply bool_decide_eq_true in Hd. by apply lookup_lt_is_Some_2.
  - intros c cn k r Hcn Hkr.
    apply list_elem_of_lookup_2, list_elem_of_In in Hcn.
    specialize (Hc cn Hcn). rewrite forallb_forall in Hc.
    apply list_elem_of_In in Hkr. specialize (Hc _ Hkr).
    apply bool_decide_eq_true in Hc. by apply lookup_lt_is_Some_2.
  - intros k r Hk. apply lookup_lt_is_Some_2. by apply (Hn k r).
Qed.

(** * Further properties of the program *)

(** ** Reward bounds and updates *)

Lemma reward_bounds_run σ r d h t :
  dheap σ !! r = Some d →
  ub_type (upper_bound (config σ)) = kl_type →
  horizon (config σ) = Some h →
  episodes (config σ) = Some t →
  let threshold := kl_reward_threshold σ h (d_count d) t in
  compute_reward_ucb r σ
  = if eqb_num threshold zero then
      if decide (d_count d = 0) then Raise ZeroDivisionError σ
      else Ok tt (store_decision r
                    (set_mu_lcb (empirical_mean d)
                       (set_mu_ucb (empirical_mean d) d)) σ)
    else Ok tt (store_decision r
                  (set_mu_lcb (kl_reward_bound d threshold true)
                     (set_mu_ucb (kl_reward_bound d threshold false) d)) σ).
Proof.
  intros Hr Htype Hh Ht threshold.
  unfold compute_reward_ucb, get_config, get_env_actions, bind at 1.
  rewrite decide_True by done.
  rewrite Hh, Ht. unfold config_key, ret, bind at 1 2; simpl.
  rewrite (bind_Ok _ _ _ _ _ (get_decision_Ok _ _ _ Hr)).
  unfold bind at 1; simpl.
  fold (kl_reward_threshold σ h (d_count d) t). fold threshold.
  destruct (eqb_num threshold zero).
  - case_decide; [done|]. by apply modify_decision_twice.
  - by apply modify_decision_twice.
Qed.

Lemma update_counts_first σ r d (x : num) :
  dheap σ !! r = Some d →
  d_update r (Some x) σ
  = compute_reward_ucb r (store_decision r (counted x d) σ).
Proof.
  intros Hr. unfold d_update.
  rewrite (bind_Ok _ _ _ _ _ (modify_decision_Ok _ _ _ _ Hr)).
  unfold bind at 1, modify_decision at 1; simpl.
  rewrite list_lookup_insert_eq by eauto using lookup_lt_Some.
  by rewrite list_insert_insert_eq.
Qed.

Lemma store_decision_twice σ r d1 d2 :
  store_decision r d2 (store_decision r d1 σ) = store_decision r d2 σ.
Proof. unfold store_decision; simpl. by rewrite list_insert_insert_eq. Qed.


(** X2. [update(reward)] is not atomic: under the Kullback-Leibler scheme
    with no "horizon" in the configuration it raises [KeyError("horizon")],
    and with a horizon but no "episodes" it raises [KeyError("episodes")];
    in both cases the visit has already been counted and the reward
    already added, while [mu_ucb] and [mu_lcb] keep their old values. *)
Theorem update_missing_key σ r d (x : num) :
  dheap σ !! r = Some d →
  ub_type (upper_bound (config σ)) = kl_type →
  (horizon (config σ) = None →
   d_update r (Some x) σ
   = Raise (KeyError "horizon") (store_decision r (counted x d) σ))
  ∧ (is_Some (horizon (config σ)) → episodes (config σ) = None →
     d_update r (Some x) σ
     = Raise (KeyError "episodes") (store_decision r (counted x d) σ))
  ∧ mu_ucb (counted x d) = mu_ucb d ∧ mu_lcb (counted x d) = mu_lcb d
  ∧ d_count (counted x d) = d_count d + 1
  ∧ cumulative_reward (counted x d) = add (cumulative_reward d) x.
Proof.
  intros Hr Htype.
  assert (dheap (store_decision r (counted x d) σ) !! r
          = Some (counted x d)) as Hr'.
  { simpl. apply list_lookup_insert_eq. eauto using lookup_lt_Some. }
  split_and!; try done.
  - intros Hh. rewrite (update_counts_first σ r d x Hr).
    unfold compute_reward_ucb, get_config, bind at 1.
    change (config (store_decision r (counted x d) σ)) with (config σ).
    rewrite decide_True by done. by rewrite Hh.
  - intros [h Hh] Ht. rewrite (update_counts_first σ r d x Hr).
    unfold compute_reward_ucb, get_config, get_env_actions, bind at 1.
    change (config (store_decision r (counted x d) σ)) with (config σ).
    rewrite decide_True by done. rewrite Hh, Ht.
    unfold config_key, ret, bind at 1 2.
    by rewrite (bind_Ok _ _ _ _ _ (get_decision_Ok _ _ _ Hr')).
Qed.

(** X3. With the Kullback-Leibler scheme and both "horizon" and "episodes"
    configured, [update(reward)] on an existing node always returns
    normally, also on a node that was never visited: the threshold is
    evaluated with the count after the increment, so the division by the
    count never divides by zero.  When that threshold is 0 both bounds
    become (cumulative_reward + reward) / (count + 1); otherwise they are
    the two answers of [kl_upper_bound] for the updated statistics. *)
Theorem update_never_divides_by_zero σ r d (x : num) h t :
  dheap σ !! r = Some d →
  ub_type (upper_bound (config σ)) = kl_type →
  horizon (config σ) = Some h →
  episodes (config σ) = Some t →
  let threshold := kl_reward_threshold σ h (d_count d + 1) t in
  let mean := div (add (cumulative_reward d) x) (of_int (d_count d + 1)) in
  ∃ d', d_update r (Some x) σ = Ok tt (store_decision r d' σ)
        ∧ d_count d' = d_count d + 1
        ∧ cumulative_reward d' = add (cumulative_reward d) x
        ∧ (eqb_num threshold zero = true →
           mu_ucb d' = mean ∧ mu_lcb d' = mean)
        ∧ (eqb_num threshold zero = false →
           mu_ucb d' = kl_reward_bound (counted x d) threshold false
           ∧ mu_lcb d' = kl_reward_bound (counted x d) threshold true).
Proof.
  intros Hr Htype Hh Ht threshold mean.
  assert (dheap (store_decision r (counted x d) σ) !! r
          = Some (counted x d)) as Hr'.
  { simpl. apply list_lookup_insert_eq. eauto using lookup_lt_Some. }
  rewrite (update_counts_first σ r d x Hr).
  rewrite (reward_bounds_run _ r (counted x d) h t Hr' Htype Hh Ht).
  change (kl_reward_threshold (store_decision r (counted x d) σ) h
            (d_count (counted x d)) t) with threshold.
  destruct (eqb_num threshold zero) eqn:Hzero.
  - rewrite decide_False by (simpl; lia).
    eexists. split; [by rewrite store_decision_twice|]. by split_and!.
  - eexists. split; [by rewrite store_decision_twice|]. by split_and!.
Qed.

(** ** Expansion *)

(** X4. A decision node whose state is not set cannot be expanded:
    [actions_list] and [expand] raise the exception "The state should be
    set before expanding a node", and so does the sampling rule when the
    node has no children; the planner is left exactly as it was. *)
Theorem expand_needs_state σ r d :
  dheap σ !! r = Some d →
  d_state d = None →
  actions_list r σ = Raise (Exception stateless_message) σ
  ∧ expand r σ = Raise (Exception stateless_message) σ
  ∧ (d_children d = [] →
     sampling_rule r σ = Raise (Exception stateless_message) σ).
Proof.
  intros Hr Hstate.
  assert (actions_list r σ = Raise (Exception stateless_message) σ) as Hlist.
  { unfold actions_list.
    rewrite (bind_Ok _ _ _ _ _ (get_decision_Ok _ _ _ Hr)).
    by rewrite Hstate. }
  assert (expand r σ = Raise (Exception stateless_message) σ) as Hexpand.
  { unfold expand, bind. by rewrite Hlist. }
  split_and!; [done|done|].
  intros Hchildren. unfold sampling_rule.
  rewrite (bind_Ok _ _ _ _ _ (get_decision_Ok _ _ _ Hr)).
  rewrite decide_True by done. unfold bind at 1. by rewrite Hexpand.
Qed.

(** ** Backups *)

(** X5. A backup only writes estimates: whether [backup(field)] of a
    chance node or of a decision node returns or raises midway, the
    configuration, the node table, the root, every decision node, the
    random generator and the log are as before, and every chance node keeps
    its parent, its visit count and its children; only [p_hat], [p_plus],
    [p_minus] and the value bounds of chance nodes can differ. *)
Theorem backup_only_writes_estimates σ r c f :
  backup_frame σ (final_state (c_backup c f σ))
  ∧ backup_frame σ (final_state (d_backup r f σ)).
Proof. split; [apply steady_chance_backup|apply steady_decision_backup]. Qed.

(** X6. The backup of a visited chance node is not atomic: when the
    configuration lacks "horizon" (or has it but lacks "episodes"), the
    call raises the [KeyError] of that key from [transition_threshold]
    after [p_hat] has already been overwritten with the children's counts
    divided by the node's count; nothing else has changed. *)
Theorem chance_backup_missing_key σ c cn f counts :
  cheap σ !! c = Some cn →
  c_count cn ≠ 0 →
  children_counts σ cn counts →
  (horizon (config σ) = None →
   c_backup c f σ = Raise (KeyError "horizon") (store_p_hat c cn counts σ))
  ∧ (is_Some (horizon (config σ)) → episodes (config σ) = None →
     c_backup c f σ = Raise (KeyError "episodes") (store_p_hat c cn counts σ)).
Proof.
  intros Hc Hcount Hcounts.
  assert (c < length (cheap σ)) as Hlt by eauto using lookup_lt_Some.
  assert (cheap (store_p_hat c cn counts σ) !! c
          = Some (set_p_hat (empirical_distribution cn counts) cn)) as Hc1.
  { simpl. by apply list_lookup_insert_eq. }
  assert (∀ e, transition_threshold c (store_p_hat c cn counts σ)
               = Raise e (store_p_hat c cn counts σ) →
               c_backup c f σ = Raise e (store_p_hat c cn counts σ)) as Hstep.
  { intros e He. unfold c_backup.
    rewrite (bind_Ok _ _ _ _ _ (get_chance_Ok _ _ _ Hc)).
    rewrite decide_False by done.
    unfold get_config, bind at 1.
    erewrite bind_Ok; last first.
    { apply mapM_reads. eapply Forall2_impl; [exact Hcounts|].
      intros kr n (d & Hd & ->); simpl.
      by rewrite (bind_Ok _ _ _ _ _ (get_decision_Ok _ _ _ Hd)). }
    fold (empirical_distribution cn counts).
    rewrite (bind_Ok _ _ _ _ _ (modify_chance_Ok _ _ _ _ Hc)).
    fold (store_p_hat c cn counts σ).
    unfold bind at 1. by rewrite He. }
  split.
  - intros Hh. apply Hstep.
    unfold transition_threshold, get_config, bind at 1.
    change (config (store_p_hat c cn counts σ)) with (config σ).
    by rewrite Hh.
  - intros [h Hh] Ht. apply Hstep.
    unfold transition_threshold, get_config, get_env_actions, bind at 1.
    change (config (store_p_hat c cn counts σ)) with (config σ).
    rewrite Hh, Ht. unfold config_key, ret, bind at 1 2.
    by rewrite (bind_Ok _ _ _ _ _ (get_chance_Ok _ _ _ Hc1)).
Qed.

(** ** Value iteration and runs on degenerate inputs *)

(** X7. Partial value iteration cannot process a decision node without
    children: the maximum over the empty list of action values raises
    [ValueError] in the first pass for that node, before anything is
    written, whatever the rest of the queue holds; this is also what the
    default queue (the node itself) gives. *)
Theorem value_iteration_needs_children σ fuel node rest d :
  dheap σ !! node = Some d →
  d_children d = [] →
  pvi_iteration node rest σ = Raise (ValueError empty_maximum_message) σ
  ∧ pvi_loop (S fuel) (node :: rest) σ
    = Some (Raise (ValueError empty_maximum_message) σ)
  ∧ partial_value_iteration (S fuel) node None σ
    = Some (Raise (ValueError empty_maximum_message) σ).
Proof.
  intros Hnode Hchildren.
  assert (pvi_iteration node rest σ
          = Raise (ValueError empty_maximum_message) σ) as Hpass.
  { unfold pvi_iteration. cbn [foldM]. unfold pvi_field at 1, d_backup at 1.
    unfold bind at 1 2 3.
    rewrite (bind_Ok _ _ _ _ _ (get_decision_Ok _ _ _ Hnode)).
    by rewrite Hchildren. }
  assert (pvi_iteration node [] σ
          = Raise (ValueError empty_maximum_message) σ) as Hself.
  { unfold pvi_iteration. cbn [foldM]. unfold pvi_field at 1, d_backup at 1.
    unfold bind at 1 2 3.
    rewrite (bind_Ok _ _ _ _ _ (get_decision_Ok _ _ _ Hnode)).
    by rewrite Hchildren. }
  split_and!; [done| |].
  - cbn [pvi_loop]. by rewrite Hpass.
  - unfold partial_value_iteration. cbn [pvi_loop]. by rewrite Hself.
Qed.


(** ** Reset *)

(** X9. [reset] never clears the graph: however it ends, the node table and
    every existing decision and chance node are kept, and the root is a
    new decision node without state, observation, children or visits, put
    behind the store.  With a horizon configured it returns with the
    configuration untouched; with neither "horizon" nor "budget" it
    raises [KeyError("budget")], the root already replaced. *)
Theorem reset_keeps_graph σ :
  let σ' := final_state (reset σ) in
  root σ' = length (dheap σ)
  ∧ dheap σ' = dheap σ ++ [blank_node (config σ) None NoObservation]
  ∧ cheap σ' = cheap σ
  ∧ nodes σ' = nodes σ
  ∧ (is_Some (horizon (config σ)) →
     reset σ = Ok tt σ' ∧ config σ' = config σ)
  ∧ (horizon (config σ) = None → budget (config σ) = None →
     reset σ = Raise (KeyError "budget") σ' ∧ config σ' = config σ).
Proof.
  intros σ'. subst σ'.
  unfold reset, new_decision_node, get_config, alloc_decision,
    get_env_actions, bind, ret; simpl.
  destruct (horizon (config σ)) as [h|] eqn:Hh; simpl.
  { by split_and!. }
  destruct (budget (config σ)) as [b|] eqn:Hb; simpl.
  - destruct (allocation _ _) as [e h]. by split_and!.
  - by split_and!.
Qed.

(** ** New chance nodes *)

Lemma placeholder_key_inj i j : placeholder_key i = placeholder_key j → i = j.
Proof.
  unfold placeholder_key. intros Heq.
  apply String.app_inj in Heq. by apply pretty_nat_inj in Heq.
Qed.

Lemma dict_get_app {K V} `{EqDecision K} (k : K) (l l' : list (K * V)) :
  dict_get k (l ++ l')
  = match dict_get k l with Some v => Some v | None => dict_get k l' end.
Proof.
  induction l as [|[k' v'] l IH]; simpl; [done|].
  by destruct (decide (k = k')).
Qed.

Lemma dict_get_set_ne {K V} `{EqDecision K} (k k0 : K) (v : V) l :
  k ≠ k0 → dict_get k (dict_set k0 v l) = dict_get k l.
Proof.
  intros Hne. induction l as [|[k' v'] l IH]; simpl.
  - by rewrite decide_False.
  - destruct (decide (k0 = k')) as [->|]; simpl.
    + by rewrite !decide_False.
    + by rewrite IH.
Qed.

Lemma dict_get_placeholders_from (k first n i : nat) :
  dict_get (placeholder_key i)
    (zip (placeholder_key <$> seq k n) (seq first n))
  = if decide (k ≤ i < k + n) then Some (first + (i - k)) else None.
Proof.
  revert k first. induction n as [|n IH]; intros k first; simpl.
  - rewrite decide_False by lia. done.
  - destruct (decide (placeholder_key i = placeholder_key k)) as [Heq|Hne].
    + apply placeholder_key_inj in Heq as ->.
      rewrite decide_True by lia. f_equal. lia.
    + assert (i ≠ k) by (by intros ->).
      rewrite IH. destruct (decide (S k ≤ i < S k + n)).
      * rewrite decide_True by lia. f_equal. lia.
      * rewrite decide_False by lia. done.
Qed.

Lemma dict_get_placeholder_children (first n i : nat) :
  dict_get (placeholder_key i) (placeholder_children first n)
  = if decide (i < n) then Some (first + i) else None.
Proof.
  unfold placeholder_children. rewrite dict_get_placeholders_from.
  destruct (decide (i < n)).
  - rewrite decide_True by lia. f_equal. lia.
  - rewrite decide_False by lia. done.
Qed.

Lemma set_dheap_same σ : set_dheap (dheap σ) σ = σ.
Proof. by destruct σ. Qed.

Lemma placeholder_loop (n : nat) :
  ∀ (k : nat) σ (acc : list (string * dref)),
    (∀ j, k ≤ j → dict_get (placeholder_key j) acc = None) →
    foldM (λ children i,
             bind (new_decision_node None Placeholder)
               (λ child, ret (dict_set (placeholder_key i) child children)))
          acc (seq k n) σ
    = Ok (acc ++ zip (placeholder_key <$> seq k n) (seq (length (dheap σ)) n))
        (set_dheap (dheap σ ++ replicate n (blank_node (config σ) None Placeholder))
           σ).
Proof.
  induction n as [|n IH]; intros k σ acc Hfresh; simpl.
  - rewrite !app_nil_r. by rewrite set_dheap_same.
  - unfold bind at 1 2. unfold new_decision_node, get_config, bind at 1.
    unfold alloc_decision, ret at 1.
    rewrite dict_set_fresh by (apply Hfresh; lia).
    fold (blank_node (config σ) None Placeholder).
    rewrite IH.
    + cbn [dheap set_dheap config]. rewrite length_app; simpl.
      rewrite <-!app_assoc; simpl.
      by replace (length (dheap σ) + 1) with (S (length (dheap σ))) by lia.
    + intros j Hj. rewrite dict_get_app, Hfresh by lia. simpl.
      rewrite decide_False; [done|].
      intros Heq%placeholder_key_inj. lia.
Qed.

Lemma new_chance_node_run parent σ :
  new_chance_node parent σ
  = Ok (length (cheap σ)) (with_chance_node parent σ).
Proof.
  unfold new_chance_node, get_config, bind at 1.
  rewrite (bind_Ok _ _ _ _ _ (placeholder_loop _ 0 σ [] (λ _ _, eq_refl))).
  done.
Qed.

(** X10. Creating a chance node always succeeds and creates exactly
    [max_next_states_count] decision nodes for it, one after the other:
    the chance node has count 0, no distributions and the given parent, and
    its children are these new nodes under the keys "placeholder_0",
    "placeholder_1", ... in order, one key per child, none twice; each
    child has no state, the observation "placeholder", count 0 and the
    reward bounds 1 and 0.  Nothing that existed is changed. *)
Theorem new_chance_node_placeholders σ parent :
  let n := max_next_states_count (config σ) in
  let first := length (dheap σ) in
  new_chance_node parent σ
  = Ok (length (cheap σ)) (with_chance_node parent σ)
  ∧ length (placeholder_children first n) = n
  ∧ (∀ i, i < n →
          dict_get (placeholder_key i) (placeholder_children first n)
          = Some (first + i)
          ∧ dheap (with_chance_node parent σ) !! (first + i)
            = Some (blank_node (config σ) None Placeholder))
  ∧ (∀ i, n ≤ i →
          dict_get (placeholder_key i) (placeholder_children first n) = None)
  ∧ NoDup ((placeholder_children first n).*1)
  ∧ (∀ r, r < first → dheap (with_chance_node parent σ) !! r = dheap σ !! r)
  ∧ (∀ c, c < length (cheap σ) →
          cheap (with_chance_node parent σ) !! c = cheap σ !! c).
Proof.
  intros n first. split_and!.
  - apply new_chance_node_run.
  - unfold placeholder_children.
    rewrite length_zip_with, length_fmap, !length_seq. lia.
  - intros i Hi. split.
    + rewrite dict_get_placeholder_children. by rewrite decide_True.
    + cbn [with_chance_node dheap set_cheap set_dheap].
      rewrite lookup_app_r by (unfold first; lia).
      apply lookup_replicate_2. unfold first, n in *. lia.
  - intros i Hi. rewrite dict_get_placeholder_children.
    by rewrite decide_False by lia.
  - unfold placeholder_children. rewrite fst_zip.
    + apply NoDup_fmap_2; [intros i j; apply placeholder_key_inj|].
      apply NoDup_seq.
    + by rewrite length_fmap, !length_seq.
  - intros r Hr. cbn [with_chance_node dheap set_cheap set_dheap].
    by rewrite lookup_app_l.
  - intros c Hc. cbn [with_chance_node cheap set_cheap set_dheap].
    by rewrite lookup_app_l.
Qed.

(** ** Expanding a decision node *)

Lemma dict_set_elem {K V} `{EqDecision K} (k : K) (v : V) l (kv : K * V) :
  kv ∈ dict_set k v l → kv = (k, v) ∨ kv ∈ l.
Proof.
  induction l as [|[k' v'] l IH]; simpl.
  - intros ->%list_elem_of_singleton. by left.
  - destruct (decide (k = k')).
    + intros [->|Hin]%elem_of_cons; [by left|]. right. by right.
    + intros [->|Hin]%elem_of_cons; [right; by left|].
      destruct (IH Hin); [by left|]. right. by right.
Qed.

Lemma dict_get_None_keys {K V} `{EqDecision K} (k : K) (l : list (K * V)) :
  dict_get k l = None ↔ k ∉ l.*1.
Proof.
  induction l as [|[k' v'] l IH]; simpl.
  - split; [intros _; apply not_elem_of_nil|done].
  - rewrite not_elem_of_cons. destruct (decide (k = k')); [|tauto].
    split; [done|]. by intros [? _].
Qed.

Lemma set_d_children_same d : set_d_children (d_children d) d = d.
Proof. by destruct d. Qed.

Lemma created_chance_new σ σ2 σ' r :
  r < length (dheap σ) →
  config σ2 = config σ →
  cheap σ2 = cheap σ ++ [blank_chance_node (config σ) r (length (dheap σ))] →
  (∀ i, i < max_next_states_count (config σ) →
        dheap σ2 !! (length (dheap σ) + i)
        = Some (blank_node (config σ) None Placeholder)) →
  kept_except r σ2 σ' →
  created_chance σ σ' r (length (cheap σ)).
Proof.
  intros Hr Hcfg Hcheap Hkids (_ & _ & _ & _ & _ & _ & Hd & Hc).
  split; [done|]. exists (length (dheap σ)). split_and!; [done| |].
  - rewrite Hc by (rewrite Hcheap, length_app; simpl; lia).
    rewrite Hcheap. by apply list_lookup_middle.
  - intros i Hi. rewrite Hd; [by apply Hkids|lia|].
    apply lookup_lt_is_Some. rewrite Hkids by done. eauto.
Qed.

Lemma created_chance_later σ σ2 σ' r c :
  config σ2 = config σ →
  length (cheap σ) ≤ length (cheap σ2) →
  length (dheap σ) ≤ length (dheap σ2) →
  created_chance σ2 σ' r c → created_chance σ σ' r c.
Proof.
  intros Hcfg Hc Hd (Hlt & first & Hfirst & Hcn & Hkids).
  split; [lia|]. exists first. rewrite <-Hcfg. split_and!; [lia|done|done].
Qed.

Lemma expand_loop r (l : list action) :
  ∀ σ d,
    dheap σ !! r = Some d →
    ∃ σ' ch,
      foldM (λ (_ : unit) a,
               bind (new_chance_node r)
                 (λ c, modify_decision r
                         (λ d, set_d_children (dict_set a c (d_children d)) d)))
            tt l σ = Ok tt σ'
      ∧ dheap σ' !! r = Some (set_d_children ch d)
      ∧ kept_except r σ σ'
      ∧ length (cheap σ') = length (cheap σ) + length l
      ∧ length (dheap σ) ≤ length (dheap σ')
      ∧ (∀ a, a ∈ l → ∃ c, dict_get a ch = Some c ∧ created_chance σ σ' r c)
      ∧ (∀ a, a ∉ l → dict_get a ch = dict_get a (d_children d))
      ∧ (∀ a c, (a, c) ∈ ch →
                (a, c) ∈ d_children d ∨ created_chance σ σ' r c)
      ∧ (NoDup l → (∀ a, a ∈ l → dict_get a (d_children d) = None) →
         ch.*1 = (d_children d).*1 ++ l).
Proof.
  induction l as [|a l IH]; intros σ d Hr.
  - exists σ, (d_children d). rewrite set_d_children_same.
    split_and!; try done.
    + intros a Ha. by apply elem_of_nil in Ha.
    + intros a c Hac. by left.
    + intros _ _. by rewrite app_nil_r.
  - assert (r < length (dheap σ)) as Hlt by eauto using lookup_lt_Some.
    cbn [foldM].
    unfold bind at 1.
    rewrite (bind_Ok _ _ _ _ _ (new_chance_node_run r σ)).
    set (c1 := length (cheap σ)).
    set (d2 := set_d_children (dict_set a c1 (d_children d)) d).
    assert (dheap (with_chance_node r σ) !! r = Some d) as Hr1.
    { cbn [with_chance_node dheap set_cheap set_dheap].
      by rewrite lookup_app_l. }
    rewrite (modify_decision_Ok _ _ _ _ Hr1).
    set (σ2 := set_dheap _ (with_chance_node r σ)).
    assert (dheap σ2 !! r = Some d2) as Hr2.
    { unfold σ2. cbn [dheap set_dheap]. apply list_lookup_insert_eq.
      eauto using lookup_lt_Some. }
    destruct (IH σ2 d2 Hr2)
      as (σ' & ch & Hrun & Hr' & Hkept & Hlen & Hdlen & Hin & Hout & Hall
          & Hkeys).
    assert (length (cheap σ2) = length (cheap σ) + 1) as Hlen2.
    { unfold σ2. cbn [with_chance_node cheap set_cheap set_dheap].
      rewrite length_app. simpl. lia. }
    assert (length (dheap σ2)
            = length (dheap σ) + max_next_states_count (config σ)) as Hdlen2.
    { unfold σ2. cbn [with_chance_node dheap set_cheap set_dheap].
      by rewrite length_insert, length_app, length_replicate. }
    assert (created_chance σ σ' r c1) as Hc1.
    { apply (created_chance_new σ σ2 σ' r); try done.
      intros i Hi. unfold σ2.
      cbn [with_chance_node dheap set_cheap set_dheap].
      rewrite list_lookup_insert_ne by lia.
      rewrite lookup_app_r by lia.
      apply lookup_replicate_2. lia. }
    assert (∀ c, created_chance σ2 σ' r c → created_chance σ σ' r c)
      as Hlater.
    { intros c. apply created_chance_later; [done|lia|lia]. }
    destruct Hkept as (Hk1 & Hk2 & Hk3 & Hk4 & Hk5 & Hk6 & Hkd & Hkc).
    exists σ', ch. split_and!.
    + done.
    + done.
    + split_and!; try done.
      * intros r' Hne Hr'lt. rewrite Hkd by (try done; lia).
        unfold σ2. cbn [with_chance_node dheap set_cheap set_dheap].
        rewrite list_lookup_insert_ne by done. by rewrite lookup_app_l.
      * intros c Hc. rewrite Hkc by lia.
        unfold σ2. cbn [with_chance_node cheap set_cheap set_dheap].
        by rewrite lookup_app_l.
    + rewrite Hlen, Hlen2. simpl. lia.
    + lia.
    + intros a' Ha'. destruct (decide (a' ∈ l)) as [Hl|Hl].
      * destruct (Hin a' Hl) as (c & Hc & Hcreated). eauto.
      * apply elem_of_cons in Ha' as [->|]; [|done].
        exists c1. split; [|done]. rewrite (Hout a Hl). unfold d2. simpl.
        apply dict_get_set_eq.
    + intros a' Ha'. apply not_elem_of_cons in Ha' as [Hne Hl].
      rewrite (Hout a' Hl). unfold d2. simpl. by apply dict_get_set_ne.
    + intros a' c Hac. destruct (Hall a' c Hac) as [Hold|Hnew]; [|by auto].
      unfold d2 in Hold. simpl in Hold.
      apply dict_set_elem in Hold as [[= -> ->]|Hold]; [by right|by left].
    + intros [Ha Hnodup]%NoDup_cons Hfresh.
      rewrite Hkeys; [|done|].
      * unfold d2. simpl. rewrite dict_set_fresh by (apply Hfresh; by left).
        rewrite fmap_app, <-app_assoc. done.
      * intros a' Ha'. unfold d2. simpl.
        rewrite dict_get_set_ne by (intros ->; done).
        apply Hfresh. by right.
Qed.

Lemma actions_list_run σ r d s :
  dheap σ !! r = Some d → d_state d = Some s →
  actions_list r σ = Ok (available_actions s) σ.
Proof.
  intros Hr Hs. unfold actions_list, available_actions.
  rewrite (bind_Ok _ _ _ _ _ (get_decision_Ok _ _ _ Hr)). rewrite Hs.
  by destruct (get_available_actions s).
Qed.

(** X11. Expanding a decision node whose state is set always succeeds and
    gives every action of [actions_list] (the state's
    [get_available_actions()], or [range(action_space.n)] when the state
    has no such method) a chance node of its own: [get_child(action)] then
    returns a chance node created by this call, with the expanded node as
    parent, count 0 and all its placeholder children.  Entries of other
    actions are kept, one chance node is created per listed action, and
    the only thing that changes in what existed before is the [children]
    of the expanded node. *)
Theorem expand_creates_chance_nodes σ r d s :
  dheap σ !! r = Some d →
  d_state d = Some s →
  let actions := available_actions s in
  ∃ σ' ch,
    expand r σ = Ok tt σ'
    ∧ dheap σ' !! r = Some (set_d_children ch d)
    ∧ (∀ a, a ∈ actions →
            ∃ c, d_get_child r a σ' = Ok c σ' ∧ created_chance σ σ' r c)
    ∧ (∀ a, a ∉ actions → dict_get a ch = dict_get a (d_children d))
    ∧ (NoDup actions → d_children d = [] → ch.*1 = actions)
    ∧ length (cheap σ') = length (cheap σ) + length actions
    ∧ kept_except r σ σ'.
Proof.
  intros Hr Hs actions.
  destruct (expand_loop r actions σ d Hr)
    as (σ' & ch & Hrun & Hr' & Hkept & Hlen & _ & Hin & Hout & _ & Hkeys).
  exists σ', ch. split_and!; try done.
  - unfold expand. by rewrite (bind_Ok _ _ _ _ _ (actions_list_run _ _ _ _ Hr Hs)).
  - intros a Ha. destruct (Hin a Ha) as (c & Hc & Hcreated).
    exists c. split; [|done]. unfold d_get_child.
    rewrite (bind_Ok _ _ _ _ _ (get_decision_Ok _ _ _ Hr')). simpl.
    by rewrite Hc.
  - intros Hnodup Hnil. rewrite Hkeys; [by rewrite Hnil|done|].
    intros a _. by rewrite Hnil.
Qed.

Lemma fmap_const_replicate {A B} (v : B) (l : list A) :
  (λ _, v) <$> l = replicate (length l) v.
Proof. induction l as [|x l IH]; simpl; [done|]. by rewrite <-IH. Qed.

Lemma created_chance_backup σ σ' r c f :
  created_chance σ σ' r c →
  c_backup c f σ' = Ok (initial_value f (config σ)) σ'.
Proof.
  intros (_ & first & _ & Hcn & _).
  rewrite (chance_backup_idle σ' c _ f Hcn eq_refl). by destruct f.
Qed.

(** X12. The first choice at a node is the tie-break's.  On a decision node
    with a state and no children the sampling rule expands the node, and
    the backup that follows finds every chance node unvisited: it returns
    the initial value bound for every action and writes nothing.  So the
    sampling rule hands [random_argmax] a list of equal values, one per
    action, and answers with the action at the index that comes back. *)
Theorem sampling_rule_on_new_node σ r d s :
  dheap σ !! r = Some d →
  d_state d = Some s →
  d_children d = [] →
  ∃ σ' ch,
    expand r σ = Ok tt σ'
    ∧ dheap σ' !! r = Some (set_d_children ch d)
    ∧ (NoDup (available_actions s) → ch.*1 = available_actions s)
    ∧ (∀ a, a ∈ ch.*1 ↔ a ∈ available_actions s)
    ∧ (∀ f, d_backup r f σ'
            = Ok ((λ ac, (ac.1, initial_value f (config σ))) <$> ch) σ')
    ∧ sampling_rule r σ
      = bind (call_random_argmax
                (replicate (length ch) (initial_value_upper (config σ))))
             (list_index (ch.*1)) σ'.
Proof.
  intros Hr Hs Hnil.
  destruct (expand_loop r (available_actions s) σ d Hr)
    as (σ' & ch & Hrun & Hr' & Hkept & Hlen & _ & Hin & Hout & Hall & Hkeys).
  assert (expand r σ = Ok tt σ') as Hexpand.
  { unfold expand.
    by rewrite (bind_Ok _ _ _ _ _ (actions_list_run _ _ _ _ Hr Hs)). }
  assert (∀ f, d_backup r f σ'
               = Ok ((λ ac, (ac.1, initial_value f (config σ))) <$> ch) σ')
    as Hbackup.
  { intros f. unfold d_backup.
    rewrite (bind_Ok _ _ _ _ _ (get_decision_Ok _ _ _ Hr')). simpl.
    apply mapM_reads. apply Forall2_fmap_r, Forall_Forall2_diag.
    apply Forall_forall. intros [a c] Hac. simpl.
    destruct (Hall a c Hac) as [Hold|Hnew].
    - rewrite Hnil in Hold. by apply elem_of_nil in Hold.
    - by rewrite (bind_Ok _ _ _ _ _ (created_chance_backup _ _ _ _ f Hnew)). }
  exists σ', ch. split_and!; try done.
  - intros Hnodup. rewrite Hkeys; [by rewrite Hnil|done|].
    intros a _. by rewrite Hnil.
  - intros a. split.
    + intros Ha. destruct (decide (a ∈ available_actions s)) as [|Hno]; [done|].
      apply Hout in Hno. rewrite Hnil in Hno. simpl in Hno.
      by apply dict_get_None_keys in Hno.
    + intros Ha. destruct (Hin a Ha) as (c & Hc & _).
      apply dict_get_elem in Hc. apply list_elem_of_fmap. by exists (a, c).
  - unfold sampling_rule.
    rewrite (bind_Ok _ _ _ _ _ (get_decision_Ok _ _ _ Hr)).
    rewrite decide_True by done.
    rewrite (bind_Ok _ _ _ _ _ Hexpand).
    rewrite (bind_Ok _ _ _ _ _ (Hbackup value_upper)).
    rewrite <-!list_fmap_compose.
    replace ((snd ∘ _) <$> ch)
      with ((λ _ : action * cref, initial_value_upper (config σ)) <$> ch)
      by done.
    by rewrite fmap_const_replicate.
Qed.

(** ** Children of a chance node, by observation *)

Lemma bind_Ok_inv {A B} (m : M A) (k : A → M B) σ b σ' :
  bind m k σ = Ok b σ' → ∃ a σ1, m σ = Ok a σ1 ∧ k a σ1 = Ok b σ'.
Proof. unfold bind. destruct (m σ) as [a σ1|e σ1]; [eauto|done]. Qed.

Lemma get_chance_inv σ c cn σ' :
  get_chance c σ = Ok cn σ' → cheap σ !! c = Some cn ∧ σ' = σ.
Proof.
  unfold get_chance. destruct (cheap σ !! c); [|done]. by intros [= -> ->].
Qed.

Lemma chance_get_child_known σ c cn (o : Obs) child :
  cheap σ !! c = Some cn →
  dict_get (str_obs o) (c_children cn) = Some child →
  c_get_child c o σ = Ok child σ.
Proof.
  intros Hc Hchild. unfold c_get_child.
  rewrite (bind_Ok _ _ _ _ _ (get_chance_Ok _ _ _ Hc)).
  assert (dict_in (str_obs o) (c_children cn) = true) as ->.
  { apply dict_in_true. eauto. }
  unfold bind at 1, ret at 1.
  rewrite (bind_Ok _ _ _ _ _ (get_chance_Ok _ _ _ Hc)).
  by rewrite Hchild.
Qed.

(** X13. Asking a chance node twice gives the same child: when
    [get_child(observation)] has returned a child, whether it found it or
    had to claim a placeholder for it, a second call with the same
    observation returns the same child and changes nothing, so no further
    placeholder is used up. *)
Theorem chance_get_child_again σ c (o : Obs) child σ' :
  c_get_child c o σ = Ok child σ' →
  c_get_child c o σ' = Ok child σ'.
Proof.
  unfold c_get_child at 1. intros Hrun.
  apply bind_Ok_inv in Hrun as (cn & σ0 & [_ ->]%get_chance_inv & Hrun).
  apply bind_Ok_inv in Hrun as ([] & σ1 & _ & Hrun).
  apply bind_Ok_inv in Hrun as (cn' & σ2 & [Hc' ->]%get_chance_inv & Hrun).
  destruct (dict_get (str_obs o) (c_children cn')) as [child'|] eqn:Hchild;
    [|done].
  injection Hrun as -> ->. by apply (chance_get_child_known _ _ cn').
Qed.

Lemma find_seq_least (p : nat → bool) (n : nat) :
  ∀ k i, List.find p (seq k n) = Some i →
         ∀ j, k ≤ j → j < i → p j = false.
Proof.
  induction n as [|n IH]; intros k i; simpl; [done|].
  destruct (p k) eqn:Hk.
  - intros [= <-] j ??. lia.
  - intros Hfind j Hkj Hji. destruct (decide (j = k)) as [->|]; [done|].
    apply (IH (S k) i Hfind); lia.
Qed.

Lemma get_node_run σ (o : Obs) st :
  (∀ r, nodes σ !! str_obs o = Some r → is_Some (dheap σ !! r)) →
  ∃ node σ', get_node o st σ = Ok node σ'
             ∧ nodes σ' !! str_obs o = Some node
             ∧ is_Some (dheap σ' !! node)
             ∧ cheap σ' = cheap σ
             ∧ config σ' = config σ
             ∧ ∀ r d, dheap σ !! r = Some d → dheap σ' !! r = Some d.
Proof.
  intros Hvalid. unfold get_node, get_nodes, bind at 1.
  destruct (nodes σ !! str_obs o) as [r|] eqn:Hk.
  - exists r, σ. split_and!; auto.
  - unfold new_decision_node, get_config, alloc_decision, bind, ret.
    eexists _, _. split; [reflexivity|].
    cbn [nodes dheap cheap config set_nodes set_dheap].
    split_and!; try done.
    + apply lookup_insert_eq.
    + apply lookup_lt_is_Some. rewrite length_app. simpl. lia.
    + intros r d Hr. by apply lookup_app_l_Some.
Qed.

(** X14. A new observation claims the first placeholder.  When a chance
    node has no child for the observation and [i] is the first index below
    [max_next_states_count] whose placeholder key is still a key (the
    children and the entry of the node table existing), [get_child]
    succeeds and returns the child that was under that key: the child now
    sits under the key of the observation, last in the order of the
    children, the placeholder key is gone, the child's [observation] is
    the observation, and the parent of the chance node is among the
    parents of the node that the node table holds for the observation.
    From then on [get_field] of the child answers with the value bounds
    of that node. *)
Theorem chance_get_child_claims_placeholder σ c cn (o : Obs) i :
  cheap σ !! c = Some cn →
  dict_get (str_obs o) (c_children cn) = None →
  first_placeholder (max_next_states_count (config σ)) (c_children cn)
  = Some i →
  (∀ k r, (k, r) ∈ c_children cn → is_Some (dheap σ !! r)) →
  (∀ r, nodes σ !! str_obs o = Some r → is_Some (dheap σ !! r)) →
  ∃ child σ' cn' dchild node dnode,
    dict_get (placeholder_key i) (c_children cn) = Some child
    ∧ (∀ j, j < i → dict_get (placeholder_key j) (c_children cn) = None)
    ∧ c_get_child c o σ = Ok child σ'
    ∧ cheap σ' !! c = Some cn'
    ∧ c_children cn'
      = dict_remove (placeholder_key i) (c_children cn) ++ [(str_obs o, child)]
    ∧ dict_get (str_obs o) (c_children cn') = Some child
    ∧ c_count cn' = c_count cn
    ∧ dheap σ' !! child = Some dchild
    ∧ d_observation dchild = Observed o
    ∧ nodes σ' !! str_obs o = Some node
    ∧ dheap σ' !! node = Some dnode
    ∧ c_parent cn ∈ d_parents dnode
    ∧ ∀ f, get_field child f σ' = Ok (get_d_value f dnode) σ'.
Proof.
  intros Hc Hnew Hfirst Hkids Htable.
  pose proof (first_placeholder_Some _ _ _ Hfirst) as [Hi [child Hchild]].
  assert (∀ j, j < i → dict_get (placeholder_key j) (c_children cn) = None)
    as Hleast.
  { intros j Hj. apply dict_in_false.
    apply (find_seq_least _ _ 0 i Hfirst); lia. }
  destruct (Hkids _ _ (dict_get_elem _ _ _ Hchild)) as [dchild Hdchild].
  assert (c < length (cheap σ)) as Hclt by eauto using lookup_lt_Some.
  assert (child < length (dheap σ)) as Hchlt by eauto using lookup_lt_Some.
  set (key := str_obs o).
  set (cn1 := set_c_children
                (dict_set key child
                   (dict_remove (placeholder_key i) (c_children cn))) cn).
  set (σ1 := set_cheap (<[c := cn1]> (cheap σ)) σ).
  set (σ2 := set_dheap
               (<[child := set_d_observation (Observed o) dchild]> (dheap σ))
               σ1).
  assert (dheap σ2 !! child = Some (set_d_observation (Observed o) dchild))
    as Hchild2.
  { unfold σ2. cbn [dheap set_dheap]. by apply list_lookup_insert_eq. }
  destruct (get_node_run σ2 o None) as (node & σ3 & Hnode & Htab3 & [dn Hdn]
                                        & Hcheap3 & Hcfg3 & Hkeep3).
  { intros r Hr. unfold σ2, σ1. cbn [dheap set_dheap set_cheap].
    apply lookup_lt_is_Some. rewrite length_insert.
    apply lookup_lt_is_Some. by apply Htable. }
  set (g := λ d : GraphDecisionNode,
              set_d_parents ({[c_parent cn]} ∪ d_parents d) d).
  set (σ4 := set_dheap (<[node := g dn]> (dheap σ3)) σ3).
  assert (node < length (dheap σ3)) as Hnlt by eauto using lookup_lt_Some.
  assert (cheap σ4 !! c = Some cn1) as Hc4.
  { unfold σ4. cbn [cheap set_dheap]. rewrite Hcheap3.
    unfold σ2, σ1. cbn [cheap set_dheap set_cheap].
    by apply list_lookup_insert_eq. }
  assert (c_children cn1
          = dict_remove (placeholder_key i) (c_children cn) ++ [(key, child)])
    as Hchildren1.
  { unfold cn1. cbn [c_children set_c_children].
    apply dict_set_fresh. by apply dict_get_remove_None. }
  assert (dict_get key (c_children cn1) = Some child) as Hkey1.
  { unfold cn1. cbn [c_children set_c_children]. apply dict_get_set_eq. }
  assert (c_get_child c o σ = Ok child σ4) as Hrun.
  { unfold c_get_child.
    rewrite (bind_Ok _ _ _ _ _ (get_chance_Ok _ _ _ Hc)). fold key.
    apply dict_in_false in Hnew as Hin. fold key in Hin. rewrite Hin.
    unfold get_config, bind at 1 2. cbn beta iota. rewrite Hfirst, Hchild.
    rewrite (bind_Ok _ _ _ _ _ (modify_chance_Ok _ _ _ _ Hc)).
    fold cn1. fold σ1.
    assert (dheap σ1 !! child = Some dchild) as Hd1 by done.
    rewrite (bind_Ok _ _ _ _ _ (modify_decision_Ok _ _ _ _ Hd1)).
    change (set_dheap _ σ1) with σ2.
    rewrite (bind_Ok _ _ _ _ _ Hnode).
    rewrite (modify_decision_Ok _ _ _ _ Hdn).
    change (set_dheap _ σ3) with σ4. unfold bind at 1.
    rewrite (get_chance_Ok _ _ _ Hc4). by rewrite Hkey1. }
  assert (∃ dchild', dheap σ4 !! child = Some dchild'
                     ∧ d_observation dchild' = Observed o)
    as (dchild' & Hchild4 & Hobs).
  { pose proof (Hkeep3 _ _ Hchild2) as Hchild3.
    unfold σ4. cbn [dheap set_dheap].
    destruct (decide (node = child)) as [->|Hne].
    - rewrite list_lookup_insert_eq by done. eexists. split; [done|].
      rewrite Hchild3 in Hdn. by injection Hdn as <-.
    - rewrite list_lookup_insert_ne by done. eauto. }
  assert (dheap σ4 !! node = Some (g dn)) as Hnode4.
  { unfold σ4. cbn [dheap set_dheap]. by apply list_lookup_insert_eq. }
  exists child, σ4, cn1, dchild', node, (g dn).
  split_and!; try done.
  - unfold g. cbn [d_parents set_d_parents]. set_solver.
  - intros f. unfold get_field.
    rewrite (bind_Ok _ _ _ _ _ (get_decision_Ok _ _ _ Hchild4)).
    unfold get_nodes, bind at 1. rewrite Hobs. cbn [str_observation].
    change (nodes σ4) with (nodes σ3). rewrite Htab3.
    by rewrite (bind_Ok _ _ _ _ _ (get_decision_Ok _ _ _ Hnode4)).
Qed.

(** ** What value iteration leaves alone *)

Lemma steady_bind_any {A B} (R : Planner → Planner → Prop)
    (m : M A) (k : A → M B) :
  (∀ σ1 σ2 σ3, R σ1 σ2 → R σ2 σ3 → R σ1 σ3) →
  steady R m → (∀ a, steady R (k a)) → steady R (bind m k).
Proof.
  intros Htrans Hm Hk σ. unfold bind. specialize (Hm σ).
  destruct (m σ) as [a σ'|e σ']; simpl in *; [|done].
  eapply Htrans; [done|apply Hk].
Qed.

Lemma steady_read_any {A} (R : Planner → Planner → Prop) (m : M A) :
  (∀ σ, R σ σ) → (∀ σ, final_state (m σ) = σ) → steady R m.
Proof. intros Hrefl Hread σ. rewrite Hread. apply Hrefl. Qed.

Lemma steady_foldM_any {A B} (R : Planner → Planner → Prop)
    (body : B → A → M B) (l : list A) (acc : B) :
  (∀ σ, R σ σ) →
  (∀ σ1 σ2 σ3, R σ1 σ2 → R σ2 σ3 → R σ1 σ3) →
  (∀ acc x, steady R (body acc x)) → steady R (foldM body acc l).
Proof.
  intros Hrefl Htrans Hbody. revert acc.
  induction l as [|x l IH]; intros acc; simpl.
  - by apply steady_read_any.
  - apply steady_bind_any; [done|apply Hbody|]. intros acc'. apply IH.
Qed.

Lemma steady_weaken {A} (R R' : Planner → Planner → Prop) (m : M A) :
  (∀ σ σ', R σ σ' → R' σ σ') → steady R m → steady R' m.
Proof. intros HR Hm σ. apply HR, Hm. Qed.

Lemma same_but_values_refl d : same_but_values d d.
Proof. done. Qed.

Lemma same_but_values_trans d1 d2 d3 :
  same_but_values d1 d2 → same_but_values d2 d3 → same_but_values d1 d3.
Proof.
  intros (?&?&?&?&?&?&?&?) (?&?&?&?&?&?&?&?). split_and!; congruence.
Qed.

Lemma Forall2_diag_refl {A} (R : A → A → Prop) (l : list A) :
  (∀ x, R x x) → Forall2 R l l.
Proof. intros HR. apply Forall_Forall2_diag, Forall_forall. auto. Qed.

Lemma value_frame_refl σ : value_frame σ σ.
Proof.
  split_and!; try done.
  - apply Forall2_diag_refl, same_but_values_refl.
  - apply Forall2_diag_refl, same_links_refl.
Qed.

Lemma value_frame_trans σ1 σ2 σ3 :
  value_frame σ1 σ2 → value_frame σ2 σ3 → value_frame σ1 σ3.
Proof.
  intros (?&?&?&?&?&?&Hd1&Hc1) (?&?&?&?&?&?&Hd2&Hc2).
  split_and!; try congruence.
  - eapply Forall2_trans; [|exact Hd1|exact Hd2].
    intros ???. apply same_but_values_trans.
  - eapply Forall2_trans; [|exact Hc1|exact Hc2].
    intros ???. apply same_links_trans.
Qed.

Lemma backup_frame_value_frame σ σ' : backup_frame σ σ' → value_frame σ σ'.
Proof.
  intros (?&?&?&?&Hd&?&?&?). split_and!; try done.
  rewrite Hd. apply Forall2_diag_refl, same_but_values_refl.
Qed.

Lemma value_frame_modify_decision r g :
  (∀ d, same_but_values d (g d)) → steady value_frame (modify_decision r g).
Proof.
  intros Hg σ. unfold modify_decision.
  destruct (dheap σ !! r) as [d|] eqn:Hr; [|apply value_frame_refl].
  split_and!; try done; cbn [final_state dheap cheap set_dheap].
  - apply Forall2_same_length_lookup_2; [by rewrite length_insert|].
    intros i d1 d2 Hl1 Hl2. destruct (decide (r = i)) as [<-|].
    + rewrite list_lookup_insert_eq in Hl2 by eauto using lookup_lt_Some.
      simplify_eq. apply Hg.
    + rewrite list_lookup_insert_ne in Hl2 by done. simplify_eq.
      apply same_but_values_refl.
  - apply Forall2_diag_refl, same_links_refl.
Qed.

Lemma value_frame_pvi_field node (delta : num) f :
  steady value_frame (pvi_field node delta f).
Proof.
  unfold pvi_field.
  apply steady_bind_any; [apply value_frame_trans| |].
  { eapply steady_weaken; [apply backup_frame_value_frame|].
    apply steady_decision_backup. }
  intros qs. apply steady_bind_any; [apply value_frame_trans| |].
  { apply steady_read_any; [apply value_frame_refl|].
    intros σ. unfold np_amax. by destruct (qs.*2). }
  intros v. apply steady_bind_any; [apply value_frame_trans| |].
  { apply steady_read_any; [apply value_frame_refl|apply get_decision_read]. }
  intros d. apply steady_bind_any; [apply value_frame_trans| |].
  { apply value_frame_modify_decision. intros d0. by destruct f. }
  intros _. by apply steady_read_any; [apply value_frame_refl|].
Qed.

Lemma value_frame_pvi_iteration node rest :
  steady value_frame (pvi_iteration node rest).
Proof.
  unfold pvi_iteration.
  apply steady_bind_any; [apply value_frame_trans| |].
  { apply steady_foldM_any;
      [apply value_frame_refl|apply value_frame_trans|].
    intros delta f. apply value_frame_pvi_field. }
  intros delta. apply steady_bind_any; [apply value_frame_trans| |].
  { by apply steady_read_any; [apply value_frame_refl|]. }
  intros cfg. destruct (gtb delta (accuracy cfg)).
  - apply steady_bind_any; [apply value_frame_trans| |].
    { apply steady_read_any; [apply value_frame_refl|apply get_decision_read]. }
    intros d. by apply steady_read_any; [apply value_frame_refl|].
  - by apply steady_read_any; [apply value_frame_refl|].
Qed.

Lemma value_frame_pvi_loop fuel :
  ∀ queue σ res,
    pvi_loop fuel queue σ = Some res → value_frame σ (final_state res).
Proof.
  induction fuel as [|fuel IH]; intros [|node rest] σ res; simpl.
  - intros [= <-]. apply value_frame_refl.
  - done.
  - intros [= <-]. apply value_frame_refl.
  - pose proof (value_frame_pvi_iteration node rest σ) as Hpass.
    destruct (pvi_iteration node rest σ) as [queue' σ1|e σ1]; simpl in Hpass.
    + intros Hloop. eapply value_frame_trans; [exact Hpass|]. by eapply IH.
    + by intros [= <-].
Qed.

(** X15. Partial value iteration writes estimates only.  Whenever it
    ends, normally or by an exception in the middle of a pass, for any
    queue, the configuration, the node table, the root, the random
    generator and the log are as before; every decision node has its
    state, observation, parents, children, visit count, cumulative reward
    and reward bounds unchanged; every chance node has its parent, count
    and children unchanged; no node was created or removed. *)
Theorem value_iteration_only_writes_estimates σ fuel self queue res :
  partial_value_iteration fuel self queue σ = Some res →
  value_frame σ (final_state res)
  ∧ length (dheap (final_state res)) = length (dheap σ)
  ∧ length (cheap (final_state res)) = length (cheap σ)
  ∧ ∀ r, visits (final_state res) r = visits σ r.
Proof.
  unfold partial_value_iteration. intros Hrun.
  pose proof (value_frame_pvi_loop _ _ _ _ Hrun) as Hframe.
  pose proof Hframe as (_&_&_&_&_&_&Hd&Hc).
  split_and!; [done| | |].
  - symmetry. by eapply Forall2_length.
  - symmetry. by eapply Forall2_length.
  - intros r. unfold visits.
    destruct (dheap σ !! r) as [d|] eqn:Hr.
    + destruct (Forall2_lookup_l _ _ _ _ _ Hd Hr) as (d' & -> & Hsame).
      simpl. by destruct Hsame as (_&_&_&_&?&_).
    + apply lookup_ge_None in Hr. rewrite lookup_ge_None_2; [done|].
      rewrite <-(Forall2_length _ _ _ Hd). done.
Qed.

(** ** The queue of updated nodes *)

Lemma run_iteration_queue (st : EnvState) (o : Obs) queue σ st' o' queue' dn σ' :
  run_iteration st o queue σ = Ok (st', o', queue', dn) σ' →
  queue' = if bool_decide (dn ∈ queue) then queue else queue ++ [dn].
Proof.
  unfold run_iteration. intros Hrun.
  apply bind_Ok_inv in Hrun as (dn0 & σ1 & _ & Hrun).
  apply bind_Ok_inv in Hrun as (a & σ2 & _ & Hrun).
  apply bind_Ok_inv in Hrun as (cn & σ3 & _ & Hrun).
  destruct (env_step st a) as [[[st1 o1] reward] done].
  apply bind_Ok_inv in Hrun as (next & σ4 & _ & Hrun).
  apply bind_Ok_inv in Hrun as ([] & σ5 & _ & Hrun).
  apply bind_Ok_inv in Hrun as ([] & σ6 & _ & Hrun).
  apply bind_Ok_inv in Hrun as ([] & σ7 & _ & Hrun).
  by injection Hrun as <- <- <- <- <-.
Qed.

(** X16. The queue [run] hands to the value iteration.  Through the passes
    of the episode loop the queue of updated nodes only grows at its end,
    by at most one node per pass, and never holds a node twice; after at
    least one pass the decision node the loop leaves bound is in the
    queue, and after no pass the queue and the binding are as they
    were. *)
Theorem run_loop_queue h (st : EnvState) (o : Obs) queue last σ queue' last' σ' :
  run_loop h st o queue last σ = Ok (queue', last') σ' →
  NoDup queue →
  NoDup queue'
  ∧ queue `prefix_of` queue'
  ∧ length queue' ≤ length queue + h
  ∧ (h = 0 → queue' = queue ∧ last' = last ∧ σ' = σ)
  ∧ (0 < h → ∃ dn, last' = Some dn ∧ dn ∈ queue').
Proof.
  revert st o queue last σ.
  induction h as [|h IH]; intros st o queue last σ; simpl.
  - intros [= <- <- <-] Hnodup. split_and!; try done; [lia|lia].
  - intros Hrun Hnodup.
    apply bind_Ok_inv in Hrun as ([[[st1 o1] queue1] dn] & σ1 & Hpass & Hrun).
    apply run_iteration_queue in Hpass as Hqueue1.
    assert (NoDup queue1 ∧ queue `prefix_of` queue1
            ∧ length queue1 ≤ length queue + 1 ∧ dn ∈ queue1)
      as (Hnodup1 & Hprefix1 & Hlen1 & Hdn1).
    { rewrite Hqueue1. case_bool_decide as Hin.
      - split_and!; [done|done|lia|done].
      - split_and!.
        + apply NoDup_app. split_and!; [done| |apply NoDup_singleton].
          intros x Hx ->%list_elem_of_singleton. done.
        + by apply prefix_app_r.
        + rewrite length_app. simpl. lia.
        + apply elem_of_app. right. by apply list_elem_of_singleton. }
    destruct (IH _ _ _ _ _ Hrun Hnodup1)
      as (Hnodup' & Hprefix' & Hlen' & Hzero & Hpos).
    split_and!; [done|by etrans|lia|lia|].
    intros _. destruct h as [|h].
    + destruct (Hzero eq_refl) as (-> & -> & _). eauto.
    + apply Hpos. lia.
Qed.

(** ** The graph only grows *)

Lemma decision_grown_refl d : decision_grown d d.
Proof. by split_and!. Qed.

Lemma decision_grown_trans d1 d2 d3 :
  decision_grown d1 d2 → decision_grown d2 d3 → decision_grown d1 d3.
Proof.
  intros (Hc1 & Hp1 & Hch1) (Hc2 & Hp2 & Hch2). split_and!.
  - lia.
  - set_solver.
  - intros Hne. rewrite Hch2; [by apply Hch1|]. by rewrite Hch1.
Qed.

Lemma chance_grown_refl cap cn : chance_grown cap cn cn.
Proof. by split_and!. Qed.

Lemma chance_grown_trans cap cn1 cn2 cn3 :
  chance_grown cap cn1 cn2 → chance_grown cap cn2 cn3 →
  chance_grown cap cn1 cn3.
Proof.
  intros (Hp1 & Hc1 & Hk1 & Hd1) (Hp2 & Hc2 & Hk2 & Hd2). split_and!.
  - congruence.
  - lia.
  - by rewrite Hk2.
  - intros k r Hk Hr. by apply Hd2, Hd1.
Qed.

Lemma chance_grown_length cap cn cn' :
  chance_grown cap cn cn' → length (c_children cn') = length (c_children cn).
Proof.
  intros (_ & _ & Hk & _). apply Permutation_length in Hk.
  unfold kids in Hk. by rewrite !length_fmap in Hk.
Qed.

Lemma grown_same σ σ' :
  config σ' = config σ → env_actions σ' = env_actions σ →
  root σ' = root σ → nodes σ' = nodes σ →
  dheap σ' = dheap σ → cheap σ' = cheap σ → grown σ σ'.
Proof.
  intros Hcfg Hn Hroot Hnodes Hd Hc. split_and!; try done.
  - by rewrite Hnodes.
  - intros r d Hr. exists d. rewrite Hd. split; [done|].
    apply decision_grown_refl.
  - intros c cn Hcn. exists cn. rewrite Hc. split; [done|].
    apply chance_grown_refl.
  - intros c cn' Hcn' Hlt. rewrite Hc in Hcn'.
    apply lookup_lt_Some in Hcn'. lia.
Qed.

Lemma grown_refl σ : grown σ σ.
Proof. by apply grown_same. Qed.

Lemma grown_trans σ1 σ2 σ3 : grown σ1 σ2 → grown σ2 σ3 → grown σ1 σ3.
Proof.
  intros (Hcfg1 & Hn1 & Hr1 & Ht1 & Hd1 & Hc1 & Hnew1)
         (Hcfg2 & Hn2 & Hr2 & Ht2 & Hd2 & Hc2 & Hnew2).
  split_and!; try congruence.
  - by etrans.
  - intros r d Hr. destruct (Hd1 _ _ Hr) as (d2 & Hr2' & Hg1).
    destruct (Hd2 _ _ Hr2') as (d3 & Hr3 & Hg2).
    exists d3. split; [done|]. by eapply decision_grown_trans.
  - intros c cn Hc. destruct (Hc1 _ _ Hc) as (cn2 & Hc2' & Hg1).
    destruct (Hc2 _ _ Hc2') as (cn3 & Hc3 & Hg2).
    exists cn3. split; [done|]. rewrite Hcfg1 in Hg2.
    by eapply chance_grown_trans.
  - intros c cn3 Hc3 Hlt.
    destruct (decide (c < length (cheap σ2))) as [Hold|Hnew].
    + destruct (lookup_lt_is_Some_2 _ _ Hold) as [cn2 Hcn2].
      destruct (Hc2 _ _ Hcn2) as (cn3' & Hc3' & Hg).
      simplify_eq. rewrite (chance_grown_length _ _ _ Hg). by apply (Hnew1 c).
    + rewrite <-Hcfg1. apply (Hnew2 c); [done|lia].
Qed.

Lemma value_frame_grown σ σ' : value_frame σ σ' → grown σ σ'.
Proof.
  intros (Hcfg & Hn & Hnodes & Hroot & _ & _ & Hd & Hc).
  split_and!; try done.
  - by rewrite Hnodes.
  - intros r d Hr.
    destruct (Forall2_lookup_l _ _ _ _ _ Hd Hr) as (d' & Hr' & Hsame).
    exists d'. split; [done|].
    destruct Hsame as (_ & _ & Hp & Hch & Hcount & _).
    split_and!; [lia|by rewrite Hp|done].
  - intros c cn Hcn.
    destruct (Forall2_lookup_l _ _ _ _ _ Hc Hcn) as (cn' & Hcn' & Hsame).
    exists cn'. split; [done|].
    destruct Hsame as (Hp & Hcount & Hch).
    split_and!; [done|lia|unfold kids; by rewrite Hch|].
    intros k r _. by rewrite Hch.
  - intros c cn' Hcn' Hlt. apply lookup_lt_Some in Hcn'.
    rewrite <-(Forall2_length _ _ _ Hc) in Hcn'. lia.
Qed.

Lemma backup_frame_grown σ σ' : backup_frame σ σ' → grown σ σ'.
Proof. intros Hframe. by apply value_frame_grown, backup_frame_value_frame. Qed.

Lemma grown_store_decision σ r d d1 :
  dheap σ !! r = Some d → decision_grown d d1 →
  grown σ (set_dheap (<[r := d1]> (dheap σ)) σ).
Proof.
  intros Hr Hg. split_and!; try done; cbn [dheap cheap config set_dheap].
  - intros r' d' Hr'. destruct (decide (r = r')) as [<-|].
    + rewrite list_lookup_insert_eq by eauto using lookup_lt_Some.
      simplify_eq. eauto.
    + rewrite list_lookup_insert_ne by done.
      eauto using decision_grown_refl.
  - intros c cn Hc. eauto using chance_grown_refl.
  - intros c cn' Hcn' Hlt. apply lookup_lt_Some in Hcn'. lia.
Qed.

Lemma grown_store_chance σ c cn cn1 :
  cheap σ !! c = Some cn →
  chance_grown (max_next_states_count (config σ)) cn cn1 →
  grown σ (set_cheap (<[c := cn1]> (cheap σ)) σ).
Proof.
  intros Hc Hg. split_and!; try done; cbn [dheap cheap config set_cheap].
  - intros r d Hr. eauto using decision_grown_refl.
  - intros c' cn' Hc'. destruct (decide (c = c')) as [<-|].
    + rewrite list_lookup_insert_eq by eauto using lookup_lt_Some.
      simplify_eq. eauto.
    + rewrite list_lookup_insert_ne by done. eauto using chance_grown_refl.
  - intros c' cn' Hcn' Hlt. apply lookup_lt_Some in Hcn'.
    rewrite length_insert in Hcn'. lia.
Qed.

Lemma grown_modify_decision r g :
  (∀ d, decision_grown d (g d)) → steady grown (modify_decision r g).
Proof.
  intros Hg σ. unfold modify_decision.
  destruct (dheap σ !! r) as [d|] eqn:Hr; [|apply grown_refl].
  by apply (grown_store_decision σ r d).
Qed.

Lemma grown_modify_chance c g :
  (∀ cap cn, chance_grown cap cn (g cn)) → steady grown (modify_chance c g).
Proof.
  intros Hg σ. unfold modify_chance.
  destruct (cheap σ !! c) as [cn|] eqn:Hc; [|apply grown_refl].
  by apply (grown_store_chance σ c cn).
Qed.

Lemma grown_new_decision_node st (o : observation_t Obs) :
  steady grown (new_decision_node st o).
Proof.
  intros σ. unfold new_decision_node, get_config, alloc_decision, bind.
  split_and!; try done; cbn [final_state dheap cheap config set_dheap].
  - intros r d Hr. exists d. split; [by apply lookup_app_l_Some|].
    apply decision_grown_refl.
  - intros c cn Hc. eauto using chance_grown_refl.
  - intros c cn' Hcn' Hlt. apply lookup_lt_Some in Hcn'. lia.
Qed.

Lemma grown_get_node (o : Obs) st : steady grown (get_node o st).
Proof.
  intros σ. unfold get_node, get_nodes, bind at 1.
  destruct (nodes σ !! str_obs o) as [r|] eqn:Hk; [apply grown_refl|].
  pose proof (grown_new_decision_node st (Observed o) σ) as Hnew.
  unfold bind at 1.
  destruct (new_decision_node st (Observed o) σ) as [r σ1|e σ1] eqn:Hrun;
    simpl in Hnew; [|done].
  unfold bind, ret. cbn [final_state].
  eapply grown_trans; [exact Hnew|].
  assert (nodes σ1 = nodes σ) as Hnodes.
  { unfold new_decision_node, get_config, alloc_decision, bind in Hrun.
    by injection Hrun as <- <-. }
  split_and!; try done; cbn [nodes dheap cheap config set_nodes].
  - apply insert_subseteq. by rewrite Hnodes.
  - intros r' d Hr'. eauto using decision_grown_refl.
  - intros c cn Hc. eauto using chance_grown_refl.
  - intros c cn' Hcn' Hlt. apply lookup_lt_Some in Hcn'. lia.
Qed.

Lemma chance_added_refl σ : chance_added σ σ.
Proof.
  split_and!; try done. intros c cn' Hc. left.
  split; [by eapply lookup_lt_Some|done].
Qed.

Lemma chance_added_trans σ1 σ2 σ3 :
  chance_added σ1 σ2 → chance_added σ2 σ3 → chance_added σ1 σ3.
Proof.
  intros (Hcfg1 & Hlen1 & Hc1) (Hcfg2 & Hlen2 & Hc2).
  split_and!; [congruence|lia|].
  intros c cn3 Hcn3. destruct (Hc2 _ _ Hcn3) as [[Hlt Hcn2]|[Hge Hsize]].
  - by apply Hc1.
  - right. split; [lia|]. by rewrite <-Hcfg1.
Qed.

Lemma placeholder_children_length first n :
  length (placeholder_children first n) = n.
Proof.
  unfold placeholder_children.
  rewrite length_zip_with, length_fmap, !length_seq. lia.
Qed.

Lemma chance_added_expand r : steady chance_added (expand r).
Proof.
  unfold expand.
  apply steady_bind_any; [apply chance_added_trans| |].
  { apply steady_read_any; [apply chance_added_refl|].
    intros σ. unfold actions_list, bind, get_decision.
    destruct (dheap σ !! r) as [d|]; [|done].
    destruct (d_state d) as [s|]; [|done].
    by destruct (get_available_actions s). }
  intros actions.
  apply steady_foldM_any; [apply chance_added_refl|apply chance_added_trans|].
  intros [] a. apply steady_bind_any; [apply chance_added_trans| |].
  - intros σ. rewrite new_chance_node_run. cbn [final_state].
    split_and!; cbn [with_chance_node cheap config set_cheap set_dheap].
    + done.
    + rewrite length_app. lia.
    + intros c cn' Hc.
      destruct (decide (c < length (cheap σ))) as [Hlt|Hge].
      * left. split; [done|]. by rewrite lookup_app_l in Hc.
      * right. split; [lia|].
        rewrite lookup_app_r in Hc by lia.
        apply list_lookup_singleton_Some in Hc as [_ <-].
        apply placeholder_children_length.
  - intros c σ. unfold modify_decision.
    destruct (dheap σ !! r); [|apply chance_added_refl].
    split_and!; try done. intros c' cn' Hc'. left.
    split; [by eapply lookup_lt_Some|done].
Qed.

Lemma grown_expand_childless σ r d :
  dheap σ !! r = Some d → d_children d = [] →
  grown σ (final_state (expand r σ)).
Proof.
  intros Hr Hnil. destruct (d_state d) as [s|] eqn:Hs; last first.
  { unfold expand, actions_list, bind.
    rewrite (get_decision_Ok _ _ _ Hr), Hs. apply grown_refl. }
  pose proof (chance_added_expand r σ) as (_ & _ & Hadded).
  destruct (expand_loop r (available_actions s) σ d Hr)
    as (σ' & ch & Hrun & Hr' & Hkept & _).
  assert (expand r σ = Ok tt σ') as Hexpand.
  { unfold expand.
    by rewrite (bind_Ok _ _ _ _ _ (actions_list_run _ _ _ _ Hr Hs)). }
  rewrite Hexpand in Hadded |- *. cbn [final_state] in *.
  destruct Hkept as (Hcfg & Hn & Hnodes & Hroot & _ & _ & Hd & Hc).
  split_and!; try done.
  - by rewrite Hnodes.
  - intros r' d' Hr0. destruct (decide (r' = r)) as [->|Hne].
    + simplify_eq. eexists. split; [done|].
      split_and!; [done|done|]. intros Hch. by rewrite Hnil in Hch.
    + exists d'. rewrite Hd by eauto using lookup_lt_Some.
      split; [done|]. apply decision_grown_refl.
  - intros c cn Hcn. exists cn. rewrite Hc by eauto using lookup_lt_Some.
    split; [done|]. apply chance_grown_refl.
  - intros c cn' Hcn' Hge.
    destruct (Hadded _ _ Hcn') as [[Hlt _]|[_ Hsize]]; [lia|done].
Qed.

Lemma grown_bind {A B} (m : M A) (k : A → M B) :
  steady grown m → (∀ a, steady grown (k a)) → steady grown (bind m k).
Proof. apply steady_bind_any, grown_trans. Qed.

Lemma grown_read {A} (m : M A) :
  (∀ σ, final_state (m σ) = σ) → steady grown m.
Proof. apply steady_read_any, grown_refl. Qed.

Lemma grown_random_argmax (x : list num) :
  steady grown (call_random_argmax x).
Proof.
  intros σ. unfold call_random_argmax.
  by destruct (random_argmax x (np_random σ)) as [[i|] g]; apply grown_same.
Qed.

Lemma grown_list_index {A} (l : list A) i : steady grown (list_index l i).
Proof. apply grown_read. intros σ. unfold list_index. by destruct (l !! i). Qed.

Lemma grown_decision_backup r f : steady grown (d_backup r f).
Proof.
  eapply steady_weaken; [apply backup_frame_grown|].
  apply steady_decision_backup.
Qed.

Lemma grown_sampling_rule r : steady grown (sampling_rule r).
Proof.
  intros σ. unfold sampling_rule.
  destruct (dheap σ !! r) as [d|] eqn:Hr; last first.
  { unfold bind at 1, get_decision. rewrite Hr. apply grown_refl. }
  rewrite (bind_Ok _ _ _ _ _ (get_decision_Ok _ _ _ Hr)).
  assert (∀ u : unit, steady grown
            (bind (d_backup r value_upper) (λ qs,
               bind (call_random_argmax (qs.*2)) (list_index (qs.*1)))))
    as Hrest.
  { intros _. apply grown_bind; [apply grown_decision_backup|]. intros qs.
    apply grown_bind; [apply grown_random_argmax|]. intros i.
    apply grown_list_index. }
  case_decide as Hnil.
  - pose proof (grown_expand_childless σ r d Hr Hnil) as Hexpand.
    unfold bind at 1.
    destruct (expand r σ) as [[] σ1|e σ1]; cbn [final_state] in *; [|done].
    eapply grown_trans; [exact Hexpand|]. apply (Hrest tt).
  - apply (Hrest tt).
Qed.

Lemma grown_selection_rule r : steady grown (selection_rule r).
Proof.
  unfold selection_rule.
  apply grown_bind; [apply grown_decision_backup|]. intros qs.
  apply grown_bind; [apply grown_random_argmax|]. intros i.
  apply grown_list_index.
Qed.

Lemma grown_compute_reward_ucb r : steady grown (compute_reward_ucb r).
Proof.
  unfold compute_reward_ucb.
  apply grown_bind; [by apply grown_read|]. intros cfg.
  case_decide; [|intros σ; by apply grown_same].
  apply grown_bind; [apply grown_read, config_key_read|]. intros h.
  apply grown_bind; [by apply grown_read|]. intros actions.
  apply grown_bind; [apply grown_read, get_decision_read|]. intros d.
  apply grown_bind; [apply grown_read, config_key_read|]. intros t.
  destruct (eqb_num _ _).
  - case_decide; [by apply grown_read|].
    apply grown_bind; [by apply grown_modify_decision|]. intros _.
    by apply grown_modify_decision.
  - apply grown_bind; [by apply grown_modify_decision|]. intros _.
    by apply grown_modify_decision.
Qed.

Lemma grown_decision_update r (reward : option num) :
  steady grown (d_update r reward).
Proof.
  unfold d_update. apply grown_bind.
  { apply grown_modify_decision. intros d. split_and!; simpl; [lia|done|done]. }
  intros _. destruct reward as [x|]; [|by apply grown_read].
  apply grown_bind; [by apply grown_modify_decision|]. intros _.
  apply grown_compute_reward_ucb.
Qed.

Lemma grown_chance_update c : steady grown (c_update c).
Proof.
  unfold c_update. apply grown_modify_chance. intros cap cn.
  split_and!; simpl; [done|lia|done|done].
Qed.

Lemma grown_decision_get_child r a : steady grown (d_get_child r a).
Proof.
  apply grown_read. intros σ. unfold d_get_child, bind, get_decision.
  destruct (dheap σ !! r) as [d|]; [|done]. by destruct (dict_get a _).
Qed.

Lemma grown_chance_get_child c (o : Obs) : steady grown (c_get_child c o).
Proof.
  intros σ. unfold c_get_child.
  destruct (cheap σ !! c) as [cn|] eqn:Hc; last first.
  { unfold bind at 1, get_chance. rewrite Hc. apply grown_refl. }
  rewrite (bind_Ok _ _ _ _ _ (get_chance_Ok _ _ _ Hc)).
  set (key := str_obs o). set (cap := max_next_states_count (config σ)).
  assert (∀ u : unit, steady grown
            (bind (get_chance c) (λ cn',
               match dict_get key (c_children cn') with
               | Some child => ret child
               | None => raise (KeyError key)
               end))) as Hlast.
  { intros _. apply grown_bind; [apply grown_read, get_chance_read|].
    intros cn'. by destruct (dict_get _ _); apply grown_read. }
  destruct (dict_in key (c_children cn)) eqn:Hin.
  { apply grown_bind; [by apply grown_read|done]. }
  apply dict_in_false in Hin.
  unfold bind at 1. unfold get_config, bind at 1; simpl. fold cap.
  destruct (first_placeholder cap (c_children cn)) as [i|] eqn:Hfirst;
    [|apply grown_refl].
  apply first_placeholder_Some in Hfirst as [Hi [child Hchild]].
  rewrite Hchild.
  rewrite (bind_Ok _ _ _ _ _ (modify_chance_Ok _ _ _ _ Hc)).
  match goal with
  | |- grown _ (final_state match ?rest ?σ1 with _ => _ end) =>
      assert (grown σ σ1) as Hstep;
      [|assert (steady grown (bind rest (λ _,
           bind (get_chance c) (λ cn',
             match dict_get key (c_children cn') with
             | Some child => ret child
             | None => raise (KeyError key)
             end)))) as Hrest]
  end.
  - apply (grown_store_chance σ c cn); [done|].
    destruct (children_kept_rekey cap cn key i child Hi Hin Hchild)
      as (Hcount & Hkids & Hkeys).
    split_and!; [done|lia|done|done].
  - apply grown_bind; [|done].
    apply grown_bind; [by apply grown_modify_decision|]. intros _.
    apply grown_bind; [apply grown_get_node|]. intros node.
    apply grown_modify_decision. intros d.
    split_and!; simpl; [lia|set_solver|done].
  - eapply grown_trans; [exact Hstep|]. apply Hrest.
Qed.

Lemma grown_run_iteration (st : EnvState) (o : Obs) queue :
  steady grown (run_iteration st o queue).
Proof.
  unfold run_iteration.
  apply grown_bind; [apply grown_get_node|]. intros dn.
  apply grown_bind; [apply grown_sampling_rule|]. intros a.
  apply grown_bind; [apply grown_decision_get_child|]. intros cn.
  destruct (env_step st a) as [[[st1 o1] reward] done].
  apply grown_bind; [apply grown_chance_get_child|]. intros next.
  apply grown_bind; [apply grown_decision_update|]. intros _.
  apply grown_bind; [apply grown_chance_update|]. intros _.
  apply grown_bind; [apply grown_decision_update|]. intros _.
  by apply grown_read.
Qed.

Lemma grown_run_loop h :
  ∀ (st : EnvState) (o : Obs) queue last,
    steady grown (run_loop h st o queue last).
Proof.
  induction h as [|h IH]; intros st o queue last; simpl.
  - by apply grown_read.
  - apply grown_bind; [apply grown_run_iteration|].
    intros [[[st1 o1] queue1] dn]. apply IH.
Qed.

Lemma grown_pvi_loop fuel queue σ res :
  pvi_loop fuel queue σ = Some res → grown σ (final_state res).
Proof. intros Hrun. by eapply value_frame_grown, value_frame_pvi_loop. Qed.

Lemma grown_run fuel (st : EnvState) (o : Obs) σ res :
  run fuel st o σ = Some res → grown σ (final_state res).
Proof.
  unfold run. destruct (randint _ _) as [seed g].
  set (σ0 := set_np_random g σ).
  assert (grown σ σ0) as Hseed by (by apply grown_same).
  match goal with
  | |- match ?prog σ0 with _ => _ end = _ → _ =>
      assert (steady grown prog) as Hprog
  end.
  { apply grown_bind; [by apply grown_read|]. intros cfg.
    apply grown_bind; [apply grown_read, config_key_read|]. intros h.
    apply grown_run_loop. }
  specialize (Hprog σ0).
  match goal with
  | |- match ?prog σ0 with _ => _ end = _ → _ =>
      destruct (prog σ0) as [[queue [dn|]] σ1|e σ1]
  end; cbn [final_state] in Hprog.
  - unfold partial_value_iteration. intros Hloop.
    eapply grown_trans; [exact Hseed|].
    eapply grown_trans; [exact Hprog|]. by eapply grown_pvi_loop.
  - intros [= <-]. exact (grown_trans _ _ _ Hseed Hprog).
  - intros [= <-]. exact (grown_trans _ _ _ Hseed Hprog).
Qed.


(** ** Capacity of chance nodes *)

Lemma sized_grown σ σ' : sized σ → grown σ σ' → sized σ'.
Proof.
  intros Hsized (Hcfg & _ & _ & _ & _ & Hc & Hnew) c cn' Hcn'.
  rewrite Hcfg.
  destruct (decide (c < length (cheap σ))) as [Hold|Hge].
  - destruct (lookup_lt_is_Some_2 _ _ Hold) as [cn Hcn].
    destruct (Hc _ _ Hcn) as (cn'' & Hcn'' & Hg). simplify_eq.
    rewrite (chance_grown_length _ _ _ Hg). by apply (Hsized c).
  - apply (Hnew c); [done|lia].
Qed.

Lemma sized_same σ σ' :
  cheap σ' = cheap σ →
  max_next_states_count (config σ') = max_next_states_count (config σ) →
  sized σ → sized σ'.
Proof.
  intros Hc Hcfg Hsized c cn Hcn. rewrite Hc in Hcn. rewrite Hcfg.
  by apply (Hsized c).
Qed.

Lemma reset_chance_store σ :
  cheap (final_state (reset σ)) = cheap σ
  ∧ max_next_states_count (config (final_state (reset σ)))
    = max_next_states_count (config σ).
Proof.
  unfold reset, new_decision_node, get_config, alloc_decision,
    get_env_actions, bind, ret; simpl.
  destruct (horizon (config σ)); simpl; [done|].
  destruct (budget (config σ)); simpl; [|done].
  by destruct (allocation _ _).
Qed.

Lemma get_node_returns (o : Obs) st σ :
  ∃ r σ', get_node o st σ = Ok r σ' ∧ nodes σ' !! str_obs o = Some r.
Proof.
  unfold get_node, get_nodes, bind at 1.
  destruct (nodes σ !! str_obs o) as [r|] eqn:Hk; [by exists r, σ|].
  unfold new_decision_node, get_config, alloc_decision, bind, ret.
  eexists _, _. split; [done|]. cbn [nodes set_nodes]. apply lookup_insert_eq.
Qed.

Lemma plan_root_run (st : EnvState) (o : Obs) σ :
  ∃ r σ0, get_node o (Some st) σ = Ok r σ0
          ∧ plan_root st o σ = Ok tt (set_root r σ0)
          ∧ nodes σ0 !! str_obs o = Some r
          ∧ grown σ σ0.
Proof.
  destruct (get_node_returns o (Some st) σ) as (r & σ0 & Hrun & Hk).
  exists r, σ0. split_and!; [done| |done|].
  - unfold plan_root. by rewrite (bind_Ok _ _ _ _ _ Hrun).
  - pose proof (grown_get_node o (Some st) σ) as Hg. by rewrite Hrun in Hg.
Qed.

Lemma reachable_sized σ : reachable σ → sized σ.
Proof.
  induction 1 as
    [cfg actions g|σ _ IH|σ st o _ IH|σ st o queue _ IH
    |σ fuel self queue res _ IH Hrun|σ fuel st o res _ IH Hrun
    |σ r _ IH|σ r _ IH].
  - intros c cn Hc. cbn [cheap new_planner] in Hc.
    by rewrite lookup_nil in Hc.
  - destruct (reset_chance_store σ) as [Hc Hcfg]. by eapply sized_same.
  - destruct (plan_root_run st o σ) as (r & σ0 & _ & -> & _ & Hg).
    cbn [final_state]. apply (sized_same σ0); [done|done|].
    by eapply sized_grown.
  - eapply sized_grown; [done|apply grown_run_iteration].
  - eapply sized_grown; [done|]. by eapply grown_pvi_loop.
  - eapply sized_grown; [done|]. by eapply grown_run.
  - eapply sized_grown; [done|apply grown_sampling_rule].
  - eapply sized_grown; [done|apply grown_selection_rule].
Qed.

(** X18. The capacity of chance nodes is fixed.  In every reachable
    planner each chance node has exactly [max_next_states_count] children,
    placeholders included: claiming a placeholder for an observation
    replaces one key by another and neither adds nor drops a child.  So
    the distinct keys under which a chance node has children, and with
    them the observations it has seen, never outnumber the configured
    capacity. *)
Theorem chance_capacity_is_fixed σ c cn :
  reachable σ →
  cheap σ !! c = Some cn →
  length (c_children cn) = max_next_states_count (config σ)
  ∧ ∀ keys : list string,
      NoDup keys →
      (∀ k, k ∈ keys → is_Some (dict_get k (c_children cn))) →
      length keys ≤ max_next_states_count (config σ).
Proof.
  intros Hreach Hc. pose proof (reachable_sized σ Hreach c cn Hc) as Hsize.
  split; [done|]. intros keys Hnodup Hkeys. rewrite <-Hsize.
  rewrite <-(length_fmap fst (c_children cn)).
  apply submseteq_length, NoDup_submseteq; [done|].
  intros k Hk. destruct (decide (k ∈ (c_children cn).*1)) as [|Hno]; [done|].
  apply dict_get_None_keys in Hno. destruct (Hkeys k Hk) as [r Hr]. congruence.
Qed.

(** X19. Children have one owner.  In every reachable planner the child
    objects of a chance node exist, a chance node holds no child twice,
    no object is the child of two chance nodes, and the nodes of the node
    table exist and are the children of no chance node: the statistics
    of a transition (s, a, s') are never shared, only the value of s'. *)
Theorem children_have_one_owner σ :
  reachable σ →
  (∀ c cn r, cheap σ !! c = Some cn → r ∈ kids cn → is_Some (dheap σ !! r))
  ∧ (∀ c cn, cheap σ !! c = Some cn → NoDup (kids cn))
  ∧ (∀ c1 c2 cn1 cn2 r,
       cheap σ !! c1 = Some cn1 → cheap σ !! c2 = Some cn2 →
       r ∈ kids cn1 → r ∈ kids cn2 → c1 = c2)
  ∧ (∀ k r, nodes σ !! k = Some r →
            is_Some (dheap σ !! r) ∧ unowned σ r).
Proof.
  intros Hreach.
  pose proof (reachable_graph_inv False σ (λ H, False_rect _ H) Hreach) as HI.
  split_and!.
  - intros c cn r Hc Hr. apply lookup_lt_is_Some.
    by eapply inv_kids_valid.
  - intros c cn Hc. by eapply inv_kids_nodup.
  - intros c1 c2 cn1 cn2 r. by eapply inv_kids_disjoint.
  - intros k r Hk. split.
    + apply lookup_lt_is_Some. by eapply inv_nodes_valid.
    + by eapply inv_canonical.
Qed.

(** ** Planning *)

Lemma grown_plan_loop fuel n :
  ∀ (st : EnvState) (o : Obs) σ res,
    plan_loop fuel n st o σ = Some res → grown σ (final_state res).
Proof.
  induction n as [|n IH]; intros st o σ res; simpl.
  - intros [= <-]. apply grown_refl.
  - destruct (run fuel st o σ) as [[[] σ1|e σ1]|] eqn:Hrun; [| |done].
    + intros Hloop. eapply grown_trans; [|by eapply IH].
      by apply (grown_run fuel st o σ (Ok tt σ1)).
    + intros [= <-]. by apply (grown_run fuel st o σ (Raise e σ1)).
Qed.

Lemma reachable_plan_loop fuel n :
  ∀ (st : EnvState) (o : Obs) σ res,
    reachable σ → plan_loop fuel n st o σ = Some res →
    reachable (final_state res).
Proof.
  induction n as [|n IH]; intros st o σ res Hreach; simpl.
  - by intros [= <-].
  - destruct (run fuel st o σ) as [[[] σ1|e σ1]|] eqn:Hrun; [| |done].
    + apply IH. by apply (reach_run σ fuel st o (Ok tt σ1)).
    + intros [= <-]. by apply (reach_run σ fuel st o (Raise e σ1)).
Qed.

(** X20. Planning keeps its root.  Whenever the search of [plan] ends,
    after all episodes or with the exception of one of them, the root is
    the node that the node table holds for the planned observation, the
    configuration is the one the search started with, and the node table
    has kept all its entries.  Without "episodes" in the configuration
    the search raises [KeyError("episodes")] once the root is chosen, and
    with 0 episodes it returns at that point.  A search that starts in a
    reachable planner ends in one. *)
Theorem plan_keeps_root σ fuel (st : EnvState) (o : Obs) res :
  plan_search fuel st o σ = Some res →
  let σ' := final_state res in
  nodes σ' !! str_obs o = Some (root σ')
  ∧ config σ' = config σ
  ∧ nodes σ ⊆ nodes σ'
  ∧ (episodes (config σ) = None →
     res = Raise (KeyError "episodes") (final_state (plan_root st o σ)))
  ∧ (episodes (config σ) = Some 0 → res = plan_root st o σ)
  ∧ (reachable σ → reachable σ').
Proof.
  unfold plan_search. intros Hrun.
  destruct (plan_root_run st o σ) as (r & σ0 & Hnode & Hroot & Hk & Hg).
  pose proof (reach_root σ st o) as Hreach.
  rewrite Hroot in Hrun, Hreach |- *. cbn [final_state] in *.
  destruct Hg as (Hcfg & _ & _ & Hnodes & _).
  change (config (set_root r σ0)) with (config σ0) in Hrun.
  rewrite Hcfg in Hrun.
  destruct (episodes (config σ)) as [n|] eqn:He.
  - pose proof (grown_plan_loop _ _ _ _ _ _ Hrun)
      as (Hcfg' & _ & Hroot' & Hnodes' & _).
    cbn [config root nodes set_root] in *.
    split_and!.
    + rewrite Hroot'. by eapply lookup_weaken.
    + congruence.
    + by etrans.
    + done.
    + intros [= ->]. simpl in Hrun. by injection Hrun as <-.
    + intros Hσ. eapply reachable_plan_loop; [|exact Hrun]. auto.
  - injection Hrun as <-. cbn [final_state config root nodes set_root].
    split_and!; try done; auto.
Qed.

(** ** The action rules answer with an action of the node *)

Lemma get_decision_inv σ r d σ' :
  get_decision r σ = Ok d σ' → dheap σ !! r = Some d ∧ σ' = σ.
Proof.
  unfold get_decision. destruct (dheap σ !! r); [|done]. by intros [= -> ->].
Qed.

Lemma decision_backup_keys σ r f qs σ' :
  d_backup r f σ = Ok qs σ' →
  ∃ d, dheap σ !! r = Some d ∧ qs.*1 = (d_children d).*1
       ∧ dheap σ' = dheap σ.
Proof.
  intros Hrun. pose proof (steady_decision_backup r f σ) as Hframe.
  rewrite Hrun in Hframe. destruct Hframe as (_ & _ & _ & _ & Hd & _).
  unfold d_backup in Hrun.
  apply bind_Ok_inv in Hrun as (d & σ0 & [Hr ->]%get_decision_inv & Hrun).
  apply mapM_backups_in_turn, backups_in_turn_actions in Hrun. eauto.
Qed.

Lemma argmax_choice_has_child σ r f qs σ1 a σ' :
  d_backup r f σ = Ok qs σ1 →
  bind (call_random_argmax (qs.*2)) (list_index (qs.*1)) σ1 = Ok a σ' →
  ∃ c, d_get_child r a σ' = Ok c σ'.
Proof.
  intros (d & Hr & Hkeys & Hd)%decision_backup_keys Hrun.
  apply bind_Ok_inv in Hrun as (i & σ2 & Hargmax & Hrun).
  assert (dheap σ2 = dheap σ1) as Hd2.
  { unfold call_random_argmax in Hargmax.
    destruct (random_argmax _ _) as [[j|] g]; [|done].
    by injection Hargmax as _ <-. }
  unfold list_index in Hrun.
  destruct (qs.*1 !! i) as [a'|] eqn:Hi; [|done].
  injection Hrun as -> ->.
  assert (a ∈ (d_children d).*1) as Ha.
  { rewrite <-Hkeys. by eapply list_elem_of_lookup_2. }
  destruct (dict_get a (d_children d)) as [c|] eqn:Hc; last first.
  { by apply dict_get_None_keys in Hc. }
  exists c. unfold d_get_child.
  assert (dheap σ' !! r = Some d) as Hr' by (by rewrite Hd2, Hd).
  rewrite (bind_Ok _ _ _ _ _ (get_decision_Ok _ _ _ Hr')). by rewrite Hc.
Qed.

(** X21. The action rules answer with an action of the node.  Whenever the
    sampling rule or the selection rule returns an action, the node has a
    chance node for it in the state the rule leaves: [get_child] of that
    action succeeds there and changes nothing, so the lookup that follows
    the sampling rule in [run] cannot raise [KeyError]. *)
Theorem chosen_action_has_chance_node σ r a σ' :
  (sampling_rule r σ = Ok a σ' → ∃ c, d_get_child r a σ' = Ok c σ')
  ∧ (selection_rule r σ = Ok a σ' → ∃ c, d_get_child r a σ' = Ok c σ').
Proof.
  split.
  - unfold sampling_rule. intros Hrun.
    apply bind_Ok_inv in Hrun as (d & σ0 & _ & Hrun).
    apply bind_Ok_inv in Hrun as ([] & σ1 & _ & Hrun).
    apply bind_Ok_inv in Hrun as (qs & σ2 & Hbackup & Hrun).
    by eapply argmax_choice_has_child.
  - unfold selection_rule. intros Hrun.
    apply bind_Ok_inv in Hrun as (qs & σ2 & Hbackup & Hrun).
    by eapply argmax_choice_has_child.
Qed.

End Proofs.

(** * The statements on concrete planners *)

Module OnNumbers.
Import Fixture Fixture.NatEnv.

(** The order of the rationals has the facts the statements use. *)
Lemma Q_gtb_lt (x y : Q) : Fixture.Q_gtb x y = true ↔ (y < x)%Q.
Proof.
  unfold Fixture.Q_gtb. rewrite negb_true_iff, <-not_true_iff_false.
  rewrite Qle_bool_iff. split; [apply Qnot_le_lt|apply Qlt_not_le].
Qed.

Lemma Q_gtb_false (x y : Q) : Fixture.Q_gtb x y = false ↔ (x <= y)%Q.
Proof.
  unfold Fixture.Q_gtb. rewrite negb_false_iff. apply Qle_bool_iff.
Qed.

#[export] Instance Q_order : NumericOrder Q.
Proof.
  split.
  - intros x. apply Q_gtb_false, Qle_refl.
  - intros x y z. rewrite !Q_gtb_lt. intros Hxy Hyz. by eapply Qlt_trans.
  - intros x y z. rewrite !Q_gtb_lt. intros Hxy.
    destruct (Qlt_le_dec z x) as [Hzx|Hxz]; [by left|right].
    by eapply Qlt_le_trans.
  - intros x. apply Q_gtb_false, Qabs_nonneg.
Qed.

Lemma fixture_keeps_support : keeps_support (imported := Fixture.imports).
Proof. by intros values q t. Qed.

Lemma fixture_lists_members_once :
  lists_members_once (set_iteration := Fixture.by_reference).
Proof. by intros r s. Qed.

Lemma numbers_no_collision : no_collision (environment := Fixture.NatEnv.nat_env).
Proof. intros o i Heq. cbn in Heq. discriminate Heq. Qed.


(** C7 on the second chance node of the explored planner, which was never
    visited. *)
Lemma chance_backup_unvisited_witness :
  cheap explored !! 1 = Some (chance_at explored 1)
  ∧ (c_backup 1 value_upper explored = Ok 1%Q explored
     ∧ final_state (c_backup 1 value_upper explored) = explored)
  ∧ (c_backup 1 value_lower explored = Ok 0%Q explored
     ∧ final_state (c_backup 1 value_lower explored) = explored).
Proof.
  split; [reflexivity|]. split.
  - apply (chance_backup_unvisited explored 1 (chance_at explored 1)
             value_upper); reflexivity.
  - apply (chance_backup_unvisited explored 1 (chance_at explored 1)
             value_lower); reflexivity.
Defined.

(** C5 on the visited child of the explored planner: two visits with
    reward 1 each, threshold expression ["0"]. *)
Lemma reward_bounds_collapse_witness :
  let d := decision_at explored 2 in
  let d' := set_mu_lcb (empirical_mean d) (set_mu_ucb (empirical_mean d) d) in
  d_count d = 2
  ∧ compute_reward_ucb 2 explored
    = Ok tt (set_dheap (<[2 := d']> (dheap explored)) explored)
  ∧ mu_ucb d' = empirical_mean d
  ∧ mu_lcb d' = empirical_mean d
  ∧ mu_lcb d' = mu_ucb d'.
Proof.
  split; [reflexivity|].
  apply (reward_bounds_collapse explored 2 (decision_at explored 2) 2 3);
    [reflexivity|vm_compute; lia|reflexivity|reflexivity|reflexivity
    |reflexivity].
Defined.

(** C10 on a planner with budget 1 and two actions: the allocation is made
    for 2. *)
Lemma reset_allocates_from_max_witness :
  ∃ σ', reset unplanned = Ok tt σ'
        ∧ config σ' = set_allocation 2 1 (config unplanned)
        ∧ episodes (config σ') = Some 2
        ∧ horizon (config σ') = Some 1
        ∧ int_max (env_actions unplanned) 1 = Nat.max (env_actions unplanned) 1
        ∧ env_actions unplanned ≤ int_max (env_actions unplanned) 1
        ∧ 1 ≤ int_max (env_actions unplanned) 1.
Proof.
  exact (reset_allocates_from_max unplanned 1 eq_refl eq_refl).
Defined.


(** C6 on the first chance node of the explored planner: two visits, a
    placeholder child never visited and the child of observation 0 visited
    twice.  The upper backup stores the distribution (0, 1) twice and the
    value 3/2, the lower backup the value 1. *)
Lemma chance_backup_visited_witness :
  let cn := chance_at explored 0 in
  let distribution := empirical_distribution cn [0; 2] in
  let threshold := kl_transition_threshold explored cn 2 3 in
  let u_next := [(1 + (1 # 2) * 1)%Q; ((2 # 2) + (1 # 2) * 1)%Q] in
  let l_next := [(0 + (1 # 2) * 0)%Q; ((2 # 2) + (1 # 2) * 0)%Q] in
  let optimistic :=
    max_expectation_under_constraint u_next distribution threshold in
  let conservative :=
    max_expectation_under_constraint (opp <$> l_next) distribution threshold in
  (∃ σ' cn',
     c_backup 0 value_upper explored = Ok (dot optimistic u_next) σ'
     ∧ cheap σ' !! 0 = Some cn'
     ∧ p_hat cn' = Some [(0 # 2)%Q; (2 # 2)%Q]
     ∧ p_plus cn' = Some [(0 # 2)%Q; (2 # 2)%Q]
     ∧ (c_value_upper cn' == 3 # 2)%Q
     ∧ c_value_lower cn' = c_value_lower cn
     ∧ p_minus cn' = p_minus cn
     ∧ same_links cn cn'
     ∧ dheap σ' = dheap explored)
  ∧ (∃ σ' cn',
       c_backup 0 value_lower explored = Ok (dot conservative l_next) σ'
       ∧ cheap σ' !! 0 = Some cn'
       ∧ p_hat cn' = Some [(0 # 2)%Q; (2 # 2)%Q]
       ∧ p_minus cn' = Some [(0 # 2)%Q; (2 # 2)%Q]
       ∧ (c_value_lower cn' == 1)%Q
       ∧ c_value_upper cn' = c_value_upper cn
       ∧ p_plus cn' = p_plus cn
       ∧ same_links cn cn'
       ∧ dheap σ' = dheap explored).
Proof.
  intros cn distribution threshold u_next l_next optimistic conservative.
  assert (children_counts explored cn [0; 2]) as Hcounts.
  { repeat constructor; eexists; (split; [reflexivity|reflexivity]). }
  destruct (chance_backup_visited explored 0 cn 2 3 [0; 2] eq_refl
              ltac:(vm_compute; lia) eq_refl eq_refl Hcounts) as [Hu Hl].
  split.
  - destruct (Hu u_next) as (σ' & cn' & Hrun & _ & Hnode & Hhat & Hplus
                             & Hvalue & Hminus & Hother & Hlinks & _ & Hdheap).
    { repeat constructor; do 2 eexists; (split; [reflexivity|]);
        (split; [reflexivity|reflexivity]). }
    { reflexivity. }
    exists σ', cn'. split; [exact Hrun|]. split; [exact Hnode|].
    split; [rewrite Hhat; reflexivity|].
    split; [rewrite Hplus; reflexivity|].
    split; [rewrite Hvalue; vm_compute; reflexivity|].
    split; [exact Hother|]. split; [exact Hminus|].
    split; [exact Hlinks|exact Hdheap].
  - destruct (Hl l_next) as (σ' & cn' & Hrun & _ & Hnode & Hhat & Hminus
                             & Hvalue & Hplus & Hother & Hlinks & _ & Hdheap).
    { repeat constructor; do 2 eexists; (split; [reflexivity|]);
        (split; [reflexivity|reflexivity]). }
    { reflexivity. }
    exists σ', cn'. split; [exact Hrun|]. split; [exact Hnode|].
    split; [rewrite Hhat; reflexivity|].
    split; [rewrite Hminus; reflexivity|].
    split; [rewrite Hvalue; vm_compute; reflexivity|].
    split; [exact Hother|]. split; [exact Hplus|].
    split; [exact Hlinks|exact Hdheap].
Defined.



(** C3 as stated fails: on the node of observation 0 in the explored
    planner, [backup("value_lower")] returns a dictionary with one entry
    per action, the non-maximal value of action 1 included, and not the
    maximum of the values. *)
Lemma decision_backup_counterexample :
  ∃ σ', d_backup 1 value_lower explored = Ok [(0, 32 # 32); (1, 0%Q)] σ'
        ∧ amax (32 # 32) [0%Q] = (32 # 32)
        ∧ PyDict [(0, 32 # 32); (1, 0%Q)] ≠ PyNumber (amax (32 # 32) [0%Q]).
Proof.
  eexists. split; [vm_compute; reflexivity|]. split; [reflexivity|].
  intros Heq. discriminate Heq.
Defined.

(** C3, as amended, on the same call. *)
Lemma decision_backup_is_mapping_witness :
  let qs := [(0, 32 # 32); (1, 0%Q)] in
  let σ' := final_state (d_backup 1 value_lower explored) in
  dheap explored !! 1 = Some (decision_at explored 1)
  ∧ d_backup 1 value_lower explored = Ok qs σ'
  ∧ backups_in_turn value_lower [(0, 0); (1, 1)] explored qs σ'
  ∧ qs.*1 = [0; 1] ∧ length qs = 2
  ∧ (∀ m : Q, PyDict qs ≠ PyNumber m)
  ∧ ∃ qs0 σ0, d_backup 1 value_lower explored = Ok qs0 σ0.
Proof.
  intros qs σ'. split; [reflexivity|].
  assert (d_backup 1 value_lower explored = Ok qs σ') as Hrun
    by (vm_compute; reflexivity).
  split; [exact Hrun|].
  destruct (decision_backup_is_mapping explored 1 (decision_at explored 1)
              value_lower eq_refl) as (Hiff & Hshape & Hreturns).
  split; [exact (proj1 (Hiff qs σ') Hrun)|].
  destruct (Hshape qs σ' Hrun) as (Hkeys & Hlen & Hdict).
  split; [exact Hkeys|]. split; [exact Hlen|]. split; [exact Hdict|].
  apply Hreturns; [exact fixture_keeps_support|].
  apply backup_ready_check_sound. vm_compute. reflexivity.
Defined.

(** C4 as stated fails: on the node of observation 0 before it has
    children, the sampling rule creates the two chance nodes, and so would
    a selection rule that expands; the selection rule of the program
    creates none and ends in the argmax of an empty list. *)
Lemma selection_rule_counterexample :
  d_children (decision_at arrived 1) = []
  ∧ selection_rule 1 arrived ≠ rule_with_expansion 1 value_lower arrived
  ∧ cheap (final_state (selection_rule 1 arrived)) = []
  ∧ d_children (decision_at (final_state (selection_rule 1 arrived)) 1) = []
  ∧ length (cheap (final_state (rule_with_expansion 1 value_lower arrived))) = 2
  ∧ length (cheap (final_state (sampling_rule 1 arrived))) = 2.
Proof.
  split; [reflexivity|]. split.
  - intros Heq.
    assert (cheap (final_state (selection_rule 1 arrived))
            = cheap (final_state (rule_with_expansion 1 value_lower arrived)))
      as Hcheap by (by rewrite Heq).
    vm_compute in Hcheap. discriminate Hcheap.
  - by vm_compute.
Defined.

(** C4, as amended: on the childless node, and on the same node once the
    episode loop has expanded it. *)
Lemma selection_rule_never_expands_witness :
  (selection_rule 1 arrived
   = bind (call_random_argmax []) (list_index []) arrived
   ∧ dheap (final_state (selection_rule 1 arrived)) = dheap arrived
   ∧ cheap (final_state (selection_rule 1 arrived)) = cheap arrived)
  ∧ sampling_rule 1 explored = rule_with_expansion 1 value_upper explored
  ∧ selection_rule 1 explored = rule_with_expansion 1 value_lower explored.
Proof.
  destruct (selection_rule_never_expands arrived 1 (decision_at arrived 1)
              eq_refl) as (_ & _ & Hempty).
  destruct (selection_rule_never_expands explored 1 (decision_at explored 1)
              eq_refl) as (Hsampling & Hchildren & _).
  split; [exact (Hempty eq_refl)|]. split; [exact Hsampling|].
  apply Hchildren. intros Hnil. vm_compute in Hnil. discriminate Hnil.
Defined.

(** C8 as stated fails: the node of observation 0 has no children before
    it is expanded; the pass for it raises [ValueError], its bounds are
    not recomputed, the planner is as before, and no number of passes
    makes the procedure return. *)
Lemma partial_value_iteration_counterexample :
  dheap arrived !! 1 = Some (decision_at arrived 1)
  ∧ d_children (decision_at arrived 1) = []
  ∧ partial_value_iteration 1 1 (Some [1]) arrived
    = Some (Raise (ValueError empty_maximum_message) arrived)
  ∧ partial_value_iteration 1 1 None arrived
    = Some (Raise (ValueError empty_maximum_message) arrived)
  ∧ reports_error (pvi_iteration 1 [] arrived)
  ∧ ¬ (∃ fuel σ', partial_value_iteration fuel 1 (Some [1]) arrived
                  = Some (Ok tt σ')).
Proof.
  assert (pvi_iteration 1 [] arrived
          = Raise (ValueError empty_maximum_message) arrived) as Hpass
    by (vm_compute; reflexivity).
  split; [reflexivity|]. split; [reflexivity|].
  split; [vm_compute; reflexivity|]. split; [vm_compute; reflexivity|].
  split; [rewrite Hpass; eexists _, _; reflexivity|].
  intros (fuel & σ' & Hrun). unfold partial_value_iteration in Hrun.
  destruct fuel as [|fuel]; cbn [pvi_loop] in Hrun; [discriminate Hrun|].
  rewrite Hpass in Hrun. discriminate Hrun.
Defined.

(** C8, as amended, on the explored planner: one pass for the node of
    observation 0, which has two chance nodes and is its own parent.  The
    bounds 0 and 1 become 1 and 3/2, the node is queued again, and the
    iteration goes on from there. *)
Lemma partial_value_iteration_pass_witness :
  let d := decision_at explored 1 in
  let σ' := final_state (pvi_iteration 1 [] explored) in
  let d' := decision_at σ' 1 in
  (d_value_lower d == 0)%Q ∧ (d_value_upper d == 1)%Q
  ∧ pvi_iteration 1 [] explored = Ok [1] σ'
  ∧ dheap σ' !! 1 = Some d'
  ∧ (d_value_lower d' == 1)%Q ∧ (d_value_upper d' == 3 # 2)%Q
  ∧ same_but_values d d'
  ∧ (∀ r, r ≠ 1 → dheap σ' !! r = dheap explored !! r)
  ∧ list_of_set 1 (d_parents d) = [1]
  ∧ partial_value_iteration 20 1 (Some [1]) explored
    = partial_value_iteration 19 1 (Some [1]) σ'
  ∧ partial_value_iteration 19 1 None explored
    = partial_value_iteration 19 1 (Some [1]) explored
  ∧ partial_value_iteration 19 1 (Some []) σ' = Some (Ok tt σ')
  ∧ ∃ σ'', partial_value_iteration 20 1 None explored = Some (Ok tt σ'')
           ∧ empties [1] explored σ''.
Proof.
  intros d σ' d'.
  assert (pvi_iteration 1 [] explored = Ok [1] σ') as Hpass
    by (vm_compute; reflexivity).
  assert (backup_ready explored) as Hready.
  { apply backup_ready_check_sound. vm_compute. reflexivity. }
  assert (d_children d ≠ []) as Hne.
  { intros Hnil. vm_compute in Hnil. discriminate Hnil. }
  destruct (partial_value_iteration_pass explored 1 1 [] d 19
              fixture_keeps_support fixture_lists_members_once Hready eq_refl)
    as (Hstep & _ & Hempty & Hnone & Hiff).
  destruct (Hstep Hne)
    as (ql & σ1 & qu & σ2 & d0 & queue' & σ0 & _ & _ & _ & _ & Hrun & Hd0
        & _ & _ & Hsame & Hothers & _ & _ & _ & Hnext).
  rewrite Hpass in Hrun. injection Hrun as <- <-.
  assert (d' = d0) as Hd'.
  { unfold d', decision_at. by rewrite Hd0. }
  split; [vm_compute; reflexivity|]. split; [vm_compute; reflexivity|].
  split; [exact Hpass|]. split; [by rewrite Hd'|].
  split; [vm_compute; reflexivity|]. split; [vm_compute; reflexivity|].
  split; [by rewrite Hd'|]. split; [exact Hothers|].
  split; [vm_compute; reflexivity|]. split; [exact Hnext|].
  split; [exact (Hnone explored)|]. split; [exact (Hempty σ')|].
  destruct (partial_value_iteration 20 1 None explored) as [[[] σ''|e σ'']|]
    eqn:Hwhole.
  - exists σ''. split; [reflexivity|].
    apply (proj1 (Hiff [1] explored σ'')). by exists 20.
  - vm_compute in Hwhole. discriminate Hwhole.
  - vm_compute in Hwhole. discriminate Hwhole.
Defined.

Lemma explored_reachable : reachable explored.
Proof.
  assert (fresh = final_state (reset (new_planner (cfg (kl_bound "0") 2) 2 tt)))
    as Hfresh by (vm_compute; reflexivity).
  assert (halfway = final_state (run_iteration 0 0 [] fresh)) as Hhalf
    by (vm_compute; reflexivity).
  assert (explored = final_state (run_iteration 0 0 [1] halfway)) as ->
    by (vm_compute; reflexivity).
  apply reach_pass. rewrite Hhalf. apply reach_pass. rewrite Hfresh.
  apply reach_reset, reach_new.
Qed.


(** ** Further properties on concrete planners *)


(** X2 on the visited child of the explored planner, once without horizon
    and once without episodes. *)
Lemma update_missing_key_witness :
  let d := decision_at explored 2 in
  d_update 2 (Some 1%Q) without_horizon
  = Raise (KeyError "horizon") (store_decision 2 (counted 1%Q d) without_horizon)
  ∧ d_update 2 (Some 1%Q) without_episodes
    = Raise (KeyError "episodes")
        (store_decision 2 (counted 1%Q d) without_episodes)
  ∧ d_count (counted 1%Q d) = 3
  ∧ mu_ucb (counted 1%Q d) = mu_ucb d.
Proof.
  intros d.
  destruct (update_missing_key without_horizon 2 d 1%Q eq_refl eq_refl)
    as (Hhorizon & _ & Hucb & _ & Hcount & _).
  destruct (update_missing_key without_episodes 2 d 1%Q eq_refl eq_refl)
    as (_ & Hepisodes & _).
  split; [exact (Hhorizon eq_refl)|].
  split; [exact (Hepisodes (ex_intro _ 2 eq_refl) eq_refl)|].
  split; [exact Hcount|exact Hucb].
Defined.

(** X3 on the root after [reset], which was never visited: the update with
    reward 1 returns and both bounds are (0 + 1) / (0 + 1). *)
Lemma update_never_divides_by_zero_witness :
  d_count (decision_at fresh 0) = 0
  ∧ ∃ d', d_update 0 (Some 1%Q) fresh = Ok tt (store_decision 0 d' fresh)
          ∧ d_count d' = 1
          ∧ mu_ucb d' = ((0 + 1) / inject_Z 1)%Q
          ∧ mu_lcb d' = ((0 + 1) / inject_Z 1)%Q.
Proof.
  split; [reflexivity|].
  destruct (update_never_divides_by_zero fresh 0 (decision_at fresh 0) 1%Q 2 3
              eq_refl eq_refl eq_refl eq_refl)
    as (d' & Hrun & Hcount & _ & Hzero & _).
  exists d'. split; [exact Hrun|]. split; [exact Hcount|].
  exact (Hzero eq_refl).
Defined.

(** X4 on the root after [reset], which has no state and no children. *)
Lemma expand_needs_state_witness :
  actions_list 0 fresh = Raise (Exception stateless_message) fresh
  ∧ expand 0 fresh = Raise (Exception stateless_message) fresh
  ∧ sampling_rule 0 fresh = Raise (Exception stateless_message) fresh.
Proof.
  destruct (expand_needs_state fresh 0 (decision_at fresh 0) eq_refl eq_refl)
    as (Hlist & Hexpand & Hrule).
  split; [exact Hlist|]. split; [exact Hexpand|exact (Hrule eq_refl)].
Defined.

(** X6 on the first chance node of the explored planner, whose children
    have counts 0 and 2. *)
Lemma chance_backup_missing_key_witness :
  let cn := chance_at explored 0 in
  c_backup 0 value_upper without_horizon
  = Raise (KeyError "horizon") (store_p_hat 0 cn [0; 2] without_horizon)
  ∧ c_backup 0 value_lower without_episodes
    = Raise (KeyError "episodes") (store_p_hat 0 cn [0; 2] without_episodes)
  ∧ p_hat (chance_at (store_p_hat 0 cn [0; 2] without_horizon) 0)
    = Some [(0 / inject_Z 2)%Q; (inject_Z 2 / inject_Z 2)%Q].
Proof.
  intros cn.
  assert (children_counts without_horizon cn [0; 2]) as Hcounts1.
  { repeat constructor; eexists; (split; [reflexivity|reflexivity]). }
  assert (children_counts without_episodes cn [0; 2]) as Hcounts2.
  { repeat constructor; eexists; (split; [reflexivity|reflexivity]). }
  assert (c_count cn ≠ 0) as Hcount by (vm_compute; lia).
  destruct (chance_backup_missing_key without_horizon 0 cn value_upper [0; 2]
              eq_refl Hcount Hcounts1) as [Hhorizon _].
  destruct (chance_backup_missing_key without_episodes 0 cn value_lower [0; 2]
              eq_refl Hcount Hcounts2) as [_ Hepisodes].
  split; [exact (Hhorizon eq_refl)|].
  split; [exact (Hepisodes (ex_intro _ 2 eq_refl) eq_refl)|reflexivity].
Defined.

(** X7 on the node of observation 0 before it has children. *)
Lemma value_iteration_needs_children_witness :
  pvi_iteration 1 [0] arrived
  = Raise (ValueError empty_maximum_message) arrived
  ∧ pvi_loop 3 [1; 0] arrived
    = Some (Raise (ValueError empty_maximum_message) arrived)
  ∧ partial_value_iteration 3 1 None arrived
    = Some (Raise (ValueError empty_maximum_message) arrived).
Proof.
  exact (value_iteration_needs_children arrived 2 1 [0] (decision_at arrived 1)
           eq_refl eq_refl).
Defined.


(** X9 on the explored planner, whose graph survives the reset, and on a
    planner with neither horizon nor budget. *)
Lemma reset_keeps_graph_witness :
  (reset explored = Ok tt (final_state (reset explored))
   ∧ root (final_state (reset explored)) = 6
   ∧ cheap (final_state (reset explored)) = cheap explored
   ∧ nodes (final_state (reset explored)) = nodes explored
   ∧ config (final_state (reset explored)) = config explored)
  ∧ reset unbudgeted = Raise (KeyError "budget") (final_state (reset unbudgeted))
  ∧ root (final_state (reset unbudgeted)) = 0
  ∧ length (dheap (final_state (reset unbudgeted))) = 1.
Proof.
  destruct (reset_keeps_graph explored)
    as (Hroot & _ & Hcheap & Hnodes & Hok & _).
  destruct (reset_keeps_graph unbudgeted) as (Hroot' & Hd' & _ & _ & _ & Hraise).
  split.
  - destruct (Hok (ex_intro _ 2 eq_refl)) as [Hrun Hcfg].
    split; [exact Hrun|]. split; [exact Hroot|]. split; [exact Hcheap|].
    split; [exact Hnodes|exact Hcfg].
  - split; [exact (proj1 (Hraise eq_refl eq_refl))|].
    split; [exact Hroot'|]. cbv zeta in Hd'. rewrite Hd'. reflexivity.
Defined.

(** X10 for a chance node of the node of observation 0, with room for two
    next states. *)
Lemma new_chance_node_placeholders_witness :
  new_chance_node 1 arrived = Ok 0 (with_chance_node 1 arrived)
  ∧ c_children (chance_at (with_chance_node 1 arrived) 0)
    = [("placeholder_0", 2); ("placeholder_1", 3)]
  ∧ length (placeholder_children 2 2) = 2
  ∧ NoDup ((placeholder_children 2 2).*1).
Proof.
  destruct (new_chance_node_placeholders arrived 1)
    as (Hrun & Hlen & _ & _ & Hnodup & _).
  split; [exact Hrun|]. split; [reflexivity|]. split; [exact Hlen|exact Hnodup].
Defined.


(** X11 on the node of observation 0 before it has children: the state has
    no method for its actions, so they are 0 and 1. *)
Lemma expand_creates_chance_nodes_witness :
  available_actions 0 = [0; 1]
  ∧ ∃ σ' ch,
      expand 1 arrived = Ok tt σ'
      ∧ dheap σ' !! 1 = Some (set_d_children ch (decision_at arrived 1))
      ∧ (∀ a, a ∈ available_actions 0 →
              ∃ c, d_get_child 1 a σ' = Ok c σ' ∧ created_chance arrived σ' 1 c)
      ∧ (∀ a, a ∉ available_actions 0 →
              dict_get a ch = dict_get a (d_children (decision_at arrived 1)))
      ∧ (NoDup (available_actions 0) →
         d_children (decision_at arrived 1) = [] → ch.*1 = available_actions 0)
      ∧ length (cheap σ') = length (cheap arrived) + length (available_actions 0)
      ∧ kept_except 1 arrived σ'.
Proof.
  split; [reflexivity|].
  exact (expand_creates_chance_nodes arrived 1 (decision_at arrived 1) 0
           eq_refl eq_refl).
Defined.

(** X12 on the same node: the sampling rule hands two equal values to the
    argmax. *)
Lemma sampling_rule_on_new_node_witness :
  ∃ σ' (ch : list (nat * nat)),
    expand 1 arrived = Ok tt σ'
    ∧ ch.*1 = [0; 1]
    ∧ d_backup 1 value_upper σ' = Ok ((λ ac, (ac.1, 1%Q)) <$> ch) σ'
    ∧ d_backup 1 value_lower σ' = Ok ((λ ac, (ac.1, 0%Q)) <$> ch) σ'
    ∧ sampling_rule 1 arrived
      = bind (call_random_argmax (replicate (length ch) 1%Q))
          (list_index (ch.*1)) σ'.
Proof.
  destruct (sampling_rule_on_new_node arrived 1 (decision_at arrived 1) 0
              eq_refl eq_refl eq_refl)
    as (σ' & ch & Hexpand & _ & Hkeys & _ & Hbackup & Hrule).
  exists σ', ch. split; [exact Hexpand|].
  split; [apply Hkeys; apply (NoDup_seq 0 2)|].
  split; [exact (Hbackup value_upper)|].
  split; [exact (Hbackup value_lower)|exact Hrule].
Defined.

(** X13 on the first chance node of the explored planner and the new
    observation 5. *)
Lemma chance_get_child_again_witness :
  let σ' := final_state (c_get_child 0 5 explored) in
  c_get_child 0 5 explored = Ok 3 σ'
  ∧ c_get_child 0 5 σ' = Ok 3 σ'.
Proof.
  intros σ'.
  assert (c_get_child 0 5 explored = Ok 3 σ') as Hrun
    by (vm_compute; reflexivity).
  split; [exact Hrun|].
  exact (chance_get_child_again explored 0 5 3 σ' Hrun).
Defined.

(** X14 on the same call: "placeholder_0" is taken, so the first
    placeholder left is "placeholder_1". *)
Lemma chance_get_child_claims_placeholder_witness :
  let cn := chance_at explored 0 in
  c_children cn = [("placeholder_1", 3); ("s0", 2)]
  ∧ str_obs 5 = "s5"
  ∧ ∃ child σ' cn' dchild node dnode,
      dict_get (placeholder_key 1) (c_children cn) = Some child
      ∧ (∀ j, j < 1 → dict_get (placeholder_key j) (c_children cn) = None)
      ∧ c_get_child 0 5 explored = Ok child σ'
      ∧ cheap σ' !! 0 = Some cn'
      ∧ c_children cn'
        = dict_remove (placeholder_key 1) (c_children cn) ++ [(str_obs 5, child)]
      ∧ dict_get (str_obs 5) (c_children cn') = Some child
      ∧ c_count cn' = c_count cn
      ∧ dheap σ' !! child = Some dchild
      ∧ d_observation dchild = Observed 5
      ∧ nodes σ' !! str_obs 5 = Some node
      ∧ dheap σ' !! node = Some dnode
      ∧ c_parent cn ∈ d_parents dnode
      ∧ ∀ f, get_field child f σ' = Ok (get_d_value f dnode) σ'.
Proof.
  intros cn. split; [reflexivity|]. split; [reflexivity|].
  apply (chance_get_child_claims_placeholder explored 0 cn 5 1);
    [reflexivity|reflexivity|reflexivity| |].
  - intros k r Hin. apply lookup_lt_is_Some.
    change (c_children cn) with [("placeholder_1", 3); ("s0", 2)] in Hin.
    apply elem_of_cons in Hin as [[= _ ->]|Hin]; [vm_compute; lia|].
    apply elem_of_cons in Hin as [[= _ ->]|Hin]; [vm_compute; lia|].
    by apply elem_of_nil in Hin.
  - intros r Hr. vm_compute in Hr. discriminate Hr.
Defined.

(** X15 on the explored planner: the iteration from the node of
    observation 0 ends within 20 passes. *)
Lemma value_iteration_only_writes_estimates_witness :
  ∃ res, partial_value_iteration 20 1 None explored = Some res
         ∧ value_frame explored (final_state res)
         ∧ length (dheap (final_state res)) = length (dheap explored)
         ∧ length (cheap (final_state res)) = length (cheap explored)
         ∧ ∀ r, visits (final_state res) r = visits explored r.
Proof.
  destruct (partial_value_iteration 20 1 None explored) as [res|] eqn:Hrun.
  - exists res. split; [reflexivity|].
    exact (value_iteration_only_writes_estimates explored 20 1 None res Hrun).
  - vm_compute in Hrun. discriminate Hrun.
Defined.

(** X16 on the two passes that lead to the explored planner: both visit
    the node of observation 0, which is queued once. *)
Lemma run_loop_queue_witness :
  run_loop 2 0 0 [] None fresh = Ok ([1], Some 1) explored
  ∧ NoDup [1]
  ∧ [] `prefix_of` [1]
  ∧ length [1] ≤ length (@nil nat) + 2
  ∧ ∃ dn, Some 1 = Some dn ∧ dn ∈ [1].
Proof.
  assert (run_loop 2 0 0 [] None fresh = Ok ([1], Some 1) explored) as Hrun
    by (vm_compute; reflexivity).
  destruct (run_loop_queue 2 0 0 [] None fresh [1] (Some 1) explored Hrun
              (NoDup_nil_2 (A := nat)))
    as (Hnodup & Hprefix & Hlen & _ & Hlast).
  split; [exact Hrun|]. split; [exact Hnodup|]. split; [exact Hprefix|].
  split; [exact Hlen|]. apply Hlast. lia.
Defined.


(** X18 on the first chance node of the explored planner. *)
Lemma chance_capacity_is_fixed_witness :
  let cn := chance_at explored 0 in
  length (c_children cn) = 2
  ∧ ∀ keys : list string,
      NoDup keys →
      (∀ k, k ∈ keys → is_Some (dict_get k (c_children cn))) →
      length keys ≤ 2.
Proof.
  exact (chance_capacity_is_fixed explored 0 (chance_at explored 0)
           explored_reachable eq_refl).
Defined.

(** X19 on the explored planner. *)
Lemma children_have_one_owner_witness :
  (∀ c cn r, cheap explored !! c = Some cn → r ∈ kids cn →
             is_Some (dheap explored !! r))
  ∧ (∀ c cn, cheap explored !! c = Some cn → NoDup (kids cn))
  ∧ (∀ c1 c2 cn1 cn2 r,
       cheap explored !! c1 = Some cn1 → cheap explored !! c2 = Some cn2 →
       r ∈ kids cn1 → r ∈ kids cn2 → c1 = c2)
  ∧ (∀ k r, nodes explored !! k = Some r →
            is_Some (dheap explored !! r) ∧ unowned explored r).
Proof. exact (children_have_one_owner explored explored_reachable). Defined.

Lemma fresh_reachable : reachable fresh.
Proof.
  assert (fresh = final_state (reset (new_planner (cfg (kl_bound "0") 2) 2 tt)))
    as -> by (vm_compute; reflexivity).
  apply reach_reset, reach_new.
Qed.

(** X20 on a search of three episodes from the planner after [reset]. *)
Lemma plan_keeps_root_witness :
  ∃ res, plan_search 20 0 0 fresh = Some res
         ∧ nodes (final_state res) !! "s0" = Some (root (final_state res))
         ∧ root (final_state res) = 1
         ∧ config (final_state res) = config fresh
         ∧ nodes fresh ⊆ nodes (final_state res)
         ∧ reachable (final_state res).
Proof.
  destruct (plan_search 20 0 0 fresh) as [res|] eqn:Hrun.
  - exists res. split; [reflexivity|].
    destruct (plan_keeps_root fresh 20 0 0 res Hrun)
      as (Hroot & Hcfg & Hnodes & _ & _ & Hreach).
    split; [exact Hroot|].
    split; [vm_compute in Hrun; injection Hrun as <-; reflexivity|].
    split; [exact Hcfg|]. split; [exact Hnodes|].
    exact (Hreach fresh_reachable).
  - vm_compute in Hrun. discriminate Hrun.
Defined.

(** X21 on the node of observation 0: the sampling rule expands it and
    answers with action 0, the selection rule on the explored planner
    answers with action 0 as well. *)
Lemma chosen_action_has_chance_node_witness :
  (∃ σ' c, sampling_rule 1 arrived = Ok 0 σ' ∧ d_get_child 1 0 σ' = Ok c σ')
  ∧ (∃ σ' c, selection_rule 1 explored = Ok 0 σ'
             ∧ d_get_child 1 0 σ' = Ok c σ').
Proof.
  split.
  - set (σ' := final_state (sampling_rule 1 arrived)).
    assert (sampling_rule 1 arrived = Ok 0 σ') as Hrun
      by (vm_compute; reflexivity).
    destruct (proj1 (chosen_action_has_chance_node arrived 1 0 σ') Hrun)
      as [c Hc].
    by exists σ', c.
  - set (σ' := final_state (selection_rule 1 explored)).
    assert (selection_rule 1 explored = Ok 0 σ') as Hrun
      by (vm_compute; reflexivity).
    destruct (proj2 (chosen_action_has_chance_node explored 1 0 σ') Hrun)
      as [c Hc].
    by exists σ', c.
Defined.


End OnNumbers.

Module OnStrings.
Import Fixture Fixture.StringEnv.

Lemma stepped_reachable : reachable stepped.
Proof.
  assert (fresh = final_state (reset (new_planner (cfg (kl_bound "0") 1) 2 tt)))
    as Hfresh by (vm_compute; reflexivity).
  assert (stepped = final_state (run_iteration 0 "start" [] fresh)) as ->
    by (vm_compute; reflexivity).
  apply reach_pass. rewrite Hfresh. apply reach_reset, reach_new.
Qed.


End OnStrings.

Module OnEchoes.
Import Fixture Fixture.EchoEnv.

Lemma full_reachable : reachable full.
Proof.
  assert (fresh = final_state (reset (new_planner (cfg (kl_bound "0") 2) 2 tt)))
    as Hfresh by (vm_compute; reflexivity).
  assert (once = final_state (run_iteration 0 "start" [] fresh)) as Honce
    by (vm_compute; reflexivity).
  assert (full = final_state (run_iteration 1 "start" [1] once)) as ->
    by (vm_compute; reflexivity).
  apply reach_pass. rewrite Honce. apply reach_pass. rewrite Hfresh.
  apply reach_reset, reach_new.
Qed.


End OnEchoes.
